(** * Lowering of system-value variable reads (nir_lower_system_values)

    A shallow embedding of the pass of [nir_lower_system_values.c]
    ([convert_block], [convert_impl], [nir_lower_system_values]) together
    with the part of the IR and of the builder it relies on, and the
    properties of the pass.  Beside it, the macros of the header for
    per-generation compilation and the state macros of [si_state.h]. *)

From Stdlib Require Import String Ascii.
From Stdlib Require Import ZArith List Bool Lia PeanoNat Permutation.
Import ListNotations.

(** ** Enumerations *)

(** Modelled from the spec: the enumeration [gl_system_value] is declared
    in a header that is not part of the sources.  The four kinds the pass
    names in its [switch] are constructors of their own; every other
    enumerator is [SYSTEM_VALUE_other n], [n] being its number. *)
Inductive gl_system_value : Type :=
| SYSTEM_VALUE_GLOBAL_INVOCATION_ID
| SYSTEM_VALUE_LOCAL_INVOCATION_INDEX
| SYSTEM_VALUE_VERTEX_ID
| SYSTEM_VALUE_INSTANCE_INDEX
| SYSTEM_VALUE_other (n : N).

(** Modelled from the spec: [nir_variable_mode]; the pass only tells
    [nir_var_system_value] from the rest. *)
Inductive nir_variable_mode : Type :=
| nir_var_system_value
| nir_var_other (n : N).

(** Modelled from the spec: the intrinsic opcodes the pass names, and the
    remaining ones by number. *)
Inductive nir_intrinsic_op : Type :=
| nir_intrinsic_load_var
| nir_intrinsic_load_work_group_id
| nir_intrinsic_load_local_invocation_id
| nir_intrinsic_load_vertex_id_zero_base
| nir_intrinsic_load_base_vertex
| nir_intrinsic_load_vertex_id
| nir_intrinsic_load_instance_id
| nir_intrinsic_load_base_instance
| nir_intrinsic_other (n : N).

(** Modelled from the spec: the ALU opcodes the builder calls of the pass
    produce ([nir_iadd], [nir_imul], and the move behind [nir_channel]),
    and the remaining ones by number. *)
Inductive nir_op : Type :=
| nir_op_iadd
| nir_op_imul
| nir_op_imov
| nir_op_other (n : N).

(** ** Variables, values and instructions *)

(** [var->data.mode] and [var->data.location]; the pass reads the location
    of a variable of mode [nir_var_system_value] only, where it holds a
    [gl_system_value]. *)
Record nir_variable : Type := {
  data_mode : nir_variable_mode;
  data_location : gl_system_value
}.

(** Modelled from the spec: a single-assignment value.  The C code names a
    value by the address of its [nir_ssa_def]; here [index] stands for
    that address, and is handed out by the counter [ssa_alloc] of the
    function the value lives in. *)
Record nir_ssa_def : Type := {
  index : nat;
  num_components : nat
}.

(** A source of an ALU instruction: the value read and the component of it
    that each component of the result reads. *)
Record nir_alu_src : Type := {
  src_ssa : nat;
  swizzle : list nat
}.

(** An intrinsic call: [variables[0]] is the head of [variables] (the
    pass looks at the variable only, not at the rest of the dereference),
    [const_index[0]] the head of [const_index]. *)
Record nir_intrinsic_instr : Type := {
  intrinsic : nir_intrinsic_op;
  variables : list nir_variable;
  const_index : list Z;
  intrinsic_src : list nat
}.

(** Modelled from the spec: the tagged variant [nir_instr]; the tag is
    [instr->type].  Instruction kinds the pass skips without looking
    inside (calls, texture fetches, phis, jumps, ...) are [_other], with
    the values they use. *)
Inductive nir_instr_type : Type :=
| nir_instr_type_alu (op : nir_op) (src : list nir_alu_src)
| nir_instr_type_intrinsic (i : nir_intrinsic_instr)
| nir_instr_type_load_const (value : list Z)
| nir_instr_type_other (tag : N) (src : list nat).

Record nir_instr : Type := {
  dest : nir_ssa_def;
  type : nir_instr_type
}.

(** Modelled from the spec: a basic block is an ordered sequence of
    instructions; control-flow edges are kept as the positions of the
    successor and predecessor blocks. *)
Record nir_block : Type := {
  instr_list : list nir_instr;
  successors : list nat;
  predecessors : list nat
}.

(** A function body: its blocks in order, the counter that hands out new
    values, and [valid_metadata], the bit set of the analyses that are up
    to date. *)
Record nir_function_impl : Type := {
  body : list nir_block;
  ssa_alloc : nat;
  valid_metadata : Z
}.

(** [function->impl] is [None] for a function without a body. *)
Record nir_function : Type := {
  function_impl : option nir_function_impl
}.

(** [info.cs.local_size] and [options->vertex_id_zero_based]. *)
Record nir_shader_info : Type := {
  cs_local_size : Z * Z * Z
}.

Record nir_shader_compiler_options : Type := {
  vertex_id_zero_based : bool
}.

Record nir_shader : Type := {
  functions : list nir_function;
  system_values : list nir_variable;
  info : nir_shader_info;
  options : nir_shader_compiler_options
}.

(** [info.cs.local_size[c]]. *)
Definition local_size (i : nir_shader_info) (c : nat) : Z :=
  let '(x, y, z) := cs_local_size i in
  match c with
  | 0%nat => x
  | 1%nat => y
  | _ => z
  end.

(** ** Uses of a value *)

Definition alu_src_uses (s : nir_alu_src) : nat := src_ssa s.

Definition instr_uses (i : nir_instr) : list nat :=
  match type i with
  | nir_instr_type_alu _ src => map alu_src_uses src
  | nir_instr_type_intrinsic intr => intrinsic_src intr
  | nir_instr_type_load_const _ => []
  | nir_instr_type_other _ src => src
  end.

Definition instrs_at (blocks : list nir_block) (bi : nat) : list nir_instr :=
  match nth_error blocks bi with
  | Some blk => instr_list blk
  | None => []
  end.

Definition block_instrs (impl : nir_function_impl) (bi : nat) : list nir_instr :=
  instrs_at (body impl) bi.

Definition impl_instrs (impl : nir_function_impl) : list nir_instr :=
  flat_map instr_list (body impl).

(** ** Primitives of the IR

    Modelled from the spec (section 6, "IR construction/builder"): none of
    these is part of the sources; each does what the spec says the
    collaborator supplies. *)

Definition set_instr_list (blk : nir_block) (l : list nir_instr) : nir_block :=
  {| instr_list := l; successors := successors blk; predecessors := predecessors blk |}.

Fixpoint update_block (bi : nat) (f : list nir_instr -> list nir_instr)
  (blocks : list nir_block) : list nir_block :=
  match blocks, bi with
  | [], _ => []
  | blk :: rest, O => set_instr_list blk (f (instr_list blk)) :: rest
  | blk :: rest, S bi' => blk :: update_block bi' f rest
  end.

Definition set_body (impl : nir_function_impl) (b : list nir_block) : nir_function_impl :=
  {| body := b; ssa_alloc := ssa_alloc impl; valid_metadata := valid_metadata impl |}.

(** A cursor of the kind [nir_after_instr] makes: the block, and the
    position in it of the instruction the cursor follows. *)
Record nir_cursor : Type := {
  cursor_block : nat;
  cursor_instr : nat
}.

Definition nir_after_instr (bi k : nat) : nir_cursor :=
  {| cursor_block := bi; cursor_instr := k |}.

(** Modelled from the spec: "instruction insertion at a cursor position". *)
Definition nir_instr_insert (c : nir_cursor) (instr : nir_instr)
  (impl : nir_function_impl) : nir_function_impl :=
  set_body impl
    (update_block (cursor_block c)
       (fun l => firstn (S (cursor_instr c)) l ++ instr :: skipn (S (cursor_instr c)) l)
       (body impl)).

(** Modelled from the spec: "safe removal of an instruction from its
    block"; the instruction is the one at position [k] of block [bi]. *)
Definition nir_instr_remove (bi k : nat) (impl : nir_function_impl) : nir_function_impl :=
  set_body impl
    (update_block bi (fun l => firstn k l ++ skipn (S k) l) (body impl)).

Definition rewrite_src (old new : nat) (s : nat) : nat :=
  if Nat.eqb s old then new else s.

Definition rewrite_alu_src (old new : nat) (s : nir_alu_src) : nir_alu_src :=
  {| src_ssa := rewrite_src old new (src_ssa s); swizzle := swizzle s |}.

Definition nir_instr_rewrite_src (old new : nat) (i : nir_instr) : nir_instr :=
  {| dest := dest i;
     type :=
       match type i with
       | nir_instr_type_alu op src =>
           nir_instr_type_alu op (map (rewrite_alu_src old new) src)
       | nir_instr_type_intrinsic intr =>
           nir_instr_type_intrinsic
             {| intrinsic := intrinsic intr;
                variables := variables intr;
                const_index := const_index intr;
                intrinsic_src := map (rewrite_src old new) (intrinsic_src intr) |}
       | nir_instr_type_load_const v => nir_instr_type_load_const v
       | nir_instr_type_other tag src =>
           nir_instr_type_other tag (map (rewrite_src old new) src)
       end |}.

Definition rewrite_block (old new : nat) (blk : nir_block) : nir_block :=
  set_instr_list blk (map (nir_instr_rewrite_src old new) (instr_list blk)).

(** Modelled from the spec: "redirection of all uses of a value to a
    replacement value", over every instruction of the function. *)
Definition nir_ssa_def_rewrite_uses (old : nir_ssa_def) (new : nir_ssa_def)
  (impl : nir_function_impl) : nir_function_impl :=
  set_body impl (map (rewrite_block (index old) (index new)) (body impl)).

(** Modelled from the spec: the metadata flags, one bit each. *)
Definition nir_metadata_block_index : Z := 1.
Definition nir_metadata_dominance : Z := 2.

(** Modelled from the spec: the analyses not named in [preserved] stop
    being valid, the others stay as they were. *)
Definition nir_metadata_preserve (impl : nir_function_impl) (preserved : Z)
  : nir_function_impl :=
  {| body := body impl;
     ssa_alloc := ssa_alloc impl;
     valid_metadata := Z.land (valid_metadata impl) preserved |}.

(** ** Meaning of the instructions the pass inserts

    Modelled from the spec: a value is a vector of 32-bit components;
    integer addition and multiplication are component-wise and wrap
    around at 32 bits. *)

Definition wrap32 (z : Z) : Z := z mod 2 ^ 32.

Definition value : Type := list Z.

Definition component (v : value) (c : nat) : Z := nth c v 0%Z.

(** What the hardware supplies for a system-value intrinsic, component by
    component. *)
Definition sysval_env : Type := nir_intrinsic_op -> nat -> Z.

Definition regs : Type := nat -> option value.

Definition set_reg (r : regs) (i : nat) (v : value) : regs :=
  fun j => if Nat.eqb j i then Some v else r j.

Definition read_alu_src (r : regs) (nc : nat) (s : nir_alu_src) : option value :=
  match r (src_ssa s) with
  | Some v => Some (map (fun c => component v (nth c (swizzle s) 0%nat)) (seq 0 nc))
  | None => None
  end.

Definition binop (f : Z -> Z -> Z) (nc : nat) (a b : value) : value :=
  map (fun c => wrap32 (f (component a c) (component b c))) (seq 0 nc).

Definition eval_instr (env : sysval_env) (r : regs) (i : nir_instr) : option value :=
  let nc := num_components (dest i) in
  match type i with
  | nir_instr_type_alu nir_op_iadd [s0; s1] =>
      match read_alu_src r nc s0, read_alu_src r nc s1 with
      | Some a, Some b => Some (binop Z.add nc a b)
      | _, _ => None
      end
  | nir_instr_type_alu nir_op_imul [s0; s1] =>
      match read_alu_src r nc s0, read_alu_src r nc s1 with
      | Some a, Some b => Some (binop Z.mul nc a b)
      | _, _ => None
      end
  | nir_instr_type_alu nir_op_imov [s0] => read_alu_src r nc s0
  | nir_instr_type_alu _ _ => None
  | nir_instr_type_intrinsic intr =>
      match intrinsic intr, variables intr, intrinsic_src intr with
      | nir_intrinsic_load_var, _, _ => None
      | op, [], [] => Some (map (fun c => wrap32 (env op c)) (seq 0 nc))
      | _, _, _ => None
      end
  | nir_instr_type_load_const v => Some (map (fun c => wrap32 (component v c)) (seq 0 nc))
  | nir_instr_type_other _ _ => None
  end.

Fixpoint exec_instrs (env : sysval_env) (r : regs) (l : list nir_instr) : option regs :=
  match l with
  | [] => Some r
  | i :: rest =>
      match eval_instr env r i with
      | Some v => exec_instrs env (set_reg r (index (dest i)) v) rest
      | None => None
      end
  end.

(** ** The builder *)

(** [b->cursor], [b->shader] (its [info] and [options]) and [b->impl]. *)
Record nir_builder : Type := {
  cursor : nir_cursor;
  builder_info : nir_shader_info;
  builder_options : nir_shader_compiler_options;
  builder_impl : nir_function_impl
}.

Definition set_cursor (b : nir_builder) (c : nir_cursor) : nir_builder :=
  {| cursor := c; builder_info := builder_info b;
     builder_options := builder_options b; builder_impl := builder_impl b |}.

Definition set_impl (b : nir_builder) (impl : nir_function_impl) : nir_builder :=
  {| cursor := cursor b; builder_info := builder_info b;
     builder_options := builder_options b; builder_impl := impl |}.

Definition nir_builder_init (sh_info : nir_shader_info)
  (sh_options : nir_shader_compiler_options) (impl : nir_function_impl) : nir_builder :=
  {| cursor := nir_after_instr 0 0; builder_info := sh_info;
     builder_options := sh_options; builder_impl := impl |}.

(** Builder calls thread the builder: a small state monad. *)
Definition build (A : Type) : Type := nir_builder -> A * nir_builder.

Definition ret {A : Type} (a : A) : build A := fun b => (a, b).

Definition bind {A B : Type} (m : build A) (k : A -> build B) : build B :=
  fun b => let '(a, b') := m b in k a b'.

Notation "x <- m ;; k" := (bind m (fun x => k))
  (at level 61, m at next level, right associativity).

(** C leaves open the order in which the arguments of a call are
    evaluated.  Where two arguments of one call are builder calls, the
    order in which the two insert their instructions is the choice of
    the compiler at that call. *)
Inductive argument_order : Type :=
| left_to_right
| right_to_left.

(** Two builder calls that are arguments of one call, run in the order
    [o]; the result holds the value of the first argument and the value
    of the second. *)
Definition build_args {A B : Type} (o : argument_order)
  (arg0 : build A) (arg1 : build B) : build (A * B) :=
  match o with
  | left_to_right => a <- arg0 ;; b <- arg1 ;; ret (a, b)
  | right_to_left => b <- arg1 ;; a <- arg0 ;; ret (a, b)
  end.

(** Modelled from the spec: a new value of the function; its [index] is
    the next one of the function's counter. *)
Definition nir_ssa_dest_init (nc : nat) : build nir_ssa_def :=
  fun b =>
    let impl := builder_impl b in
    ({| index := ssa_alloc impl; num_components := nc |},
     set_impl b {| body := body impl;
                   ssa_alloc := S (ssa_alloc impl);
                   valid_metadata := valid_metadata impl |}).

(** Modelled from the spec: insert at the cursor, and move the cursor
    behind the new instruction. *)
Definition nir_builder_instr_insert (instr : nir_instr) : build unit :=
  fun b =>
    let c := cursor b in
    (tt, set_cursor (set_impl b (nir_instr_insert c instr (builder_impl b)))
           (nir_after_instr (cursor_block c) (S (cursor_instr c)))).

Definition identity_swizzle : list nat := [0; 1; 2; 3]%nat.

(** Modelled from the spec: the creation of an ALU instruction with two
    sources.  The result has as many components as the wider source, and
    component [c] of the result reads component [c] of each source. *)
Definition nir_build_alu2 (op : nir_op) (src0 src1 : nir_ssa_def) : build nir_ssa_def :=
  d <- nir_ssa_dest_init (Nat.max (num_components src0) (num_components src1)) ;;
  _ <- nir_builder_instr_insert
         {| dest := d;
            type := nir_instr_type_alu op
                      [ {| src_ssa := index src0; swizzle := identity_swizzle |};
                        {| src_ssa := index src1; swizzle := identity_swizzle |} ] |} ;;
  ret d.

Definition nir_iadd : nir_ssa_def -> nir_ssa_def -> build nir_ssa_def :=
  nir_build_alu2 nir_op_iadd.

Definition nir_imul : nir_ssa_def -> nir_ssa_def -> build nir_ssa_def :=
  nir_build_alu2 nir_op_imul.

(** Modelled from the spec: [nir_channel b def c], a one-component move
    that reads component [c] of [def]. *)
Definition nir_channel (def : nir_ssa_def) (c : nat) : build nir_ssa_def :=
  d <- nir_ssa_dest_init 1 ;;
  _ <- nir_builder_instr_insert
         {| dest := d;
            type := nir_instr_type_alu nir_op_imov
                      [ {| src_ssa := index def; swizzle := [c; c; c; c] |} ] |} ;;
  ret d.

(** Modelled from the spec: the creation of a constant instruction of
    [nc] components; [nir_imm_int] makes a scalar from a 32-bit integer. *)
Definition nir_build_imm (nc : nat) (v : list Z) : build nir_ssa_def :=
  d <- nir_ssa_dest_init nc ;;
  _ <- nir_builder_instr_insert {| dest := d; type := nir_instr_type_load_const v |} ;;
  ret d.

Definition nir_imm_int (x : Z) : build nir_ssa_def :=
  nir_build_imm 1 [wrap32 x].

Definition shader_info : build nir_shader_info := fun b => (builder_info b, b).

Definition shader_options : build nir_shader_compiler_options :=
  fun b => (builder_options b, b).

(** ** The builder in closed form *)

Definition insert_after (k : nat) (es l : list nir_instr) : list nir_instr :=
  firstn (S k) l ++ es ++ skipn (S k) l.

(** The builder after [n] values were made and the instructions [es]
    inserted through it. *)
Definition emit (n : nat) (es : list nir_instr) (b : nir_builder) : nir_builder :=
  {| cursor := nir_after_instr (cursor_block (cursor b))
                 (cursor_instr (cursor b) + length es);
     builder_info := builder_info b;
     builder_options := builder_options b;
     builder_impl :=
       {| body := update_block (cursor_block (cursor b))
                    (insert_after (cursor_instr (cursor b)) es)
                    (body (builder_impl b));
          ssa_alloc := ssa_alloc (builder_impl b) + n;
          valid_metadata := valid_metadata (builder_impl b) |} |}.

(** The cursor follows an instruction that is in its block. *)
Definition cursor_ok (b : nir_builder) : Prop :=
  cursor_instr (cursor b) < length (block_instrs (builder_impl b) (cursor_block (cursor b))).

Arguments emit : simpl never.
Arguments wrap32 : simpl never.

Definition alu2_instr (a : nat) (op : nir_op) (src0 src1 : nir_ssa_def) : nir_instr :=
  {| dest := {| index := a;
                num_components := Nat.max (num_components src0) (num_components src1) |};
     type := nir_instr_type_alu op
               [ {| src_ssa := index src0; swizzle := identity_swizzle |};
                 {| src_ssa := index src1; swizzle := identity_swizzle |} ] |}.

Definition channel_instr (a : nat) (def : nir_ssa_def) (c : nat) : nir_instr :=
  {| dest := {| index := a; num_components := 1 |};
     type := nir_instr_type_alu nir_op_imov
               [ {| src_ssa := index def; swizzle := [c; c; c; c] |} ] |}.

Definition imm_instr (a : nat) (nc : nat) (v : list Z) : nir_instr :=
  {| dest := {| index := a; num_components := nc |};
     type := nir_instr_type_load_const v |}.

(** The values that two builder calls passed as arguments of one call
    define, when [k] values were made since the counter was at [a]: the
    value of the first argument and the value of the second. *)
Definition arg_places (o : argument_order) (a k : nat) : nat * nat :=
  match o with
  | left_to_right => (a + k, a + S k)
  | right_to_left => (a + S k, a + k)
  end.

(** The instruction [i0] of the first argument and the instruction [i1]
    of the second, in the order in which they are inserted. *)
Definition in_order (o : argument_order) (i0 i1 : nir_instr) : list nir_instr :=
  match o with
  | left_to_right => [i0; i1]
  | right_to_left => [i1; i0]
  end.

(** The control-flow edges of the blocks, in order. *)
Definition edges (blocks : list nir_block) : list (list nat * list nat) :=
  map (fun blk => (successors blk, predecessors blk)) blocks.

(** The state of the pass: [struct lower_system_values_state]. *)
Record lower_system_values_state : Type := {
  builder : nir_builder;
  progress : bool
}.

(** ** Concrete shaders

    The tables and the shaders the rules are run on further down. *)

(** A mapping table with an entry for every kind the [switch] leaves to
    it. *)
Definition example_table (location : gl_system_value) : option nir_intrinsic_op :=
  match location with
  | SYSTEM_VALUE_other n => Some (nir_intrinsic_other n)
  | _ => None
  end.

(** Work group id and local invocation id have three components, the
    other system values one. *)
Definition example_dest_components (op : nir_intrinsic_op) : nat :=
  match op with
  | nir_intrinsic_load_work_group_id => 3
  | nir_intrinsic_load_local_invocation_id => 3
  | _ => 1
  end.

(** An order of evaluation as a compiler may choose it: at each of the
    three calls, the argument on the right first. *)
Definition example_args_order (location : gl_system_value) : argument_order :=
  right_to_left.

(** What the hardware supplies: work group id, local invocation id, and
    the scalars vertex id (zero-based and not), base vertex, instance id
    and base instance. *)
Definition example_env (group_id local_id : list Z)
  (zero_base base_vertex vertex_id instance_id base_instance : Z) : sysval_env :=
  fun op c =>
    match op with
    | nir_intrinsic_load_work_group_id => nth c group_id 0%Z
    | nir_intrinsic_load_local_invocation_id => nth c local_id 0%Z
    | nir_intrinsic_load_vertex_id_zero_base => zero_base
    | nir_intrinsic_load_base_vertex => base_vertex
    | nir_intrinsic_load_vertex_id => vertex_id
    | nir_intrinsic_load_instance_id => instance_id
    | nir_intrinsic_load_base_instance => base_instance
    | _ => 0%Z
    end.

Definition example_info (x y z : Z) : nir_shader_info :=
  {| cs_local_size := (x, y, z) |}.

Definition example_options : nir_shader_compiler_options :=
  {| vertex_id_zero_based := true |}.

(** A variable read of the system value [location], defining value [i]. *)
Definition example_read (i : nat) (location : gl_system_value) : nir_instr :=
  {| dest := {| index := i; num_components := 1 |};
     type := nir_instr_type_intrinsic
               {| intrinsic := nir_intrinsic_load_var;
                  variables := [ {| data_mode := nir_var_system_value;
                                    data_location := location |} ];
                  const_index := [];
                  intrinsic_src := [] |} |}.

(** An instruction the pass skips, defining [i] and using [src]. *)
Definition example_use (i : nat) (src : list nat) : nir_instr :=
  {| dest := {| index := i; num_components := 1 |};
     type := nir_instr_type_other 0 src |}.

(** One block: a read of [location] between two other instructions, the
    second of which uses the value read. *)
Definition example_impl (location : gl_system_value) : nir_function_impl :=
  {| body := [ {| instr_list := [example_use 0 []; example_read 1 location;
                                 example_use 2 [1]];
                  successors := []; predecessors := [] |} ];
     ssa_alloc := 3;
     valid_metadata := 7 |}.

Definition example_state (sh_info : nir_shader_info)
  (sh_options : nir_shader_compiler_options) (impl : nir_function_impl)
  : lower_system_values_state :=
  {| builder := nir_builder_init sh_info sh_options impl; progress := false |}.

(** A shader with two functions, the second one without a body. *)
Definition example_shader (location : gl_system_value) : nir_shader :=
  {| functions := [ {| function_impl := Some (example_impl location) |};
                    {| function_impl := None |} ];
     system_values := [ {| data_mode := nir_var_system_value;
                           data_location := location |} ];
     info := example_info 8 1 1;
     options := example_options |}.

(** A shader without system values: its one function reads none, and the
    list of system-value variables is empty. *)
Definition example_plain_shader : nir_shader :=
  {| functions :=
       [ {| function_impl :=
              Some {| body := [ {| instr_list := [example_use 0 []; example_use 1 [0]];
                                   successors := []; predecessors := [] |} ];
                      ssa_alloc := 2;
                      valid_metadata := 3 |} |} ];
     system_values := [];
     info := example_info 1 1 1;
     options := example_options |}.

(** ** The macros for per-generation compilation

    The header is read for one value of [GEN_VERSIONx10], which the
    command line gives. *)

(** [GEN_GEN]; the division of C rounds towards zero. *)
Definition GEN_GEN (GEN_VERSIONx10 : Z) : Z := Z.quot GEN_VERSIONx10 10.

Definition GEN_IS_HASWELL (GEN_VERSIONx10 : Z) : bool := Z.eqb GEN_VERSIONx10 75.

(** The prefixing macros [GENX(X)] and [genX(x)]: [##] pastes the prefix
    of the generation and the name.  [None] is the [#error] of the last
    branch: the header has no prefix for the generation. *)
Definition GENX (GEN_VERSIONx10 : Z) (X : string) : option string :=
  if Z.eqb GEN_VERSIONx10 70 then Some ("GEN7_" ++ X)%string
  else if Z.eqb GEN_VERSIONx10 75 then Some ("GEN75_" ++ X)%string
  else if Z.eqb GEN_VERSIONx10 80 then Some ("GEN8_" ++ X)%string
  else if Z.eqb GEN_VERSIONx10 90 then Some ("GEN9_" ++ X)%string
  else None.

Definition genX (GEN_VERSIONx10 : Z) (x : string) : option string :=
  if Z.eqb GEN_VERSIONx10 70 then Some ("gen7_" ++ x)%string
  else if Z.eqb GEN_VERSIONx10 75 then Some ("gen75_" ++ x)%string
  else if Z.eqb GEN_VERSIONx10 80 then Some ("gen8_" ++ x)%string
  else if Z.eqb GEN_VERSIONx10 90 then Some ("gen9_" ++ x)%string
  else None.

Ltac gen_cases v :=
  destruct (Z.eqb v 70) eqn:?; [|
  destruct (Z.eqb v 75) eqn:?; [|
  destruct (Z.eqb v 80) eqn:?; [|
  destruct (Z.eqb v 90) eqn:?]]].

(** ** The state blocks of the radeonsi driver ([si_state.h]) *)

Module SiState.

(** The members of [named] in [union si_state], in the order of the
    declaration. *)
Inductive member : Type :=
| blend
| rasterizer
| dsa
| poly_offset
| ls
| hs
| es
| gs
| vgt_shader_config
| vs
| ps.

(** The place of a member in the declaration. *)
Definition position (m : member) : nat :=
  match m with
  | blend => 0
  | rasterizer => 1
  | dsa => 2
  | poly_offset => 3
  | ls => 4
  | hs => 5
  | es => 6
  | gs => 7
  | vgt_shader_config => 8
  | vs => 9
  | ps => 10
  end.

(** A pointer to a state: its address; [NULL] is the address 0. *)
Definition pointer : Type := N.

Definition NULL : pointer := 0%N.

(** [union si_state]: the pointers of [named] are the elements of
    [array].  The union is kept as [array]; every member of [named] is a
    pointer, of [psize] bytes, so that the member at place [k] starts
    [k * psize] bytes into the union. *)
Definition si_state : Type := nat -> pointer.

Definition offsetof_named (psize : nat) (m : member) : nat := position m * psize.

(** [si_pm4_block_idx(member)]. *)
Definition si_pm4_block_idx (psize : nat) (m : member) : nat :=
  offsetof_named psize m / psize.

(** [s.named.member] and the assignment to it. *)
Definition named (s : si_state) (m : member) : pointer := s (position m).

Definition set_named (s : si_state) (m : member) (value : pointer) : si_state :=
  fun k => if Nat.eqb k (position m) then value else s k.

(** Modelled from the spec: [struct si_context] is declared in
    [si_pipe.h], which is not part of the sources; the macros of
    [si_state.h] read and write its fields [queued] and [emitted] only. *)
Record si_context : Type := {
  queued : si_state;
  emitted : si_state
}.

(** [si_pm4_state_changed(sctx, member)]. *)
Definition si_pm4_state_changed (sctx : si_context) (m : member) : bool :=
  negb (N.eqb (named (queued sctx) m) (named (emitted sctx) m)).

(** [si_pm4_bind_state(sctx, member, value)]. *)
Definition si_pm4_bind_state (sctx : si_context) (m : member) (value : pointer)
  : si_context :=
  {| queued := set_named (queued sctx) m value; emitted := emitted sctx |}.

(** [si_pm4_delete_state(sctx, member, value)].  [si_pm4_free_state] is
    defined in [si_pm4.c], which is not part of the sources: the macro
    is stated for any such function, and gives what that function makes
    of the context it is called on. *)
Definition si_pm4_delete_state
  (si_pm4_free_state : si_context -> pointer -> nat -> si_context)
  (psize : nat) (sctx : si_context) (m : member) (value : pointer) : si_context :=
  let sctx :=
    if N.eqb (named (queued sctx) m) value
    then {| queued := set_named (queued sctx) m NULL; emitted := emitted sctx |}
    else sctx in
  si_pm4_free_state sctx value (si_pm4_block_idx psize m).

End SiState.

(** ** The pass *)

Section Pass.

(** The mapping table [nir_intrinsic_from_system_value] and the table
    [nir_intrinsic_infos[op].dest_components] are not part of the
    sources: the pass is stated for any such tables.  A kind without an
    entry is [None]; reaching it ends the run ([unreachable]). *)
Variable nir_intrinsic_from_system_value : gl_system_value -> option nir_intrinsic_op.
Variable dest_components : nir_intrinsic_op -> nat.

(** The [switch] of [convert_block] holds three calls two arguments of
    which are builder calls: one in the case of the local invocation
    index, one in the case of the vertex id and one in the case of the
    instance index.  [args_order location] is the order the compiler
    chose for the call in the case [location]; the pass is stated for
    any choice. *)
Variable args_order : gl_system_value -> argument_order.

(** Modelled from the spec: [nir_load_system_value b op index], the
    creation of an intrinsic call without variables and sources, with
    [const_index[0] = index] and as many components as the table of the
    intrinsics gives for [op]. *)
Definition nir_load_system_value (op : nir_intrinsic_op) (idx : Z) : build nir_ssa_def :=
  d <- nir_ssa_dest_init (dest_components op) ;;
  _ <- nir_builder_instr_insert
         {| dest := d;
            type := nir_instr_type_intrinsic
                      {| intrinsic := op; variables := [];
                         const_index := [idx]; intrinsic_src := [] |} |} ;;
  ret d.

(** The [switch] of [convert_block]: the instructions that compute the
    system value [location], inserted at the cursor.  Where two
    arguments of one call are builder calls, they run in the order
    [args_order location]. *)
Definition build_sysval (location : gl_system_value) : build (option nir_ssa_def) :=
  match location with
  | SYSTEM_VALUE_GLOBAL_INVOCATION_ID =>
      i <- shader_info ;;
      let local_size_v :=
        [wrap32 (local_size i 0); wrap32 (local_size i 1); wrap32 (local_size i 2)] in
      group_id <- nir_load_system_value nir_intrinsic_load_work_group_id 0 ;;
      local_id <- nir_load_system_value nir_intrinsic_load_local_invocation_id 0 ;;
      imm <- nir_build_imm 3 local_size_v ;;
      mul <- nir_imul group_id imm ;;
      sysval <- nir_iadd mul local_id ;;
      ret (Some sysval)
  | SYSTEM_VALUE_LOCAL_INVOCATION_INDEX =>
      i <- shader_info ;;
      local_id <- nir_load_system_value nir_intrinsic_load_local_invocation_id 0 ;;
      size_x <- nir_imm_int (local_size i 0) ;;
      size_y <- nir_imm_int (local_size i 1) ;;
      args <- build_args (args_order location)
                (nir_channel local_id 2) (nir_imul size_x size_y) ;;
      sysval <- nir_imul (fst args) (snd args) ;;
      y <- nir_channel local_id 1 ;;
      yx <- nir_imul y size_x ;;
      sysval <- nir_iadd sysval yx ;;
      x <- nir_channel local_id 0 ;;
      sysval <- nir_iadd sysval x ;;
      ret (Some sysval)
  | SYSTEM_VALUE_VERTEX_ID =>
      o <- shader_options ;;
      if vertex_id_zero_based o then
        args <- build_args (args_order location)
                  (nir_load_system_value nir_intrinsic_load_vertex_id_zero_base 0)
                  (nir_load_system_value nir_intrinsic_load_base_vertex 0) ;;
        sysval <- nir_iadd (fst args) (snd args) ;;
        ret (Some sysval)
      else
        sysval <- nir_load_system_value nir_intrinsic_load_vertex_id 0 ;;
        ret (Some sysval)
  | SYSTEM_VALUE_INSTANCE_INDEX =>
      args <- build_args (args_order location)
                (nir_load_system_value nir_intrinsic_load_instance_id 0)
                (nir_load_system_value nir_intrinsic_load_base_instance 0) ;;
      sysval <- nir_iadd (fst args) (snd args) ;;
      ret (Some sysval)
  | SYSTEM_VALUE_other _ =>
      match nir_intrinsic_from_system_value location with
      | Some sysval_op =>
          sysval <- nir_load_system_value sysval_op 0 ;;
          ret (Some sysval)
      | None => ret None
      end
  end.

(** The body of the loop of [convert_block], for the instruction [instr]
    found at position [k] of block [bi].  [None]: the run ends in an
    error (a [load_var] without a variable, a kind without an entry in
    the mapping table). *)
Definition convert_instr (bi k : nat) (instr : nir_instr)
  (state : lower_system_values_state) : option lower_system_values_state :=
  match type instr with
  | nir_instr_type_intrinsic load_var =>
      match intrinsic load_var with
      | nir_intrinsic_load_var =>
          match variables load_var with
          | var :: _ =>
              match data_mode var with
              | nir_var_system_value =>
                  let b := set_cursor (builder state) (nir_after_instr bi k) in
                  match build_sysval (data_location var) b with
                  | (Some sysval, b) =>
                      let impl :=
                        nir_ssa_def_rewrite_uses (dest instr) sysval (builder_impl b) in
                      let impl := nir_instr_remove bi k impl in
                      Some {| builder := set_impl b impl; progress := true |}
                  | (None, _) => None
                  end
              | _ => Some state
              end
          | [] => None
          end
      | _ => Some state
      end
  | _ => Some state
  end.

(** [nir_foreach_instr_safe]: the loop keeps the successor of the current
    instruction before the body runs, so the body may insert behind the
    current instruction and unlink it.  [n] instructions are still to
    visit: the last [n] of the block. *)
Fixpoint foreach_instr_safe (n : nat) (bi : nat)
  (state : lower_system_values_state) : option lower_system_values_state :=
  match n with
  | O => Some state
  | S n' =>
      let l := block_instrs (builder_impl (builder state)) bi in
      let k := (length l - n)%nat in
      match nth_error l k with
      | Some instr =>
          match convert_instr bi k instr state with
          | Some state' => foreach_instr_safe n' bi state'
          | None => None
          end
      | None => Some state
      end
  end.

Definition convert_block (bi : nat) (state : lower_system_values_state)
  : option lower_system_values_state :=
  foreach_instr_safe (length (block_instrs (builder_impl (builder state)) bi)) bi state.

(** [nir_foreach_block]: the blocks in order, by position. *)
Fixpoint foreach_block (blocks : list nat) (state : lower_system_values_state)
  : option lower_system_values_state :=
  match blocks with
  | [] => Some state
  | bi :: rest =>
      match convert_block bi state with
      | Some state' => foreach_block rest state'
      | None => None
      end
  end.

Definition convert_impl (sh_info : nir_shader_info)
  (sh_options : nir_shader_compiler_options) (impl : nir_function_impl)
  : option (nir_function_impl * bool) :=
  let state := {| builder := nir_builder_init sh_info sh_options impl;
                  progress := false |} in
  match foreach_block (seq 0 (length (body impl))) state with
  | Some state =>
      let impl := nir_metadata_preserve (builder_impl (builder state))
                    (Z.lor nir_metadata_block_index nir_metadata_dominance) in
      Some (impl, progress state)
  | None => None
  end.

(** [nir_foreach_function] with the body of the loop of
    [nir_lower_system_values]. *)
Fixpoint foreach_function (sh_info : nir_shader_info)
  (sh_options : nir_shader_compiler_options) (fs : list nir_function)
  (progress : bool) : option (list nir_function * bool) :=
  match fs with
  | [] => Some ([], progress)
  | function :: rest =>
      match function_impl function with
      | Some impl =>
          match convert_impl sh_info sh_options impl with
          | Some (impl', p) =>
              match foreach_function sh_info sh_options rest (p || progress) with
              | Some (rest', progress') =>
                  Some ({| function_impl := Some impl' |} :: rest', progress')
              | None => None
              end
          | None => None
          end
      | None =>
          match foreach_function sh_info sh_options rest progress with
          | Some (rest', progress') => Some (function :: rest', progress')
          | None => None
          end
      end
  end.

Definition nir_lower_system_values (shader : nir_shader) : option (nir_shader * bool) :=
  match foreach_function (info shader) (options shader) (functions shader) false with
  | Some (fs, progress) =>
      Some ({| functions := fs;
               system_values := [];
               info := info shader;
               options := options shader |}, progress)
  | None => None
  end.

(** ** The inserted instructions in closed form *)

Definition load_instr (a : nat) (op : nir_intrinsic_op) : nir_instr :=
  {| dest := {| index := a; num_components := dest_components op |};
     type := nir_instr_type_intrinsic
               {| intrinsic := op; variables := [];
                  const_index := [0%Z]; intrinsic_src := [] |} |}.

(** The instructions the [switch] of [convert_block] inserts for a
    kind, the first new value being [a], and the value that replaces the
    read; [None] when the mapping table has no entry.  The instructions
    of two builder calls that are arguments of one call stand in the
    order [args_order location], and their values are numbered in that
    order. *)
Definition sysval_instrs (i : nir_shader_info) (o : nir_shader_compiler_options)
  (a : nat) (location : gl_system_value) : option (list nir_instr * nir_ssa_def) :=
  match location with
  | SYSTEM_VALUE_GLOBAL_INVOCATION_ID =>
      let group_id := load_instr (a + 0) nir_intrinsic_load_work_group_id in
      let local_id := load_instr (a + 1) nir_intrinsic_load_local_invocation_id in
      let imm := imm_instr (a + 2) 3
                   [wrap32 (local_size i 0); wrap32 (local_size i 1);
                    wrap32 (local_size i 2)] in
      let mul := alu2_instr (a + 3) nir_op_imul (dest group_id) (dest imm) in
      let add := alu2_instr (a + 4) nir_op_iadd (dest mul) (dest local_id) in
      Some ([group_id; local_id; imm; mul; add], dest add)
  | SYSTEM_VALUE_LOCAL_INVOCATION_INDEX =>
      let local_id := load_instr (a + 0) nir_intrinsic_load_local_invocation_id in
      let size_x := imm_instr (a + 1) 1 [wrap32 (local_size i 0)] in
      let size_y := imm_instr (a + 2) 1 [wrap32 (local_size i 1)] in
      let places := arg_places (args_order location) a 3 in
      let z := channel_instr (fst places) (dest local_id) 2 in
      let xy := alu2_instr (snd places) nir_op_imul (dest size_x) (dest size_y) in
      let zxy := alu2_instr (a + 5) nir_op_imul (dest z) (dest xy) in
      let y := channel_instr (a + 6) (dest local_id) 1 in
      let yx := alu2_instr (a + 7) nir_op_imul (dest y) (dest size_x) in
      let add1 := alu2_instr (a + 8) nir_op_iadd (dest zxy) (dest yx) in
      let x := channel_instr (a + 9) (dest local_id) 0 in
      let add2 := alu2_instr (a + 10) nir_op_iadd (dest add1) (dest x) in
      Some ([local_id; size_x; size_y] ++ in_order (args_order location) z xy ++
            [zxy; y; yx; add1; x; add2], dest add2)
  | SYSTEM_VALUE_VERTEX_ID =>
      if vertex_id_zero_based o then
        let places := arg_places (args_order location) a 0 in
        let zero_base := load_instr (fst places) nir_intrinsic_load_vertex_id_zero_base in
        let base_vertex := load_instr (snd places) nir_intrinsic_load_base_vertex in
        let add := alu2_instr (a + 2) nir_op_iadd (dest zero_base) (dest base_vertex) in
        Some (in_order (args_order location) zero_base base_vertex ++ [add], dest add)
      else
        let vertex_id := load_instr (a + 0) nir_intrinsic_load_vertex_id in
        Some ([vertex_id], dest vertex_id)
  | SYSTEM_VALUE_INSTANCE_INDEX =>
      let places := arg_places (args_order location) a 0 in
      let instance_id := load_instr (fst places) nir_intrinsic_load_instance_id in
      let base_instance := load_instr (snd places) nir_intrinsic_load_base_instance in
      let add := alu2_instr (a + 2) nir_op_iadd (dest instance_id) (dest base_instance) in
      Some (in_order (args_order location) instance_id base_instance ++ [add], dest add)
  | SYSTEM_VALUE_other _ =>
      match nir_intrinsic_from_system_value location with
      | Some sysval_op =>
          let load := load_instr (a + 0) sysval_op in
          Some ([load], dest load)
      | None => None
      end
  end.

(** The kind read by a variable read of a system value, [None] for any
    other instruction: the three tests at the head of the loop body of
    [convert_block]. *)
Definition sysval_load (instr : nir_instr) : option gl_system_value :=
  match type instr with
  | nir_instr_type_intrinsic load_var =>
      match intrinsic load_var, variables load_var with
      | nir_intrinsic_load_var, var :: _ =>
          match data_mode var with
          | nir_var_system_value => Some (data_location var)
          | _ => None
          end
      | _, _ => None
      end
  | _ => None
  end.

(** A [load_var] that names no variable: the read of [variables[0]->var]
    has nothing to read. *)
Definition load_var_without_variable (instr : nir_instr) : bool :=
  match type instr with
  | nir_instr_type_intrinsic load_var =>
      match intrinsic load_var, variables load_var with
      | nir_intrinsic_load_var, [] => true
      | _, _ => false
      end
  | _ => false
  end.

(** The builder after the read at position [k] of block [bi], defining
    [old], was replaced by the instructions [es] that compute [new]. *)
Definition lower_at (bi k : nat) (old : nir_ssa_def) (es : list nir_instr)
  (new : nir_ssa_def) (b : nir_builder) : nir_builder :=
  let b1 := emit (length es) es (set_cursor b (nir_after_instr bi k)) in
  set_impl b1
    (nir_instr_remove bi k (nir_ssa_def_rewrite_uses old new (builder_impl b1))).

Definition state_impl (state : lower_system_values_state) : nir_function_impl :=
  builder_impl (builder state).

Definition lowered_state (bi k : nat) (instr : nir_instr) (es : list nir_instr)
  (d : nir_ssa_def) (state : lower_system_values_state) : lower_system_values_state :=
  {| builder := lower_at bi k (dest instr) es d (builder state); progress := true |}.

(** The instructions the loop body gets through: not a [load_var]
    without a variable, and not a read of a kind the mapping table has
    no entry for. *)
Definition lowerable (instr : nir_instr) : bool :=
  negb (load_var_without_variable instr) &&
  match sysval_load instr with
  | Some (SYSTEM_VALUE_other n) =>
      match nir_intrinsic_from_system_value (SYSTEM_VALUE_other n) with
      | Some _ => true
      | None => false
      end
  | _ => true
  end.

(** The instructions of the blocks before and behind block [bi]. *)
Definition earlier_instrs (impl : nir_function_impl) (bi : nat) : list nir_instr :=
  flat_map instr_list (firstn bi (body impl)).

Definition later_instrs (impl : nir_function_impl) (bi : nat) : list nir_instr :=
  flat_map instr_list (skipn (S bi) (body impl)).

Definition is_sysval_load (instr : nir_instr) : bool :=
  match sysval_load instr with
  | Some _ => true
  | None => false
  end.

Definition impl_has_sysval_load (impl : nir_function_impl) : bool :=
  existsb is_sysval_load (impl_instrs impl).

Definition function_has_sysval_load (f : nir_function) : bool :=
  match function_impl f with
  | Some impl => impl_has_sysval_load impl
  | None => false
  end.


Definition impl_lowerable (impl : nir_function_impl) : bool :=
  forallb lowerable (impl_instrs impl).

Definition function_lowerable (f : nir_function) : bool :=
  match function_impl f with
  | Some impl => impl_lowerable impl
  | None => true
  end.

(** The shaders the pass returns on: the loop body gets through every
    instruction of every function with a body. *)
Definition shader_lowerable (shader : nir_shader) : bool :=
  forallb function_lowerable (functions shader).

(** Every value defined in the function was handed out by its counter. *)
Definition impl_allocated (impl : nir_function_impl) : Prop :=
  Forall (fun i => index (dest i) < ssa_alloc impl) (impl_instrs impl).

(** An instruction made while the counter went from [a] to [a + n]: it
    defines, and uses, only values made in that span. *)
Definition fresh_in (a n : nat) (i : nir_instr) : Prop :=
  a <= index (dest i) < a + n /\
  Forall (fun u => a <= u < a + n) (instr_uses i).

(** ** Invariants and tactics of the proofs *)

Ltac fresh_solve :=
  repeat match goal with
         | |- Forall _ (_ :: _) => constructor
         | |- Forall _ [] => constructor
         | |- fresh_in _ _ _ => split; unfold instr_uses; simpl
         | |- _ /\ _ => split
         end; simpl; try lia.

Ltac pick_in := simpl; ((left; reflexivity) + (right; pick_in)).

Definition pending_lowerable (bi : nat) (state : lower_system_values_state)
  (pre suf : list nir_instr) : Prop :=
  Forall (fun i => lowerable i = true) (suf ++ later_instrs (state_impl state) bi).

Definition frame (impl : nir_function_impl) (sh_info : nir_shader_info)
  (sh_options : nir_shader_compiler_options)
  (state : lower_system_values_state) : Prop :=
  edges (body (state_impl state)) = edges (body impl) /\
  valid_metadata (state_impl state) = valid_metadata impl /\
  builder_info (builder state) = sh_info /\
  builder_options (builder state) = sh_options /\
  ssa_alloc impl <= ssa_alloc (state_impl state).

Definition no_invariant (bi : nat) (state : lower_system_values_state)
  (pre suf : list nir_instr) : Prop := True.

Definition progress_inv (c : bool) (bi : nat) (state : lower_system_values_state)
  (pre suf : list nir_instr) : Prop :=
  progress state ||
    existsb is_sysval_load (suf ++ later_instrs (state_impl state) bi) = c.

(** The mapping table yields intrinsics that read a system value, never
    the variable read the pass removes. *)
Definition table_lower_level : Prop :=
  forall location op,
    nir_intrinsic_from_system_value location = Some op ->
    op <> nir_intrinsic_load_var.

Definition lowered (i : nir_instr) : Prop :=
  sysval_load i = None /\ load_var_without_variable i = false.

Definition lowered_inv (bi : nat) (state : lower_system_values_state)
  (pre suf : list nir_instr) : Prop :=
  Forall lowered (earlier_instrs (state_impl state) bi ++ pre).

Definition unchanged_inv (state0 : lower_system_values_state) (bi : nat)
  (state : lower_system_values_state) (pre suf : list nir_instr) : Prop :=
  state = state0.




Ltac eqb_solve :=
  repeat match goal with
         | |- context [Nat.eqb ?x ?y] =>
             first [ replace (Nat.eqb x y) with true
                       by (symmetry; apply Nat.eqb_eq; lia)
                   | replace (Nat.eqb x y) with false
                       by (symmetry; apply Nat.eqb_neq; lia) ]
         end.

Ltac exec_solve H1 H2 :=
  cbn [exec_instrs];
  repeat (progress (unfold eval_instr, read_alu_src, set_reg, binop, component; cbn;
                    rewrite ?H1, ?H2; cbn; eqb_solve)).

(** [f'] is what the loop of [nir_lower_system_values] leaves of [f]: a
    function with a body has it run through [convert_impl], a function
    without one is left as it is. *)
Definition lowered_function (sh_info : nir_shader_info)
  (sh_options : nir_shader_compiler_options) (f f' : nir_function) : Prop :=
  match function_impl f with
  | Some impl =>
      exists impl' p,
        convert_impl sh_info sh_options impl = Some (impl', p) /\
        f' = {| function_impl := Some impl' |}
  | None => f' = f
  end.

Definition function_lowered (f : nir_function) : Prop :=
  forall impl,
    function_impl f = Some impl ->
    Forall lowered (impl_instrs impl) /\
    Z.land (valid_metadata impl)
      (Z.lor nir_metadata_block_index nir_metadata_dominance) =
    valid_metadata impl.

(** The instruction [i] with every value it uses replaced by its image
    under [sigma]. *)
Definition subst_instr (sigma : nat -> nat) (i : nir_instr) : nir_instr :=
  {| dest := dest i;
     type :=
       match type i with
       | nir_instr_type_alu op src =>
           nir_instr_type_alu op
             (map (fun s => {| src_ssa := sigma (src_ssa s); swizzle := swizzle s |}) src)
       | nir_instr_type_intrinsic intr =>
           nir_instr_type_intrinsic
             {| intrinsic := intrinsic intr;
                variables := variables intr;
                const_index := const_index intr;
                intrinsic_src := map sigma (intrinsic_src intr) |}
       | nir_instr_type_load_const v => nir_instr_type_load_const v
       | nir_instr_type_other tag src => nir_instr_type_other tag (map sigma src)
       end |}.


Definition no_reads_inv (bi : nat) (state : lower_system_values_state)
  (pre suf : list nir_instr) : Prop :=
  Forall (fun i => sysval_load i = None) (earlier_instrs (state_impl state) bi ++ pre).

(** Two instructions the tests of the loop body cannot tell apart. *)
Definition same_kind (a b : nir_instr) : Prop :=
  sysval_load a = sysval_load b /\
  load_var_without_variable a = load_var_without_variable b.

(** While [convert_impl] runs on [impl0]: the instructions still to visit
    are of the kind of the original ones, and the original instructions that
    are behind were all got through. *)
Definition returned_inv (impl0 : nir_function_impl) (bi : nat)
  (state : lower_system_values_state) (pre suf : list nir_instr) : Prop :=
  exists opre osuf,
    block_instrs impl0 bi = opre ++ osuf /\
    Forall2 same_kind osuf suf /\
    (forall bj, bi < bj ->
       Forall2 same_kind (block_instrs impl0 bj) (block_instrs (state_impl state) bj)) /\
    Forall (fun i => lowerable i = true) (earlier_instrs impl0 bi ++ opre).

(** ** A reference for [convert_impl]

    What the loops of [convert_impl] compute, written without the builder
    and without rewriting in place.  A first sweep goes over the
    instructions in order: it replaces each variable read of a system
    value by the instructions of [sysval_instrs], leaves every use as it
    is, and notes which value replaces which.  A second sweep redirects
    the uses. *)

(** The value that replaces [x]: the first replacement noted for [x], and
    [x] itself when there is none. *)
Definition redirect (pairs : list (nat * nat)) (x : nat) : nat :=
  match find (fun p => Nat.eqb (fst p) x) pairs with
  | Some p => snd p
  | None => x
  end.

Definition subst_block (sigma : nat -> nat) (blk : nir_block) : nir_block :=
  set_instr_list blk (map (subst_instr sigma) (instr_list blk)).

(** One instruction of the first sweep.  [acc] holds the instructions
    put out so far for the block, the replacements noted, and the next
    value of the counter. *)
Definition reference_instr (sh_info : nir_shader_info)
  (sh_options : nir_shader_compiler_options) (i : nir_instr)
  (acc : list nir_instr * list (nat * nat) * nat)
  : option (list nir_instr * list (nat * nat) * nat) :=
  let '(out, pairs, a) := acc in
  if load_var_without_variable i then None
  else
    match sysval_load i with
    | None => Some (out ++ [i], pairs, a)
    | Some location =>
        match sysval_instrs sh_info sh_options a location with
        | Some (es, d) =>
            Some (out ++ es, pairs ++ [(index (dest i), index d)], a + length es)
        | None => None
        end
    end.

Fixpoint reference_instrs (sh_info : nir_shader_info)
  (sh_options : nir_shader_compiler_options) (l : list nir_instr)
  (acc : list nir_instr * list (nat * nat) * nat)
  : option (list nir_instr * list (nat * nat) * nat) :=
  match l with
  | [] => Some acc
  | i :: rest =>
      match reference_instr sh_info sh_options i acc with
      | Some acc' => reference_instrs sh_info sh_options rest acc'
      | None => None
      end
  end.

Fixpoint reference_blocks (sh_info : nir_shader_info)
  (sh_options : nir_shader_compiler_options) (blocks : list nir_block)
  (pairs : list (nat * nat)) (a : nat)
  : option (list nir_block * list (nat * nat) * nat) :=
  match blocks with
  | [] => Some ([], pairs, a)
  | blk :: rest =>
      match reference_instrs sh_info sh_options (instr_list blk) ([], pairs, a) with
      | Some (out, pairs', a') =>
          match reference_blocks sh_info sh_options rest pairs' a' with
          | Some (rest', pairs'', a'') =>
              Some (set_instr_list blk out :: rest', pairs'', a'')
          | None => None
          end
      | None => None
      end
  end.

Definition reference_convert_impl (sh_info : nir_shader_info)
  (sh_options : nir_shader_compiler_options) (impl : nir_function_impl)
  : option (nir_function_impl * bool) :=
  match reference_blocks sh_info sh_options (body impl) [] (ssa_alloc impl) with
  | Some (blocks, pairs, a) =>
      Some ({| body := map (subst_block (redirect pairs)) blocks;
               ssa_alloc := a;
               valid_metadata :=
                 Z.land (valid_metadata impl)
                   (Z.lor nir_metadata_block_index nir_metadata_dominance) |},
            match pairs with
            | [] => false
            | _ :: _ => true
            end)
  | None => None
  end.

(** While [convert_impl] runs on [impl0]: the blocks that are behind, and
    the instructions of the current block that are behind, are what the
    first sweep of the reference puts out for the original ones, with the
    uses redirected by the replacements noted so far; the instructions
    still to visit are the original ones with their uses redirected the
    same way. *)
Definition refine_inv (impl0 : nir_function_impl) (bi : nat)
  (state : lower_system_values_state) (pre suf : list nir_instr) : Prop :=
  exists done pairs1 a1 opre osuf out pairs,
    reference_blocks (builder_info (builder state)) (builder_options (builder state))
      (firstn bi (body impl0)) [] (ssa_alloc impl0) = Some (done, pairs1, a1) /\
    block_instrs impl0 bi = opre ++ osuf /\
    reference_instrs (builder_info (builder state)) (builder_options (builder state))
      opre ([], pairs1, a1) = Some (out, pairs, ssa_alloc (state_impl state)) /\
    firstn bi (body (state_impl state)) = map (subst_block (redirect pairs)) done /\
    pre = map (subst_instr (redirect pairs)) out /\
    suf = map (subst_instr (redirect pairs)) osuf /\
    skipn (S bi) (body (state_impl state)) =
      map (subst_block (redirect pairs)) (skipn (S bi) (body impl0)) /\
    edges (body (state_impl state)) = edges (body impl0) /\
    progress state = match pairs with [] => false | _ :: _ => true end /\
    Forall (fun p => fst p < ssa_alloc impl0 <= snd p) pairs /\
    ssa_alloc impl0 <= ssa_alloc (state_impl state).
(** The values of a function: the index of the value each instruction
    defines, in program order. *)
Definition impl_defs (impl : nir_function_impl) : list nat :=
  map (fun i => index (dest i)) (impl_instrs impl).

(** The number of variable reads of a system value in a list. *)
Definition count_reads (l : list nir_instr) : nat :=
  length (filter is_sysval_load l).

(** An instruction that defines one of the first [a] values. *)
Definition defined_below (a : nat) (i : nir_instr) : bool :=
  Nat.ltb (index (dest i)) a.

Definition not_sysval_load (i : nir_instr) : bool := negb (is_sysval_load i).

Definition ssa_inv (bi : nat) (state : lower_system_values_state)
  (pre suf : list nir_instr) : Prop :=
  impl_allocated (state_impl state) /\ NoDup (impl_defs (state_impl state)).

Definition size_inv (impl0 : nir_function_impl) (bi : nat)
  (state : lower_system_values_state) (pre suf : list nir_instr) : Prop :=
  let pending := count_reads (suf ++ later_instrs (state_impl state) bi) in
  length (impl_instrs (state_impl state)) + count_reads (impl_instrs impl0) +
    ssa_alloc impl0 =
  length (impl_instrs impl0) + ssa_alloc (state_impl state) + pending /\
  ssa_alloc impl0 + count_reads (impl_instrs impl0) <=
    ssa_alloc (state_impl state) + pending /\
  ssa_alloc (state_impl state) + 11 * pending <=
    ssa_alloc impl0 + 11 * count_reads (impl_instrs impl0).

(** The bodies of the functions of a shader, [None] for a function
    without one. *)
Definition shader_bodies (shader : nir_shader) : list (option (list nir_block)) :=
  map (fun f => option_map body (function_impl f)) (functions shader).
(** An instruction [eval_instr] gives a meaning to once the values it
    uses are there: an addition or a multiplication of two values, a
    move, a constant, or an intrinsic other than [load_var] without
    variables and sources. *)
Definition evaluable (i : nir_instr) : bool :=
  match type i with
  | nir_instr_type_alu nir_op_iadd [_; _] => true
  | nir_instr_type_alu nir_op_imul [_; _] => true
  | nir_instr_type_alu nir_op_imov [_] => true
  | nir_instr_type_alu _ _ => false
  | nir_instr_type_intrinsic intr =>
      match intrinsic intr, variables intr, intrinsic_src intr with
      | nir_intrinsic_load_var, _, _ => false
      | _, [], [] => true
      | _, _, _ => false
      end
  | nir_instr_type_load_const _ => true
  | nir_instr_type_other _ _ => false
  end.

(** Every instruction of [l] uses only values of [defs] and values that
    instructions before it in [l] define. *)
Fixpoint uses_defined (defs : list nat) (l : list nir_instr) : bool :=
  match l with
  | [] => true
  | i :: rest =>
      forallb (fun u => existsb (Nat.eqb u) defs) (instr_uses i) &&
      uses_defined (index (dest i) :: defs) rest
  end.
(** An instruction the loop body of [convert_block] does not get
    through: a [load_var] that names no variable, or a variable read of a
    system value of a kind the [switch] leaves to the mapping table, which
    has no entry for it. *)
Definition ends_run (instr : nir_instr) : Prop :=
  load_var_without_variable instr = true \/
  exists n,
    sysval_load instr = Some (SYSTEM_VALUE_other n) /\
    nir_intrinsic_from_system_value (SYSTEM_VALUE_other n) = None.
(** Every value an instruction of the function uses is defined by an
    instruction of the function. *)
Definition uses_closed (impl : nir_function_impl) : Prop :=
  forall i u, In i (impl_instrs impl) -> In u (instr_uses i) -> In u (impl_defs impl).

Definition closed_inv (bi : nat) (state : lower_system_values_state)
  (pre suf : list nir_instr) : Prop :=
  uses_closed (state_impl state).
(** No instruction of [l] uses a value that it defines itself, or that an
    instruction behind it in [l] defines. *)
Fixpoint ordered (l : list nir_instr) : Prop :=
  match l with
  | [] => True
  | j :: rest =>
      (forall u, In u (instr_uses j) ->
                 ~ In u (map (fun k => index (dest k)) (j :: rest))) /\
      ordered rest
  end.

(** Every value used in the function was handed out by its counter. *)
Definition uses_allocated (impl : nir_function_impl) : Prop :=
  forall i u, In i (impl_instrs impl) -> In u (instr_uses i) -> u < ssa_alloc impl.

Definition ordered_inv (bi : nat) (state : lower_system_values_state)
  (pre suf : list nir_instr) : Prop :=
  impl_allocated (state_impl state) /\
  uses_allocated (state_impl state) /\
  forall bj, ordered (block_instrs (state_impl state) bj).
(** What the [switch] of [convert_block] reads of the shader for a kind:
    the three local sizes for the global invocation id, the first two for
    the local invocation index, the flag [vertex_id_zero_based] for the
    vertex id, and nothing for the other kinds.  Two shaders have the
    same data for a kind when they agree on what is read for it. *)
Definition same_shader_data (info1 : nir_shader_info)
  (o1 : nir_shader_compiler_options) (info2 : nir_shader_info)
  (o2 : nir_shader_compiler_options) (location : gl_system_value) : Prop :=
  match location with
  | SYSTEM_VALUE_GLOBAL_INVOCATION_ID =>
      local_size info1 0 = local_size info2 0 /\
      local_size info1 1 = local_size info2 1 /\
      local_size info1 2 = local_size info2 2
  | SYSTEM_VALUE_LOCAL_INVOCATION_INDEX =>
      local_size info1 0 = local_size info2 0 /\
      local_size info1 1 = local_size info2 1
  | SYSTEM_VALUE_VERTEX_ID => vertex_id_zero_based o1 = vertex_id_zero_based o2
  | _ => True
  end.

(** The state of the pass with the shader of the builder replaced. *)
Definition set_shader_data (info2 : nir_shader_info)
  (o2 : nir_shader_compiler_options) (state : lower_system_values_state)
  : lower_system_values_state :=
  {| builder := {| cursor := cursor (builder state);
                   builder_info := info2;
                   builder_options := o2;
                   builder_impl := builder_impl (builder state) |};
     progress := progress state |}.

(** Every variable read of a system value in [l] is of a kind for which
    the two shaders have the same data. *)
Definition reads_same_data (info1 : nir_shader_info)
  (o1 : nir_shader_compiler_options) (info2 : nir_shader_info)
  (o2 : nir_shader_compiler_options) (l : list nir_instr) : Prop :=
  forall i location,
    In i l -> sysval_load i = Some location ->
    same_shader_data info1 o1 info2 o2 location.

Definition same_data_inv (info1 : nir_shader_info)
  (o1 : nir_shader_compiler_options) (info2 : nir_shader_info)
  (o2 : nir_shader_compiler_options)
  (state : lower_system_values_state) (pre suf : list nir_instr) : Prop :=
  reads_same_data info1 o1 info2 o2 (impl_instrs (state_impl state)) /\
  builder_info (builder state) = info1 /\
  builder_options (builder state) = o1.

(** * Properties *)

(** ** Blocks updated in place *)

Lemma update_block_ext_at bi f g blocks :
  (forall blk, nth_error blocks bi = Some blk -> f (instr_list blk) = g (instr_list blk)) ->
  update_block bi f blocks = update_block bi g blocks.
Proof.
  revert bi; induction blocks as [|blk rest IH]; intros [|bi] H; simpl; auto.
  - rewrite (H blk); auto.
  - f_equal. apply IH. intros b Hb. apply H. exact Hb.
Qed.

Lemma update_block_compose bi f g blocks :
  update_block bi f (update_block bi g blocks) =
  update_block bi (fun l => f (g l)) blocks.
Proof.
  revert bi; induction blocks as [|blk rest IH]; intros [|bi]; simpl; auto.
  f_equal. apply IH.
Qed.

Lemma update_block_same bi f blocks :
  (forall blk, nth_error blocks bi = Some blk -> f (instr_list blk) = instr_list blk) ->
  update_block bi f blocks = blocks.
Proof.
  revert bi; induction blocks as [|blk rest IH]; intros [|bi] H; simpl; auto.
  - rewrite (H blk); auto. destruct blk; reflexivity.
  - f_equal. apply IH. intros b Hb. apply H. exact Hb.
Qed.

Lemma nth_error_update_block bi bj f blocks :
  nth_error (update_block bi f blocks) bj =
  if Nat.eqb bj bi
  then option_map (fun blk => set_instr_list blk (f (instr_list blk))) (nth_error blocks bj)
  else nth_error blocks bj.
Proof.
  revert bi bj; induction blocks as [|blk rest IH]; intros bi bj.
  - destruct bi, bj; simpl; try reflexivity;
      match goal with |- context [if ?c then _ else _] => destruct c end; reflexivity.
  - destruct bi, bj; simpl; try reflexivity. apply IH.
Qed.

Lemma edges_update_block bi f blocks :
  edges (update_block bi f blocks) = edges blocks.
Proof.
  revert bi; induction blocks as [|blk rest IH]; intros [|bi]; simpl; auto.
  f_equal. apply IH.
Qed.

Lemma edges_rewrite old new blocks :
  edges (map (rewrite_block old new) blocks) = edges blocks.
Proof.
  unfold edges. rewrite map_map. reflexivity.
Qed.

Lemma edges_length blocks : length (edges blocks) = length blocks.
Proof. apply length_map. Qed.

Lemma instrs_at_update_block bi bj f blocks :
  instrs_at (update_block bi f blocks) bj =
  if Nat.eqb bj bi then
    match nth_error blocks bj with
    | Some blk => f (instr_list blk)
    | None => []
    end
  else instrs_at blocks bj.
Proof.
  unfold instrs_at. rewrite nth_error_update_block.
  destruct (Nat.eqb bj bi); auto.
  destruct (nth_error blocks bj); reflexivity.
Qed.

Lemma instrs_at_rewrite old new blocks bj :
  instrs_at (map (rewrite_block old new) blocks) bj =
  map (nir_instr_rewrite_src old new) (instrs_at blocks bj).
Proof.
  unfold instrs_at. rewrite nth_error_map.
  destruct (nth_error blocks bj); reflexivity.
Qed.

Lemma instrs_at_length_lt blocks bi k :
  k < length (instrs_at blocks bi) ->
  exists blk, nth_error blocks bi = Some blk /\ instrs_at blocks bi = instr_list blk.
Proof.
  unfold instrs_at. destruct (nth_error blocks bi) as [blk|]; simpl.
  - eauto.
  - lia.
Qed.

Lemma insert_after_nil k l : insert_after k [] l = l.
Proof.
  unfold insert_after. change ([] ++ skipn (S k) l) with (skipn (S k) l).
  apply firstn_skipn.
Qed.

Lemma insert_after_snoc k es e l :
  k < length l ->
  firstn (S (k + length es)) (insert_after k es l) ++
    e :: skipn (S (k + length es)) (insert_after k es l) =
  insert_after k (es ++ [e]) l.
Proof.
  intros Hk. unfold insert_after.
  assert (Hlen : length (firstn (S k) l) = S k) by (rewrite length_firstn; lia).
  assert (Hsplit : firstn (S k) l ++ es ++ skipn (S k) l =
                   (firstn (S k) l ++ es) ++ skipn (S k) l)
    by (rewrite app_assoc; reflexivity).
  assert (Hl2 : length (firstn (S k) l ++ es) = S (k + length es))
    by (rewrite length_app, Hlen; lia).
  rewrite Hsplit.
  rewrite firstn_app, skipn_app, Hl2, Nat.sub_diag.
  rewrite (@firstn_all2 _ (S (k + length es)) (firstn (S k) l ++ es))
    by (rewrite Hl2; lia).
  rewrite (@skipn_all2 _ (S (k + length es)) (firstn (S k) l ++ es))
    by (rewrite Hl2; lia).
  change (firstn 0 (skipn (S k) l)) with (@nil nir_instr).
  change (skipn 0 (skipn (S k) l)) with (skipn (S k) l).
  rewrite app_nil_r. change ([] ++ skipn (S k) l) with (skipn (S k) l).
  rewrite <- !app_assoc. reflexivity.
Qed.

Lemma remove_insert_after k es l :
  k < length l ->
  firstn k (insert_after k es l) ++ skipn (S k) (insert_after k es l) =
  firstn k l ++ es ++ skipn (S k) l.
Proof.
  intros Hk. unfold insert_after.
  assert (Hlen : length (firstn (S k) l) = S k) by (rewrite length_firstn; lia).
  rewrite firstn_app, skipn_app, Hlen.
  replace (k - S k) with 0 by lia. rewrite Nat.sub_diag.
  rewrite firstn_firstn. replace (Nat.min k (S k)) with k by lia.
  rewrite (@skipn_all2 _ (S k) (firstn (S k) l)) by (rewrite Hlen; lia).
  change (firstn 0 (es ++ skipn (S k) l)) with (@nil nir_instr).
  change (skipn 0 (es ++ skipn (S k) l)) with (es ++ skipn (S k) l).
  rewrite app_nil_r. reflexivity.
Qed.

Lemma emit_nil b : emit 0 [] b = b.
Proof.
  destruct b as [[bi k] i o [bd a v]]. unfold emit; simpl.
  rewrite Nat.add_0_r. f_equal.
  f_equal; [|lia].
  apply update_block_same. intros blk _. apply insert_after_nil.
Qed.

Lemma nir_ssa_dest_init_emit nc n es b :
  nir_ssa_dest_init nc (emit n es b) =
  ({| index := ssa_alloc (builder_impl b) + n; num_components := nc |},
   emit (S n) es b).
Proof.
  unfold nir_ssa_dest_init, emit, set_impl; simpl.
  repeat f_equal. lia.
Qed.

Lemma nir_builder_instr_insert_emit i n es b :
  cursor_ok b ->
  nir_builder_instr_insert i (emit n es b) = (tt, emit n (es ++ [i]) b).
Proof.
  intros Hok. unfold nir_builder_instr_insert, emit, set_impl, set_cursor,
    nir_instr_insert, set_body, nir_after_instr; simpl.
  f_equal. f_equal.
  - f_equal. rewrite length_app. simpl. lia.
  - f_equal. rewrite update_block_compose.
    apply update_block_ext_at. intros blk Hblk.
    apply insert_after_snoc.
    unfold cursor_ok, block_instrs, instrs_at in Hok. rewrite Hblk in Hok. exact Hok.
Qed.

Lemma shader_info_emit n es b :
  shader_info (emit n es b) = (builder_info b, emit n es b).
Proof. reflexivity. Qed.

Lemma shader_options_emit n es b :
  shader_options (emit n es b) = (builder_options b, emit n es b).
Proof. reflexivity. Qed.

Lemma nir_build_alu2_emit op src0 src1 n es b :
  cursor_ok b ->
  nir_build_alu2 op src0 src1 (emit n es b) =
  (dest (alu2_instr (ssa_alloc (builder_impl b) + n) op src0 src1),
   emit (S n) (es ++ [alu2_instr (ssa_alloc (builder_impl b) + n) op src0 src1]) b).
Proof.
  intros Hok. unfold nir_build_alu2, bind.
  rewrite nir_ssa_dest_init_emit.
  rewrite nir_builder_instr_insert_emit by exact Hok.
  reflexivity.
Qed.

Lemma nir_channel_emit def c n es b :
  cursor_ok b ->
  nir_channel def c (emit n es b) =
  (dest (channel_instr (ssa_alloc (builder_impl b) + n) def c),
   emit (S n) (es ++ [channel_instr (ssa_alloc (builder_impl b) + n) def c]) b).
Proof.
  intros Hok. unfold nir_channel, bind.
  rewrite nir_ssa_dest_init_emit.
  rewrite nir_builder_instr_insert_emit by exact Hok.
  reflexivity.
Qed.

Lemma nir_build_imm_emit nc v n es b :
  cursor_ok b ->
  nir_build_imm nc v (emit n es b) =
  (dest (imm_instr (ssa_alloc (builder_impl b) + n) nc v),
   emit (S n) (es ++ [imm_instr (ssa_alloc (builder_impl b) + n) nc v]) b).
Proof.
  intros Hok. unfold nir_build_imm, bind.
  rewrite nir_ssa_dest_init_emit.
  rewrite nir_builder_instr_insert_emit by exact Hok.
  reflexivity.
Qed.

Lemma nir_load_system_value_emit op n es b :
  cursor_ok b ->
  nir_load_system_value op 0 (emit n es b) =
  (dest (load_instr (ssa_alloc (builder_impl b) + n) op),
   emit (S n) (es ++ [load_instr (ssa_alloc (builder_impl b) + n) op]) b).
Proof.
  intros Hok. unfold nir_load_system_value, bind.
  rewrite nir_ssa_dest_init_emit.
  rewrite nir_builder_instr_insert_emit by exact Hok.
  reflexivity.
Qed.

Lemma build_sysval_closed location b :
  cursor_ok b ->
  build_sysval location b =
  match sysval_instrs (builder_info b) (builder_options b)
          (ssa_alloc (builder_impl b)) location with
  | Some (es, d) => (Some d, emit (length es) es b)
  | None => (None, b)
  end.
Proof.
  intros Hok.
  rewrite <- (emit_nil b) at 1.
  destruct location; unfold build_sysval, sysval_instrs, build_args, arg_places,
    in_order, nir_iadd, nir_imul, nir_imm_int, bind, ret;
    try (destruct (args_order _));
    rewrite ?shader_info_emit, ?shader_options_emit;
    try (destruct (vertex_id_zero_based (builder_options b)));
    try (destruct (nir_intrinsic_from_system_value (SYSTEM_VALUE_other n)));
    repeat first
      [ rewrite nir_load_system_value_emit by exact Hok
      | rewrite nir_build_alu2_emit by exact Hok
      | rewrite nir_channel_emit by exact Hok
      | rewrite nir_build_imm_emit by exact Hok ];
    try reflexivity.
  all: rewrite emit_nil; reflexivity.
Qed.

(** ** One turn of the loop of [convert_block] *)

Lemma convert_instr_skip bi k instr state :
  sysval_load instr = None ->
  load_var_without_variable instr = false ->
  convert_instr bi k instr state = Some state.
Proof.
  unfold sysval_load, load_var_without_variable, convert_instr.
  destruct (type instr) as [| lv | |]; auto.
  destruct (intrinsic lv); auto.
  destruct (variables lv) as [|var vs]; try discriminate.
  destruct (data_mode var); try discriminate. auto.
Qed.

Lemma convert_instr_error bi k instr state :
  load_var_without_variable instr = true ->
  convert_instr bi k instr state = None.
Proof.
  unfold load_var_without_variable, convert_instr.
  destruct (type instr) as [| lv | |]; try discriminate.
  destruct (intrinsic lv); try discriminate.
  destruct (variables lv) as [|var vs]; try discriminate. auto.
Qed.

Lemma convert_instr_lower bi k instr state location :
  sysval_load instr = Some location ->
  k < length (block_instrs (builder_impl (builder state)) bi) ->
  convert_instr bi k instr state =
  match sysval_instrs (builder_info (builder state)) (builder_options (builder state))
          (ssa_alloc (builder_impl (builder state))) location with
  | Some (es, d) =>
      Some {| builder := lower_at bi k (dest instr) es d (builder state);
              progress := true |}
  | None => None
  end.
Proof.
  unfold sysval_load, convert_instr. intros Hload Hk.
  destruct (type instr) as [| lv | |]; try discriminate.
  destruct (intrinsic lv); try discriminate.
  destruct (variables lv) as [|var vs]; try discriminate.
  destruct (data_mode var); try discriminate.
  injection Hload as Hloc. rewrite Hloc.
  rewrite build_sysval_closed by exact Hk.
  change (builder_info (set_cursor (builder state) (nir_after_instr bi k)))
    with (builder_info (builder state)).
  change (builder_options (set_cursor (builder state) (nir_after_instr bi k)))
    with (builder_options (builder state)).
  change (builder_impl (set_cursor (builder state) (nir_after_instr bi k)))
    with (builder_impl (builder state)).
  destruct (sysval_instrs _ _ _ location) as [[es d]|]; reflexivity.
Qed.

Lemma lower_at_body bi k old es new b :
  body (builder_impl (lower_at bi k old es new b)) =
  update_block bi (fun l => firstn k l ++ skipn (S k) l)
    (map (rewrite_block (index old) (index new))
       (update_block bi (insert_after k es) (body (builder_impl b)))).
Proof. reflexivity. Qed.

Lemma lower_at_ssa_alloc bi k old es new b :
  ssa_alloc (builder_impl (lower_at bi k old es new b)) =
  ssa_alloc (builder_impl b) + length es.
Proof. reflexivity. Qed.

Lemma lower_at_valid_metadata bi k old es new b :
  valid_metadata (builder_impl (lower_at bi k old es new b)) =
  valid_metadata (builder_impl b).
Proof. reflexivity. Qed.

Lemma lower_at_info bi k old es new b :
  builder_info (lower_at bi k old es new b) = builder_info b.
Proof. reflexivity. Qed.

Lemma lower_at_options bi k old es new b :
  builder_options (lower_at bi k old es new b) = builder_options b.
Proof. reflexivity. Qed.

Lemma lower_at_edges bi k old es new b :
  edges (body (builder_impl (lower_at bi k old es new b))) =
  edges (body (builder_impl b)).
Proof.
  rewrite lower_at_body, edges_update_block, edges_rewrite, edges_update_block.
  reflexivity.
Qed.

Lemma block_instrs_lower_at bi k old es new b bj :
  k < length (block_instrs (builder_impl b) bi) ->
  block_instrs (builder_impl (lower_at bi k old es new b)) bj =
  if Nat.eqb bj bi then
    map (nir_instr_rewrite_src (index old) (index new))
      (firstn k (block_instrs (builder_impl b) bi) ++ es ++
       skipn (S k) (block_instrs (builder_impl b) bi))
  else
    map (nir_instr_rewrite_src (index old) (index new))
      (block_instrs (builder_impl b) bj).
Proof.
  intros Hk. unfold block_instrs in *. rewrite lower_at_body.
  rewrite instrs_at_update_block.
  destruct (Nat.eqb bj bi) eqn:E.
  - apply Nat.eqb_eq in E. subst bj.
    destruct (instrs_at_length_lt _ _ _ Hk) as (blk & Hblk & Hl).
    rewrite nth_error_map, nth_error_update_block, Nat.eqb_refl, Hblk.
    cbn [option_map rewrite_block set_instr_list instr_list].
    rewrite firstn_map, skipn_map, <- map_app. f_equal.
    rewrite Hl. apply remove_insert_after. rewrite <- Hl. exact Hk.
  - rewrite instrs_at_rewrite, instrs_at_update_block, E. reflexivity.
Qed.

(** ** The loop over the instructions of a block *)

Lemma nth_error_middle (pre : list nir_instr) i suf :
  nth_error (pre ++ i :: suf) (length (pre ++ i :: suf) - S (length suf)) = Some i.
Proof.
  rewrite length_app. simpl.
  replace (length pre + S (length suf) - S (length suf)) with (length pre) by lia.
  rewrite nth_error_app2 by lia. rewrite Nat.sub_diag. reflexivity.
Qed.

Lemma position_middle (pre : list nir_instr) i suf :
  length (pre ++ i :: suf) - S (length suf) = length pre.
Proof. rewrite length_app. simpl. lia. Qed.

Lemma firstn_middle (pre : list nir_instr) i suf :
  firstn (length pre) (pre ++ i :: suf) = pre.
Proof.
  rewrite firstn_app, Nat.sub_diag, firstn_all. simpl. apply app_nil_r.
Qed.

Lemma skipn_middle (pre : list nir_instr) i suf :
  skipn (S (length pre)) (pre ++ i :: suf) = suf.
Proof.
  rewrite skipn_app. rewrite skipn_all2 by lia.
  replace (S (length pre) - length pre) with 1 by lia. reflexivity.
Qed.

Lemma block_instrs_lowered_state bi pre i suf es d state :
  block_instrs (state_impl state) bi = pre ++ i :: suf ->
  block_instrs (state_impl (lowered_state bi (length pre) i es d state)) bi =
  map (nir_instr_rewrite_src (index (dest i)) (index d)) (pre ++ es) ++
  map (nir_instr_rewrite_src (index (dest i)) (index d)) suf.
Proof.
  intros Hl. unfold state_impl, lowered_state in *. cbn [builder].
  rewrite block_instrs_lower_at by (rewrite Hl, length_app; simpl; lia).
  rewrite Nat.eqb_refl, Hl, firstn_middle, skipn_middle.
  rewrite <- map_app, <- app_assoc. reflexivity.
Qed.

Lemma block_instrs_lowered_state_other bi bj pre i suf es d state :
  block_instrs (state_impl state) bi = pre ++ i :: suf ->
  bj <> bi ->
  block_instrs (state_impl (lowered_state bi (length pre) i es d state)) bj =
  map (nir_instr_rewrite_src (index (dest i)) (index d))
    (block_instrs (state_impl state) bj).
Proof.
  intros Hl Hne. unfold state_impl, lowered_state in *. cbn [builder].
  rewrite block_instrs_lower_at by (rewrite Hl, length_app; simpl; lia).
  apply Nat.eqb_neq in Hne. rewrite Hne. reflexivity.
Qed.

Section InstrLoop.

Variable P : lower_system_values_state -> list nir_instr -> list nir_instr -> Prop.
Variable bi : nat.

Hypothesis P_skip : forall state pre i suf,
  block_instrs (state_impl state) bi = pre ++ i :: suf ->
  P state pre (i :: suf) ->
  sysval_load i = None ->
  load_var_without_variable i = false ->
  P state (pre ++ [i]) suf.

Hypothesis P_lower : forall state pre i suf location es d,
  block_instrs (state_impl state) bi = pre ++ i :: suf ->
  P state pre (i :: suf) ->
  sysval_load i = Some location ->
  sysval_instrs (builder_info (builder state)) (builder_options (builder state))
    (ssa_alloc (state_impl state)) location = Some (es, d) ->
  P (lowered_state bi (length pre) i es d state)
    (map (nir_instr_rewrite_src (index (dest i)) (index d)) (pre ++ es))
    (map (nir_instr_rewrite_src (index (dest i)) (index d)) suf).

Lemma foreach_instr_safe_rule n : forall suf pre state state',
  length suf = n ->
  block_instrs (state_impl state) bi = pre ++ suf ->
  P state pre suf ->
  foreach_instr_safe n bi state = Some state' ->
  P state' (block_instrs (state_impl state') bi) [].
Proof.
  induction n as [|n IH]; intros suf pre state state' Hn Hl HP Hrun.
  - destruct suf; try discriminate. simpl in Hrun. injection Hrun as <-.
    rewrite Hl, app_nil_r. exact HP.
  - destruct suf as [|i suf]; try discriminate. injection Hn as Hn. subst n.
    cbn [foreach_instr_safe] in Hrun. fold (state_impl state) in Hrun.
    rewrite Hl in Hrun.
    rewrite nth_error_middle, position_middle in Hrun.
    destruct (sysval_load i) as [location|] eqn:Hload.
    + rewrite (convert_instr_lower _ _ _ _ _ Hload) in Hrun
        by (fold (state_impl state); rewrite Hl, length_app; simpl; lia).
      fold (state_impl state) in Hrun.
      destruct (sysval_instrs _ _ _ location) as [[es d]|] eqn:Hes;
        try discriminate.
      fold (lowered_state bi (length pre) i es d state) in Hrun.
      eapply IH; [ apply length_map
                 | apply block_instrs_lowered_state; exact Hl
                 | eapply P_lower; eassumption
                 | exact Hrun ].
    + destruct (load_var_without_variable i) eqn:Hbad.
      * rewrite convert_instr_error in Hrun by exact Hbad. discriminate.
      * rewrite convert_instr_skip in Hrun by assumption.
        apply (IH suf (pre ++ [i]) state state' eq_refl); auto.
        rewrite Hl, <- app_assoc. reflexivity.
Qed.

End InstrLoop.

(** ** The loop over the blocks of a function

    An invariant [I bi state pre suf] describes a state in which the
    blocks before [bi] were gone through, and of block [bi] the
    instructions [pre] are behind and [suf] are ahead. *)

Section ImplLoop.

Variable I : nat -> lower_system_values_state ->
             list nir_instr -> list nir_instr -> Prop.

Hypothesis I_skip : forall bi state pre i suf,
  block_instrs (state_impl state) bi = pre ++ i :: suf ->
  I bi state pre (i :: suf) ->
  sysval_load i = None ->
  load_var_without_variable i = false ->
  I bi state (pre ++ [i]) suf.

Hypothesis I_lower : forall bi state pre i suf location es d,
  block_instrs (state_impl state) bi = pre ++ i :: suf ->
  I bi state pre (i :: suf) ->
  sysval_load i = Some location ->
  sysval_instrs (builder_info (builder state)) (builder_options (builder state))
    (ssa_alloc (state_impl state)) location = Some (es, d) ->
  I bi (lowered_state bi (length pre) i es d state)
    (map (nir_instr_rewrite_src (index (dest i)) (index d)) (pre ++ es))
    (map (nir_instr_rewrite_src (index (dest i)) (index d)) suf).

Hypothesis I_next : forall bi state,
  I bi state (block_instrs (state_impl state) bi) [] ->
  I (S bi) state [] (block_instrs (state_impl state) (S bi)).

Lemma convert_block_rule bi state state' :
  I bi state [] (block_instrs (state_impl state) bi) ->
  convert_block bi state = Some state' ->
  I (S bi) state' [] (block_instrs (state_impl state') (S bi)).
Proof.
  intros HI Hrun. apply I_next.
  unfold convert_block in Hrun.
  eapply (foreach_instr_safe_rule (I bi) bi (I_skip bi) (I_lower bi))
    with (pre := []) (suf := block_instrs (state_impl state) bi);
    [ reflexivity | reflexivity | exact HI | exact Hrun ].
Qed.

Lemma foreach_block_rule m : forall bi state state',
  I bi state [] (block_instrs (state_impl state) bi) ->
  foreach_block (seq bi m) state = Some state' ->
  I (bi + m) state' [] (block_instrs (state_impl state') (bi + m)).
Proof.
  induction m as [|m IH]; intros bi state state' HI Hrun.
  - simpl in Hrun. injection Hrun as <-. rewrite Nat.add_0_r. exact HI.
  - cbn [seq foreach_block] in Hrun.
    destruct (convert_block bi state) as [state1|] eqn:Hblock; try discriminate.
    replace (bi + S m) with (S bi + m) by lia.
    apply (IH (S bi) state1 state'); auto.
    eapply convert_block_rule; eauto.
Qed.

Lemma convert_impl_rule sh_info sh_options impl impl' p :
  I 0 {| builder := nir_builder_init sh_info sh_options impl; progress := false |}
    [] (block_instrs impl 0) ->
  convert_impl sh_info sh_options impl = Some (impl', p) ->
  exists state',
    I (length (body impl)) state' []
      (block_instrs (state_impl state') (length (body impl))) /\
    impl' = nir_metadata_preserve (state_impl state')
              (Z.lor nir_metadata_block_index nir_metadata_dominance) /\
    p = progress state'.
Proof.
  intros HI Hrun. unfold convert_impl in Hrun.
  destruct (foreach_block _ _) as [state'|] eqn:Hloop; try discriminate.
  injection Hrun as <- <-.
  exists state'. split; [|split]; auto.
  apply (foreach_block_rule _ _ _ _ HI Hloop).
Qed.

End ImplLoop.

(** ** The instructions before and behind a block *)

Lemma firstn_update_block bi f blocks :
  firstn bi (update_block bi f blocks) = firstn bi blocks.
Proof.
  revert bi; induction blocks as [|blk rest IH]; intros [|bi]; simpl; auto.
  f_equal. apply IH.
Qed.

Lemma skipn_update_block bi f blocks :
  skipn (S bi) (update_block bi f blocks) = skipn (S bi) blocks.
Proof.
  revert bi; induction blocks as [|blk rest IH]; intros [|bi]; simpl; auto.
  apply IH.
Qed.

Lemma flat_map_rewrite_block old new blocks :
  flat_map instr_list (map (rewrite_block old new) blocks) =
  map (nir_instr_rewrite_src old new) (flat_map instr_list blocks).
Proof.
  induction blocks as [|blk rest IH]; simpl; auto.
  rewrite map_app, IH. reflexivity.
Qed.

Lemma earlier_instrs_lowered_state bi k i es d state :
  earlier_instrs (state_impl (lowered_state bi k i es d state)) bi =
  map (nir_instr_rewrite_src (index (dest i)) (index d))
    (earlier_instrs (state_impl state) bi).
Proof.
  unfold earlier_instrs, state_impl, lowered_state. cbn [builder].
  rewrite lower_at_body, firstn_update_block, firstn_map, firstn_update_block.
  apply flat_map_rewrite_block.
Qed.

Lemma later_instrs_lowered_state bi k i es d state :
  later_instrs (state_impl (lowered_state bi k i es d state)) bi =
  map (nir_instr_rewrite_src (index (dest i)) (index d))
    (later_instrs (state_impl state) bi).
Proof.
  unfold later_instrs, state_impl, lowered_state. cbn [builder].
  rewrite lower_at_body, skipn_update_block, skipn_map, skipn_update_block.
  apply flat_map_rewrite_block.
Qed.

Lemma skipn_nth_error (blocks : list nir_block) n :
  skipn n blocks =
  match nth_error blocks n with
  | Some blk => blk :: skipn (S n) blocks
  | None => []
  end.
Proof.
  revert n; induction blocks as [|blk rest IH]; intros [|n]; simpl; auto.
Qed.

Lemma firstn_nth_error (blocks : list nir_block) n :
  firstn (S n) blocks =
  firstn n blocks ++
  match nth_error blocks n with
  | Some blk => [blk]
  | None => []
  end.
Proof.
  revert n; induction blocks as [|blk rest IH]; intros [|n]; simpl; auto.
  f_equal. apply IH.
Qed.

Lemma later_instrs_next impl bi :
  later_instrs impl bi = block_instrs impl (S bi) ++ later_instrs impl (S bi).
Proof.
  unfold later_instrs, block_instrs, instrs_at.
  rewrite (skipn_nth_error (body impl) (S bi)).
  destruct (nth_error (body impl) (S bi)) eqn:E; try reflexivity.
  apply nth_error_None in E. rewrite skipn_all2 by lia. reflexivity.
Qed.

Lemma earlier_instrs_next impl bi :
  earlier_instrs impl (S bi) = earlier_instrs impl bi ++ block_instrs impl bi.
Proof.
  unfold earlier_instrs, block_instrs, instrs_at.
  rewrite firstn_nth_error, flat_map_app.
  destruct (nth_error (body impl) bi); simpl; rewrite ?app_nil_r; reflexivity.
Qed.

Lemma impl_instrs_split impl bi :
  impl_instrs impl =
  earlier_instrs impl bi ++ block_instrs impl bi ++ later_instrs impl bi.
Proof.
  unfold impl_instrs, earlier_instrs, later_instrs, block_instrs, instrs_at.
  rewrite <- (firstn_skipn bi (body impl)) at 1.
  rewrite flat_map_app. f_equal.
  rewrite (skipn_nth_error (body impl) bi).
  destruct (nth_error (body impl) bi) eqn:E; try reflexivity.
  apply nth_error_None in E.
  rewrite (@skipn_all2 _ (S bi) (body impl)) by lia. reflexivity.
Qed.

Lemma impl_instrs_first impl :
  impl_instrs impl = block_instrs impl 0 ++ later_instrs impl 0.
Proof. apply (impl_instrs_split impl 0). Qed.

Lemma impl_instrs_last impl n :
  length (body impl) <= n ->
  impl_instrs impl = earlier_instrs impl n.
Proof.
  intros Hn. unfold impl_instrs, earlier_instrs.
  rewrite firstn_all2 by exact Hn. reflexivity.
Qed.

Lemma later_instrs_last impl n :
  length (body impl) <= S n ->
  later_instrs impl n = [].
Proof.
  intros Hn. unfold later_instrs. rewrite skipn_all2 by exact Hn. reflexivity.
Qed.

Lemma block_instrs_last impl n :
  length (body impl) <= n ->
  block_instrs impl n = [].
Proof.
  intros Hn. unfold block_instrs, instrs_at.
  apply nth_error_None in Hn. rewrite Hn. reflexivity.
Qed.

(** ** Redirected uses and inserted instructions *)

Lemma dest_rewrite old new i : dest (nir_instr_rewrite_src old new i) = dest i.
Proof. reflexivity. Qed.

Lemma sysval_load_rewrite old new i :
  sysval_load (nir_instr_rewrite_src old new i) = sysval_load i.
Proof.
  unfold sysval_load, nir_instr_rewrite_src. simpl.
  destruct (type i); reflexivity.
Qed.

Lemma load_var_without_variable_rewrite old new i :
  load_var_without_variable (nir_instr_rewrite_src old new i) =
  load_var_without_variable i.
Proof.
  unfold load_var_without_variable, nir_instr_rewrite_src. simpl.
  destruct (type i); reflexivity.
Qed.

Lemma lowerable_rewrite old new i :
  lowerable (nir_instr_rewrite_src old new i) = lowerable i.
Proof.
  unfold lowerable.
  rewrite load_var_without_variable_rewrite, sysval_load_rewrite. reflexivity.
Qed.

Lemma is_sysval_load_rewrite old new i :
  is_sysval_load (nir_instr_rewrite_src old new i) = is_sysval_load i.
Proof. unfold is_sysval_load. rewrite sysval_load_rewrite. reflexivity. Qed.

Lemma instr_uses_rewrite old new i :
  instr_uses (nir_instr_rewrite_src old new i) =
  map (rewrite_src old new) (instr_uses i).
Proof.
  unfold instr_uses, nir_instr_rewrite_src. simpl.
  destruct (type i); simpl; auto.
  rewrite !map_map. reflexivity.
Qed.



Lemma rewrite_src_fresh old new a n s :
  old < a -> a <= s < a + n -> rewrite_src old new s = s.
Proof.
  intros Hold Hs. unfold rewrite_src.
  destruct (Nat.eqb s old) eqn:E; auto.
  apply Nat.eqb_eq in E. lia.
Qed.

Lemma rewrite_fresh old new a n i :
  old < a -> fresh_in a n i -> nir_instr_rewrite_src old new i = i.
Proof.
  intros Hold [_ Huses]. destruct i as [d t].
  unfold nir_instr_rewrite_src, instr_uses in *. simpl in *. f_equal.
  destruct t as [op src | [op vars ci src] | v | tag src]; simpl in *; auto.
  - f_equal. rewrite <- (map_id src) at 2. apply map_ext_in.
    intros s Hs. destruct s as [ss sw]. unfold rewrite_alu_src. simpl. f_equal.
    rewrite Forall_forall in Huses.
    apply (rewrite_src_fresh old new a n); auto.
    apply Huses. apply in_map_iff. exists {| src_ssa := ss; swizzle := sw |}; auto.
  - do 2 f_equal. rewrite <- (map_id src) at 2. apply map_ext_in.
    intros s Hs. rewrite Forall_forall in Huses.
    apply (rewrite_src_fresh old new a n); auto.
  - f_equal. rewrite <- (map_id src) at 2. apply map_ext_in.
    intros s Hs. rewrite Forall_forall in Huses.
    apply (rewrite_src_fresh old new a n); auto.
Qed.

Lemma map_rewrite_fresh old new a n es :
  old < a -> Forall (fresh_in a n) es ->
  map (nir_instr_rewrite_src old new) es = es.
Proof.
  intros Hold Hes. rewrite <- (map_id es) at 2. apply map_ext_in.
  intros e He. rewrite Forall_forall in Hes.
  apply (rewrite_fresh old new a n); auto.
Qed.

Lemma sysval_instrs_fresh i o a location es d :
  sysval_instrs i o a location = Some (es, d) ->
  Forall (fresh_in a (length es)) es /\
  a <= index d < a + length es /\
  (exists e, In e es /\ dest e = d).
Proof.
  unfold sysval_instrs, alu2_instr, channel_instr, imm_instr, load_instr,
    arg_places, in_order.
  intros H.
  destruct location;
    try (destruct (args_order _));
    try (destruct (vertex_id_zero_based o));
    try (destruct (nir_intrinsic_from_system_value (SYSTEM_VALUE_other n)));
    try discriminate;
    injection H as <- <-; (split; [|split]);
    try (fresh_solve; fail);
    try (simpl; lia);
    (eexists; split; [pick_in | reflexivity]).
Qed.

Lemma sysval_load_new i o a location es d :
  sysval_instrs i o a location = Some (es, d) ->
  Forall (fun e => sysval_load e = None) es.
Proof.
  unfold sysval_instrs, alu2_instr, channel_instr, imm_instr, load_instr,
    arg_places, in_order.
  intros H.
  destruct location;
    try (destruct (args_order _));
    try (destruct (vertex_id_zero_based o));
    try (destruct (nir_intrinsic_from_system_value (SYSTEM_VALUE_other n)) as [[]|]);
    try discriminate;
    injection H as <- <-; repeat constructor.
Qed.

Lemma sysval_instrs_total i o a instr location :
  lowerable instr = true ->
  sysval_load instr = Some location ->
  exists es d, sysval_instrs i o a location = Some (es, d).
Proof.
  unfold lowerable. intros Hl Hload. rewrite Hload in Hl.
  apply andb_prop in Hl. destruct Hl as [_ Hl].
  unfold sysval_instrs.
  destruct location;
    try (destruct (args_order _));
    try (destruct (vertex_id_zero_based o));
    try (destruct (nir_intrinsic_from_system_value (SYSTEM_VALUE_other n)));
    try discriminate; eauto.
Qed.

Lemma lowerable_without_variable instr :
  lowerable instr = true -> load_var_without_variable instr = false.
Proof.
  unfold lowerable. intros H. apply andb_prop in H. destruct H as [H _].
  apply negb_true_iff in H. exact H.
Qed.

(** ** The pass gets through the instructions it can lower *)

Lemma foreach_instr_safe_total bi n : forall suf pre state,
  length suf = n ->
  block_instrs (state_impl state) bi = pre ++ suf ->
  Forall (fun i => lowerable i = true) suf ->
  exists state', foreach_instr_safe n bi state = Some state'.
Proof.
  induction n as [|n IH]; intros suf pre state Hn Hl Hall.
  - simpl. eauto.
  - destruct suf as [|i suf]; try discriminate. injection Hn as Hn. subst n.
    cbn [foreach_instr_safe]. fold (state_impl state).
    rewrite Hl, nth_error_middle, position_middle.
    inversion Hall as [|? ? Hi Hsuf]; subst.
    destruct (sysval_load i) as [location|] eqn:Hload.
    + rewrite (convert_instr_lower _ _ _ _ _ Hload)
        by (fold (state_impl state); rewrite Hl, length_app; simpl; lia).
      fold (state_impl state).
      destruct (sysval_instrs_total (builder_info (builder state))
                  (builder_options (builder state))
                  (ssa_alloc (state_impl state)) _ _ Hi Hload) as (es & d & Hes).
      rewrite Hes. fold (lowered_state bi (length pre) i es d state).
      eapply IH; [ apply length_map
                 | apply block_instrs_lowered_state; exact Hl
                 | ].
      apply Forall_forall. intros j Hj. apply in_map_iff in Hj.
      destruct Hj as (j0 & <- & Hj0). rewrite lowerable_rewrite.
      rewrite Forall_forall in Hsuf. auto.
    + rewrite convert_instr_skip
        by (auto using lowerable_without_variable).
      apply (IH suf (pre ++ [i]) state eq_refl); auto.
      rewrite Hl, <- app_assoc. reflexivity.
Qed.

Lemma pending_lowerable_skip bi state pre i suf :
  block_instrs (state_impl state) bi = pre ++ i :: suf ->
  pending_lowerable bi state pre (i :: suf) ->
  sysval_load i = None ->
  load_var_without_variable i = false ->
  pending_lowerable bi state (pre ++ [i]) suf.
Proof.
  unfold pending_lowerable. intros _ H _ _. inversion H; auto.
Qed.

Lemma Forall_map_rewrite (Q : nir_instr -> Prop) old new l :
  (forall i, Q i -> Q (nir_instr_rewrite_src old new i)) ->
  Forall Q l -> Forall Q (map (nir_instr_rewrite_src old new) l).
Proof.
  intros HQ H. induction H; simpl; constructor; auto.
Qed.

Lemma pending_lowerable_lower bi state pre i suf location es d :
  block_instrs (state_impl state) bi = pre ++ i :: suf ->
  pending_lowerable bi state pre (i :: suf) ->
  sysval_load i = Some location ->
  sysval_instrs (builder_info (builder state)) (builder_options (builder state))
    (ssa_alloc (state_impl state)) location = Some (es, d) ->
  pending_lowerable bi (lowered_state bi (length pre) i es d state)
    (map (nir_instr_rewrite_src (index (dest i)) (index d)) (pre ++ es))
    (map (nir_instr_rewrite_src (index (dest i)) (index d)) suf).
Proof.
  unfold pending_lowerable. intros _ H _ _.
  rewrite later_instrs_lowered_state, <- map_app.
  apply Forall_map_rewrite.
  - intros j Hj. rewrite lowerable_rewrite. exact Hj.
  - inversion H; auto.
Qed.

Lemma pending_lowerable_next bi state :
  pending_lowerable bi state (block_instrs (state_impl state) bi) [] ->
  pending_lowerable (S bi) state [] (block_instrs (state_impl state) (S bi)).
Proof.
  unfold pending_lowerable. simpl. rewrite later_instrs_next. auto.
Qed.

Lemma foreach_block_total m : forall bi state,
  pending_lowerable bi state [] (block_instrs (state_impl state) bi) ->
  exists state', foreach_block (seq bi m) state = Some state'.
Proof.
  induction m as [|m IH]; intros bi state Hall.
  - simpl. eauto.
  - cbn [seq foreach_block].
    assert (Hblock : exists state1, convert_block bi state = Some state1).
    { unfold convert_block. fold (state_impl state).
      apply (foreach_instr_safe_total bi _ (block_instrs (state_impl state) bi) []);
        auto.
      unfold pending_lowerable in Hall. apply Forall_app in Hall. tauto. }
    destruct Hblock as [state1 Hblock]. rewrite Hblock.
    apply IH.
    apply (convert_block_rule pending_lowerable pending_lowerable_skip
             pending_lowerable_lower pending_lowerable_next bi state state1);
      auto.
Qed.

Lemma forallb_Forall (l : list nir_instr) :
  forallb lowerable l = true <-> Forall (fun i => lowerable i = true) l.
Proof.
  rewrite forallb_forall, Forall_forall. reflexivity.
Qed.

Lemma convert_impl_total sh_info sh_options impl :
  impl_lowerable impl = true ->
  exists impl' p, convert_impl sh_info sh_options impl = Some (impl', p).
Proof.
  intros Hall. unfold convert_impl.
  destruct (foreach_block_total (length (body impl)) 0
              {| builder := nir_builder_init sh_info sh_options impl;
                 progress := false |}) as [state' Hrun].
  - unfold pending_lowerable, state_impl. simpl.
    rewrite <- impl_instrs_first. apply forallb_Forall. exact Hall.
  - rewrite Hrun. eauto.
Qed.

(** ** What the loops leave alone *)

Lemma frame_lowered_state impl sh_info sh_options bi k i es d state :
  frame impl sh_info sh_options state ->
  frame impl sh_info sh_options (lowered_state bi k i es d state).
Proof.
  unfold frame, state_impl, lowered_state. cbn [builder].
  rewrite lower_at_edges, lower_at_valid_metadata, lower_at_info,
    lower_at_options, lower_at_ssa_alloc.
  intuition lia.
Qed.

Lemma frame_init impl sh_info sh_options :
  frame impl sh_info sh_options
    {| builder := nir_builder_init sh_info sh_options impl; progress := false |}.
Proof. unfold frame, state_impl. simpl. intuition. Qed.

Lemma frame_length impl sh_info sh_options state :
  frame impl sh_info sh_options state ->
  length (body (state_impl state)) = length (body impl).
Proof.
  intros [He _]. rewrite <- (edges_length (body impl)), <- He.
  symmetry. apply edges_length.
Qed.

Section ImplLoopFrame.

Variable I : nat -> lower_system_values_state ->
             list nir_instr -> list nir_instr -> Prop.

Hypothesis I_skip : forall bi state pre i suf,
  block_instrs (state_impl state) bi = pre ++ i :: suf ->
  I bi state pre (i :: suf) ->
  sysval_load i = None ->
  load_var_without_variable i = false ->
  I bi state (pre ++ [i]) suf.

Hypothesis I_lower : forall bi state pre i suf location es d,
  block_instrs (state_impl state) bi = pre ++ i :: suf ->
  I bi state pre (i :: suf) ->
  sysval_load i = Some location ->
  sysval_instrs (builder_info (builder state)) (builder_options (builder state))
    (ssa_alloc (state_impl state)) location = Some (es, d) ->
  I bi (lowered_state bi (length pre) i es d state)
    (map (nir_instr_rewrite_src (index (dest i)) (index d)) (pre ++ es))
    (map (nir_instr_rewrite_src (index (dest i)) (index d)) suf).

Hypothesis I_next : forall bi state,
  I bi state (block_instrs (state_impl state) bi) [] ->
  I (S bi) state [] (block_instrs (state_impl state) (S bi)).

Lemma convert_impl_inv sh_info sh_options impl impl' p :
  I 0 {| builder := nir_builder_init sh_info sh_options impl; progress := false |}
    [] (block_instrs impl 0) ->
  convert_impl sh_info sh_options impl = Some (impl', p) ->
  exists state',
    I (length (body impl)) state' [] [] /\
    frame impl sh_info sh_options state' /\
    impl_instrs (state_impl state') =
      earlier_instrs (state_impl state') (length (body impl)) /\
    impl' = nir_metadata_preserve (state_impl state')
              (Z.lor nir_metadata_block_index nir_metadata_dominance) /\
    p = progress state'.
Proof.
  intros HI Hrun.
  set (J := fun bi state pre suf =>
              I bi state pre suf /\ frame impl sh_info sh_options state).
  assert (J_skip : forall bi state pre i suf,
             block_instrs (state_impl state) bi = pre ++ i :: suf ->
             J bi state pre (i :: suf) ->
             sysval_load i = None ->
             load_var_without_variable i = false ->
             J bi state (pre ++ [i]) suf).
  { intros bi state pre i suf Hl [H1 H2] Hload Hbad. split; auto. }
  assert (J_lower : forall bi state pre i suf location es d,
             block_instrs (state_impl state) bi = pre ++ i :: suf ->
             J bi state pre (i :: suf) ->
             sysval_load i = Some location ->
             sysval_instrs (builder_info (builder state))
               (builder_options (builder state))
               (ssa_alloc (state_impl state)) location = Some (es, d) ->
             J bi (lowered_state bi (length pre) i es d state)
               (map (nir_instr_rewrite_src (index (dest i)) (index d)) (pre ++ es))
               (map (nir_instr_rewrite_src (index (dest i)) (index d)) suf)).
  { intros bi state pre i suf location es d Hl [H1 H2] Hload Hes. split.
    - eapply I_lower; eauto.
    - apply frame_lowered_state. exact H2. }
  assert (J_next : forall bi state,
             J bi state (block_instrs (state_impl state) bi) [] ->
             J (S bi) state [] (block_instrs (state_impl state) (S bi))).
  { intros bi state [H1 H2]. split; auto. }
  assert (J_init : J 0 {| builder := nir_builder_init sh_info sh_options impl;
                          progress := false |} [] (block_instrs impl 0)).
  { split; [exact HI | apply frame_init]. }
  destruct (convert_impl_rule J J_skip J_lower J_next
              sh_info sh_options impl impl' p J_init Hrun)
    as (state' & [HI' Hf] & Himpl & Hp).
  exists state'. pose proof (frame_length _ _ _ _ Hf) as Hlen.
  rewrite block_instrs_last in HI' by lia.
  repeat split; auto; try apply Hf.
  apply impl_instrs_last. lia.
Qed.

End ImplLoopFrame.

Lemma convert_impl_frame sh_info sh_options impl impl' p :
  convert_impl sh_info sh_options impl = Some (impl', p) ->
  edges (body impl') = edges (body impl) /\
  valid_metadata impl' =
    Z.land (valid_metadata impl)
      (Z.lor nir_metadata_block_index nir_metadata_dominance) /\
  ssa_alloc impl <= ssa_alloc impl'.
Proof.
  intros Hrun.
  destruct (convert_impl_inv no_invariant) with (5 := Hrun)
    as (state' & _ & Hf & _ & -> & _); unfold no_invariant; auto.
  destruct Hf as (He & Hv & _ & _ & Ha). simpl.
  rewrite He, Hv. auto.
Qed.

(** ** Progress *)

Lemma convert_impl_progress sh_info sh_options impl impl' p :
  convert_impl sh_info sh_options impl = Some (impl', p) ->
  p = impl_has_sysval_load impl.
Proof.
  intros Hrun.
  destruct (convert_impl_inv (progress_inv (impl_has_sysval_load impl)))
    with (5 := Hrun) as (state' & HI & Hf & _ & _ & ->).
  - unfold progress_inv. intros bi state pre i suf _ H Hload _.
    simpl in H. unfold is_sysval_load at 1 in H. rewrite Hload in H. exact H.
  - unfold progress_inv. intros bi state pre i suf location es d _ H Hload _.
    simpl in H. unfold is_sysval_load at 1 in H. rewrite Hload in H.
    simpl in H. rewrite orb_true_r in H. rewrite <- H. reflexivity.
  - unfold progress_inv. intros bi state H. simpl in *.
    rewrite <- later_instrs_next. exact H.
  - unfold progress_inv, impl_has_sysval_load, state_impl. simpl.
    rewrite <- impl_instrs_first. reflexivity.
  - unfold progress_inv in HI. simpl in HI.
    rewrite later_instrs_last in HI
      by (rewrite (frame_length _ _ _ _ Hf); lia).
    simpl in HI. rewrite orb_false_r in HI. exact HI.
Qed.

(** ** Nothing left to lower *)

Lemma lowered_rewrite old new i :
  lowered i -> lowered (nir_instr_rewrite_src old new i).
Proof.
  unfold lowered.
  rewrite sysval_load_rewrite, load_var_without_variable_rewrite. auto.
Qed.

Lemma sysval_instrs_lowered i o a location es d :
  table_lower_level ->
  sysval_instrs i o a location = Some (es, d) ->
  Forall lowered es.
Proof.
  intros Htable H.
  pose proof (sysval_load_new _ _ _ _ _ _ H) as Hnew.
  apply Forall_forall. intros e He. split.
  - rewrite Forall_forall in Hnew. auto.
  - revert H He.
    unfold sysval_instrs, alu2_instr, channel_instr, imm_instr, load_instr,
    arg_places, in_order.
    destruct location;
      try (destruct (args_order _));
      try (destruct (vertex_id_zero_based o));
      try (destruct (nir_intrinsic_from_system_value (SYSTEM_VALUE_other n))
             as [op|] eqn:Hop);
      try discriminate;
      intros H He; injection H as <- <-; simpl in He;
      repeat (destruct He as [<- | He]; [reflexivity|]); try contradiction.
    all: destruct He as [<- | []];
      unfold load_var_without_variable; simpl;
      destruct op; try reflexivity;
      exfalso; apply (Htable _ _ Hop); reflexivity.
Qed.

Lemma convert_impl_lowered sh_info sh_options impl impl' p :
  table_lower_level ->
  convert_impl sh_info sh_options impl = Some (impl', p) ->
  Forall lowered (impl_instrs impl').
Proof.
  intros Htable Hrun.
  destruct (convert_impl_inv lowered_inv) with (5 := Hrun)
    as (state' & HI & Hf & Hall & -> & _).
  - unfold lowered_inv. intros bi state pre i suf _ H Hload Hbad.
    rewrite app_assoc. apply Forall_app. split; auto.
    constructor; [split; auto | constructor].
  - unfold lowered_inv. intros bi state pre i suf location es d _ H _ Hes.
    rewrite earlier_instrs_lowered_state, <- map_app.
    apply Forall_map_rewrite; [apply lowered_rewrite|].
    rewrite app_assoc. apply Forall_app. split; auto.
    eapply sysval_instrs_lowered; eauto.
  - unfold lowered_inv. intros bi state H. rewrite app_nil_r in *.
    rewrite earlier_instrs_next. exact H.
  - unfold lowered_inv. simpl. constructor.
  - unfold lowered_inv in HI. rewrite app_nil_r in HI.
    unfold impl_instrs, nir_metadata_preserve. simpl.
    fold (impl_instrs (state_impl state')). rewrite Hall. exact HI.
Qed.

Lemma lowered_lowerable i : lowered i -> lowerable i = true.
Proof.
  intros [Hload Hbad]. unfold lowerable. rewrite Hload, Hbad. reflexivity.
Qed.

Lemma in_block_instrs impl bi i :
  In i (block_instrs impl bi) -> In i (impl_instrs impl).
Proof.
  intros H. rewrite (impl_instrs_split impl bi).
  apply in_or_app. right. apply in_or_app. left. exact H.
Qed.

Lemma convert_impl_nothing_to_do sh_info sh_options impl :
  Forall lowered (impl_instrs impl) ->
  convert_impl sh_info sh_options impl =
  Some (nir_metadata_preserve impl
          (Z.lor nir_metadata_block_index nir_metadata_dominance), false).
Proof.
  intros Hall.
  destruct (convert_impl_total sh_info sh_options impl) as (impl' & p & Hrun).
  { apply forallb_Forall. eapply Forall_impl; [|exact Hall].
    apply lowered_lowerable. }
  rewrite Hrun.
  destruct (convert_impl_inv
              (unchanged_inv
                 {| builder := nir_builder_init sh_info sh_options impl;
                    progress := false |}))
    with (5 := Hrun) as (state' & HI & _ & _ & -> & ->);
    unfold unchanged_inv in *; auto.
  - intros bi state pre i suf location es d Hl -> Hload _. exfalso.
    unfold state_impl in Hl. simpl in Hl.
    assert (Hin : In i (impl_instrs impl)).
    { apply (in_block_instrs impl bi). rewrite Hl.
      apply in_or_app. right. left. reflexivity. }
    rewrite Forall_forall in Hall. destruct (Hall _ Hin) as [Hnone _].
    congruence.
  - rewrite HI. reflexivity.
Qed.

(** ** No use of a removed value is left *)

Lemma impl_instrs_lowered_state bi pre i suf es d state :
  block_instrs (state_impl state) bi = pre ++ i :: suf ->
  impl_instrs (state_impl (lowered_state bi (length pre) i es d state)) =
  map (nir_instr_rewrite_src (index (dest i)) (index d))
    (earlier_instrs (state_impl state) bi ++ (pre ++ es) ++ suf ++
     later_instrs (state_impl state) bi).
Proof.
  intros Hl.
  rewrite (impl_instrs_split _ bi).
  rewrite earlier_instrs_lowered_state, later_instrs_lowered_state.
  rewrite (block_instrs_lowered_state _ _ _ _ _ _ _ Hl).
  rewrite !map_app, <- !app_assoc. reflexivity.
Qed.






(** ** The value the inserted instructions compute *)

Lemma wrap32_add a b : wrap32 (wrap32 a + wrap32 b) = wrap32 (a + b).
Proof. unfold wrap32. symmetry. apply Z.add_mod. lia. Qed.

Lemma wrap32_mul a b : wrap32 (wrap32 a * wrap32 b) = wrap32 (a * b).
Proof. unfold wrap32. symmetry. apply Z.mul_mod. lia. Qed.

Lemma wrap32_idem a : wrap32 (wrap32 a) = wrap32 a.
Proof. unfold wrap32. apply Z.mod_mod. lia. Qed.

(** One read is lowered: what [convert_instr] returns and what it leaves
    in the block, for any instructions [es] the [switch] inserts. *)
Lemma convert_instr_lowered bi pre instr suf state location es d :
  block_instrs (state_impl state) bi = pre ++ instr :: suf ->
  sysval_load instr = Some location ->
  index (dest instr) < ssa_alloc (state_impl state) ->
  sysval_instrs (builder_info (builder state)) (builder_options (builder state))
    (ssa_alloc (state_impl state)) location = Some (es, d) ->
  convert_instr bi (length pre) instr state =
    Some (lowered_state bi (length pre) instr es d state) /\
  block_instrs (state_impl (lowered_state bi (length pre) instr es d state)) bi =
    map (nir_instr_rewrite_src (index (dest instr)) (index d)) pre ++ es ++
    map (nir_instr_rewrite_src (index (dest instr)) (index d)) suf.
Proof.
  intros Hl Hload Hold Hes. split.
  - rewrite (convert_instr_lower _ _ _ _ _ Hload)
      by (fold (state_impl state); rewrite Hl, length_app; simpl; lia).
    fold (state_impl state). rewrite Hes. reflexivity.
  - rewrite (block_instrs_lowered_state _ _ _ _ _ _ _ Hl).
    rewrite map_app, <- app_assoc. do 2 f_equal.
    destruct (sysval_instrs_fresh _ _ _ _ _ _ Hes) as (Hfresh & _).
    apply (map_rewrite_fresh _ _ _ _ _ Hold Hfresh).
Qed.

(** ** The computation rules *)

(** C1.  A variable read of the global invocation id, wherever it stands
    in a block, is replaced by five new instructions: reads of the work
    group id and of the local invocation id through the lower-level
    intrinsics, the constant (size 0, size 1, size 2) with three
    components taken from the shader's local size, their product and
    the sum.  Run on any registers, they leave in the replacing value
    group_id * local_size + local_invocation_id, component by component
    over three components (each component modulo 2^32). *)
Theorem global_invocation_id_lowering bi pre instr suf state env r :
  block_instrs (state_impl state) bi = pre ++ instr :: suf ->
  sysval_load instr = Some SYSTEM_VALUE_GLOBAL_INVOCATION_ID ->
  index (dest instr) < ssa_alloc (state_impl state) ->
  dest_components nir_intrinsic_load_work_group_id = 3 ->
  dest_components nir_intrinsic_load_local_invocation_id = 3 ->
  let a := ssa_alloc (state_impl state) in
  let size := local_size (builder_info (builder state)) in
  let group_id := load_instr a nir_intrinsic_load_work_group_id in
  let local_id := load_instr (a + 1) nir_intrinsic_load_local_invocation_id in
  let imm := imm_instr (a + 2) 3 [wrap32 (size 0); wrap32 (size 1); wrap32 (size 2)] in
  let mul := alu2_instr (a + 3) nir_op_imul (dest group_id) (dest imm) in
  let add := alu2_instr (a + 4) nir_op_iadd (dest mul) (dest local_id) in
  let es := [group_id; local_id; imm; mul; add] in
  let state' := lowered_state bi (length pre) instr es (dest add) state in
  convert_instr bi (length pre) instr state = Some state' /\
  block_instrs (state_impl state') bi =
    map (nir_instr_rewrite_src (index (dest instr)) (a + 4)) pre ++ es ++
    map (nir_instr_rewrite_src (index (dest instr)) (a + 4)) suf /\
  exists r',
    exec_instrs env r es = Some r' /\
    r' (a + 4) =
      Some (map (fun c =>
                   wrap32 (env nir_intrinsic_load_work_group_id c * size c +
                           env nir_intrinsic_load_local_invocation_id c))
              [0; 1; 2]).
Proof.
  intros Hl Hload Hold Hwg Hlid a size group_id local_id imm mul add es state'.
  assert (Hes : sysval_instrs (builder_info (builder state))
                  (builder_options (builder state)) a
                  SYSTEM_VALUE_GLOBAL_INVOCATION_ID = Some (es, dest add)).
  { unfold sysval_instrs. rewrite Nat.add_0_r. reflexivity. }
  destruct (convert_instr_lowered _ _ _ _ _ _ _ _ Hl Hload Hold Hes) as [H1 H2].
  split; [exact H1|]. split; [exact H2|].
  eexists. split.
  - unfold es, group_id, local_id, imm, mul, add, load_instr, imm_instr, alu2_instr.
    exec_solve Hwg Hlid. reflexivity.
  - cbv beta. rewrite Nat.eqb_refl. cbn [map].
    rewrite !wrap32_idem, !wrap32_mul, !wrap32_add. reflexivity.
Qed.

(** C2.  A variable read of the local invocation index is replaced by
    new instructions that read the local invocation id through the
    lower-level intrinsic, take the scalar constants size_x and size_y
    from the shader's local size, and compute
    local_id.z * size_x * size_y + local_id.y * size_x + local_id.x
    (modulo 2^32).  The move of local_id.z and the product
    size_x * size_y are the two arguments of one call: they are inserted,
    and their values numbered, in the order the compiler chose for that
    call, the move first from left to right and the product first from
    right to left.  The value computed is the same for either order. *)
Theorem local_invocation_index_lowering bi pre instr suf state env r :
  block_instrs (state_impl state) bi = pre ++ instr :: suf ->
  sysval_load instr = Some SYSTEM_VALUE_LOCAL_INVOCATION_INDEX ->
  index (dest instr) < ssa_alloc (state_impl state) ->
  dest_components nir_intrinsic_load_local_invocation_id = 3 ->
  let a := ssa_alloc (state_impl state) in
  let size := local_size (builder_info (builder state)) in
  let order := args_order SYSTEM_VALUE_LOCAL_INVOCATION_INDEX in
  let local_id := load_instr a nir_intrinsic_load_local_invocation_id in
  let size_x := imm_instr (a + 1) 1 [wrap32 (size 0)] in
  let size_y := imm_instr (a + 2) 1 [wrap32 (size 1)] in
  let z :=
    channel_instr
      (match order with left_to_right => a + 3 | right_to_left => a + 4 end)
      (dest local_id) 2 in
  let xy :=
    alu2_instr
      (match order with left_to_right => a + 4 | right_to_left => a + 3 end)
      nir_op_imul (dest size_x) (dest size_y) in
  let zxy := alu2_instr (a + 5) nir_op_imul (dest z) (dest xy) in
  let y := channel_instr (a + 6) (dest local_id) 1 in
  let yx := alu2_instr (a + 7) nir_op_imul (dest y) (dest size_x) in
  let add1 := alu2_instr (a + 8) nir_op_iadd (dest zxy) (dest yx) in
  let x := channel_instr (a + 9) (dest local_id) 0 in
  let add2 := alu2_instr (a + 10) nir_op_iadd (dest add1) (dest x) in
  let es :=
    match order with
    | left_to_right => [local_id; size_x; size_y; z; xy; zxy; y; yx; add1; x; add2]
    | right_to_left => [local_id; size_x; size_y; xy; z; zxy; y; yx; add1; x; add2]
    end in
  let state' := lowered_state bi (length pre) instr es (dest add2) state in
  convert_instr bi (length pre) instr state = Some state' /\
  block_instrs (state_impl state') bi =
    map (nir_instr_rewrite_src (index (dest instr)) (a + 10)) pre ++ es ++
    map (nir_instr_rewrite_src (index (dest instr)) (a + 10)) suf /\
  exists r',
    exec_instrs env r es = Some r' /\
    r' (a + 10) =
      Some [wrap32 (env nir_intrinsic_load_local_invocation_id 2 * size 0 * size 1 +
                    env nir_intrinsic_load_local_invocation_id 1 * size 0 +
                    env nir_intrinsic_load_local_invocation_id 0)].
Proof.
  intros Hl Hload Hold Hlid a size order local_id size_x size_y z xy zxy y yx add1 x
    add2 es state'.
  assert (Hes : sysval_instrs (builder_info (builder state))
                  (builder_options (builder state)) a
                  SYSTEM_VALUE_LOCAL_INVOCATION_INDEX = Some (es, dest add2)).
  { unfold sysval_instrs, arg_places, in_order, es, add2, add1, zxy, z, xy, order.
    rewrite Nat.add_0_r.
    destruct (args_order SYSTEM_VALUE_LOCAL_INVOCATION_INDEX); reflexivity. }
  destruct (convert_instr_lowered _ _ _ _ _ _ _ _ Hl Hload Hold Hes) as [H1 H2].
  split; [exact H1|]. split; [exact H2|].
  clear H1 H2 Hes.
  unfold es, add2, x, add1, yx, y, zxy, xy, z, size_y, size_x, local_id, order,
    load_instr, imm_instr, alu2_instr, channel_instr.
  clear state' es add2 x add1 yx y zxy xy z size_y size_x local_id order.
  destruct (args_order SYSTEM_VALUE_LOCAL_INVOCATION_INDEX).
  - eexists. split.
    + exec_solve Hlid Hlid. reflexivity.
    + cbv beta. rewrite Nat.eqb_refl.
      rewrite_strat (bottomup (choice wrap32_idem (choice wrap32_mul wrap32_add))).
      rewrite Z.mul_assoc. reflexivity.
  - eexists. split.
    + exec_solve Hlid Hlid. reflexivity.
    + cbv beta. rewrite Nat.eqb_refl.
      rewrite_strat (bottomup (choice wrap32_idem (choice wrap32_mul wrap32_add))).
      rewrite Z.mul_assoc. reflexivity.
Qed.

(** C3.  A variable read of the vertex id: when the option
    [vertex_id_zero_based] is set, two new intrinsic reads (zero-based
    vertex id, base vertex) and their sum replace it; otherwise a single
    new read of the vertex id does, and the value does not involve the
    base vertex.  The two reads are the two arguments of the addition:
    they are inserted, and their values numbered, in the order the
    compiler chose for that call; the sum and its value are the same for
    either order. *)
Theorem vertex_id_lowering bi pre instr suf state env r :
  block_instrs (state_impl state) bi = pre ++ instr :: suf ->
  sysval_load instr = Some SYSTEM_VALUE_VERTEX_ID ->
  index (dest instr) < ssa_alloc (state_impl state) ->
  dest_components nir_intrinsic_load_vertex_id_zero_base = 1 ->
  dest_components nir_intrinsic_load_base_vertex = 1 ->
  dest_components nir_intrinsic_load_vertex_id = 1 ->
  let a := ssa_alloc (state_impl state) in
  let zero_based := vertex_id_zero_based (builder_options (builder state)) in
  let order := args_order SYSTEM_VALUE_VERTEX_ID in
  let zero_base :=
    load_instr (match order with left_to_right => a | right_to_left => a + 1 end)
      nir_intrinsic_load_vertex_id_zero_base in
  let base_vertex :=
    load_instr (match order with left_to_right => a + 1 | right_to_left => a end)
      nir_intrinsic_load_base_vertex in
  let add := alu2_instr (a + 2) nir_op_iadd (dest zero_base) (dest base_vertex) in
  let vertex_id := load_instr a nir_intrinsic_load_vertex_id in
  let es :=
    if zero_based
    then match order with
         | left_to_right => [zero_base; base_vertex; add]
         | right_to_left => [base_vertex; zero_base; add]
         end
    else [vertex_id] in
  let sysval := if zero_based then dest add else dest vertex_id in
  let state' := lowered_state bi (length pre) instr es sysval state in
  convert_instr bi (length pre) instr state = Some state' /\
  block_instrs (state_impl state') bi =
    map (nir_instr_rewrite_src (index (dest instr)) (index sysval)) pre ++ es ++
    map (nir_instr_rewrite_src (index (dest instr)) (index sysval)) suf /\
  exists r',
    exec_instrs env r es = Some r' /\
    r' (index sysval) =
      Some [if zero_based
            then wrap32 (env nir_intrinsic_load_vertex_id_zero_base 0 +
                         env nir_intrinsic_load_base_vertex 0)
            else wrap32 (env nir_intrinsic_load_vertex_id 0)].
Proof.
  intros Hl Hload Hold Hzb Hbv Hvid a zero_based order zero_base base_vertex add
    vertex_id es sysval state'.
  assert (Hes : sysval_instrs (builder_info (builder state))
                  (builder_options (builder state)) a
                  SYSTEM_VALUE_VERTEX_ID = Some (es, sysval)).
  { unfold sysval_instrs, arg_places, in_order, es, sysval, zero_based, add,
      zero_base, base_vertex, vertex_id, order.
    rewrite !Nat.add_0_r.
    destruct (vertex_id_zero_based (builder_options (builder state)));
      destruct (args_order SYSTEM_VALUE_VERTEX_ID); reflexivity. }
  destruct (convert_instr_lowered _ _ _ _ _ _ _ _ Hl Hload Hold Hes) as [H1 H2].
  split; [exact H1|]. split; [exact H2|].
  clear H1 H2 Hes.
  unfold es, sysval, vertex_id, add, base_vertex, zero_base, order, zero_based,
    load_instr, alu2_instr.
  clear state' sysval es vertex_id add base_vertex zero_base order zero_based.
  destruct (vertex_id_zero_based (builder_options (builder state)));
    [destruct (args_order SYSTEM_VALUE_VERTEX_ID)|].
  - eexists. split.
    + exec_solve Hzb Hbv. reflexivity.
    + cbv beta. cbn [index dest]. rewrite Nat.eqb_refl.
      rewrite wrap32_add. reflexivity.
  - eexists. split.
    + exec_solve Hzb Hbv. reflexivity.
    + cbv beta. cbn [index dest]. rewrite Nat.eqb_refl.
      rewrite wrap32_add. reflexivity.
  - eexists. split.
    + exec_solve Hvid Hvid. reflexivity.
    + cbv beta. cbn [index dest]. rewrite Nat.eqb_refl. reflexivity.
Qed.

(** C4.  A variable read of the instance index is replaced by two new
    intrinsic reads (instance id, base instance) and their sum, whatever
    the options of the shader are.  The two reads are the two arguments
    of the addition: they are inserted, and their values numbered, in the
    order the compiler chose for that call; the sum and its value are the
    same for either order. *)
Theorem instance_index_lowering bi pre instr suf state env r :
  block_instrs (state_impl state) bi = pre ++ instr :: suf ->
  sysval_load instr = Some SYSTEM_VALUE_INSTANCE_INDEX ->
  index (dest instr) < ssa_alloc (state_impl state) ->
  dest_components nir_intrinsic_load_instance_id = 1 ->
  dest_components nir_intrinsic_load_base_instance = 1 ->
  let a := ssa_alloc (state_impl state) in
  let order := args_order SYSTEM_VALUE_INSTANCE_INDEX in
  let instance_id :=
    load_instr (match order with left_to_right => a | right_to_left => a + 1 end)
      nir_intrinsic_load_instance_id in
  let base_instance :=
    load_instr (match order with left_to_right => a + 1 | right_to_left => a end)
      nir_intrinsic_load_base_instance in
  let add := alu2_instr (a + 2) nir_op_iadd (dest instance_id) (dest base_instance) in
  let es :=
    match order with
    | left_to_right => [instance_id; base_instance; add]
    | right_to_left => [base_instance; instance_id; add]
    end in
  let state' := lowered_state bi (length pre) instr es (dest add) state in
  convert_instr bi (length pre) instr state = Some state' /\
  block_instrs (state_impl state') bi =
    map (nir_instr_rewrite_src (index (dest instr)) (a + 2)) pre ++ es ++
    map (nir_instr_rewrite_src (index (dest instr)) (a + 2)) suf /\
  exists r',
    exec_instrs env r es = Some r' /\
    r' (a + 2) =
      Some [wrap32 (env nir_intrinsic_load_instance_id 0 +
                    env nir_intrinsic_load_base_instance 0)].
Proof.
  intros Hl Hload Hold Hid Hbi a order instance_id base_instance add es state'.
  assert (Hes : sysval_instrs (builder_info (builder state))
                  (builder_options (builder state)) a
                  SYSTEM_VALUE_INSTANCE_INDEX = Some (es, dest add)).
  { unfold sysval_instrs, arg_places, in_order, es, add, instance_id, base_instance,
      order.
    rewrite !Nat.add_0_r.
    destruct (args_order SYSTEM_VALUE_INSTANCE_INDEX); reflexivity. }
  destruct (convert_instr_lowered _ _ _ _ _ _ _ _ Hl Hload Hold Hes) as [H1 H2].
  split; [exact H1|]. split; [exact H2|].
  clear H1 H2 Hes.
  unfold es, add, base_instance, instance_id, order, load_instr, alu2_instr.
  clear state' es add base_instance instance_id order.
  destruct (args_order SYSTEM_VALUE_INSTANCE_INDEX).
  - eexists. split.
    + exec_solve Hid Hbi. reflexivity.
    + cbv beta. rewrite Nat.eqb_refl. rewrite wrap32_add. reflexivity.
  - eexists. split.
    + exec_solve Hid Hbi. reflexivity.
    + cbv beta. rewrite Nat.eqb_refl. rewrite wrap32_add. reflexivity.
Qed.

(** C5.  A variable read of any other kind, for which the mapping table
    has the entry [sysval_op], is replaced by exactly one new
    instruction: an intrinsic read of kind [sysval_op], without
    variables and sources; no arithmetic is inserted. *)
Theorem other_system_value_lowering bi pre instr suf state location sysval_op :
  block_instrs (state_impl state) bi = pre ++ instr :: suf ->
  sysval_load instr = Some location ->
  index (dest instr) < ssa_alloc (state_impl state) ->
  location <> SYSTEM_VALUE_GLOBAL_INVOCATION_ID ->
  location <> SYSTEM_VALUE_LOCAL_INVOCATION_INDEX ->
  location <> SYSTEM_VALUE_VERTEX_ID ->
  location <> SYSTEM_VALUE_INSTANCE_INDEX ->
  nir_intrinsic_from_system_value location = Some sysval_op ->
  let a := ssa_alloc (state_impl state) in
  let load :=
    {| dest := {| index := a; num_components := dest_components sysval_op |};
       type := nir_instr_type_intrinsic
                 {| intrinsic := sysval_op; variables := [];
                    const_index := [0%Z]; intrinsic_src := [] |} |} in
  let state' := lowered_state bi (length pre) instr [load] (dest load) state in
  convert_instr bi (length pre) instr state = Some state' /\
  block_instrs (state_impl state') bi =
    map (nir_instr_rewrite_src (index (dest instr)) a) pre ++ [load] ++
    map (nir_instr_rewrite_src (index (dest instr)) a) suf.
Proof.
  intros Hl Hload Hold H1 H2 H3 H4 Htable a load state'.
  assert (Hes : sysval_instrs (builder_info (builder state))
                  (builder_options (builder state)) a location =
                Some ([load], dest load)).
  { unfold sysval_instrs, load_instr. rewrite Nat.add_0_r.
    destruct location; try congruence.
    rewrite Htable. reflexivity. }
  exact (convert_instr_lowered _ _ _ _ _ _ _ _ Hl Hload Hold Hes).
Qed.

(** A read of a kind the mapping table has no entry for ends the run. *)
Lemma unmapped_system_value_ends_run bi pre instr suf state n :
  block_instrs (state_impl state) bi = pre ++ instr :: suf ->
  sysval_load instr = Some (SYSTEM_VALUE_other n) ->
  nir_intrinsic_from_system_value (SYSTEM_VALUE_other n) = None ->
  convert_instr bi (length pre) instr state = None.
Proof.
  intros Hl Hload Htable.
  rewrite (convert_instr_lower _ _ _ _ _ Hload)
    by (fold (state_impl state); rewrite Hl, length_app; simpl; lia).
  unfold sysval_instrs. rewrite Htable. reflexivity.
Qed.

(** ** The functions of a shader *)

Lemma foreach_function_spec sh_info sh_options fs : forall p0 fs' p,
  foreach_function sh_info sh_options fs p0 = Some (fs', p) ->
  Forall2 (lowered_function sh_info sh_options) fs fs' /\
  p = existsb function_has_sysval_load fs || p0.
Proof.
  induction fs as [|f fs IH]; intros p0 fs' p Hrun; simpl in Hrun.
  - injection Hrun as <- <-. split; [constructor | reflexivity].
  - destruct (function_impl f) as [impl|] eqn:Himpl.
    + destruct (convert_impl sh_info sh_options impl) as [[impl' p1]|] eqn:Hconv;
        try discriminate.
      destruct (foreach_function sh_info sh_options fs (p1 || p0))
        as [[rest' p2]|] eqn:Hrest; try discriminate.
      injection Hrun as <- <-.
      destruct (IH _ _ _ Hrest) as [Hall Hp]. split.
      * constructor; auto. unfold lowered_function. rewrite Himpl. eauto.
      * simpl. unfold function_has_sysval_load at 1. rewrite Himpl.
        rewrite <- (convert_impl_progress _ _ _ _ _ Hconv), Hp.
        destruct p1, (existsb function_has_sysval_load fs), p0; reflexivity.
    + destruct (foreach_function sh_info sh_options fs p0)
        as [[rest' p2]|] eqn:Hrest; try discriminate.
      injection Hrun as <- <-.
      destruct (IH _ _ _ Hrest) as [Hall Hp]. split.
      * constructor; auto. unfold lowered_function. rewrite Himpl. reflexivity.
      * simpl. unfold function_has_sysval_load at 1. rewrite Himpl. exact Hp.
Qed.

Lemma foreach_function_total sh_info sh_options fs : forall p0,
  forallb function_lowerable fs = true ->
  exists fs' p, foreach_function sh_info sh_options fs p0 = Some (fs', p).
Proof.
  induction fs as [|f fs IH]; intros p0 Hall; simpl.
  - eauto.
  - simpl in Hall. apply andb_prop in Hall. destruct Hall as [Hf Hfs].
    unfold function_lowerable in Hf.
    destruct (function_impl f) as [impl|].
    + destruct (convert_impl_total sh_info sh_options impl Hf)
        as (impl' & p1 & Hconv).
      rewrite Hconv.
      destruct (IH (p1 || p0) Hfs) as (rest' & p2 & Hrest).
      rewrite Hrest. eauto.
    + destruct (IH p0 Hfs) as (rest' & p2 & Hrest). rewrite Hrest. eauto.
Qed.

Lemma nir_lower_system_values_total shader :
  shader_lowerable shader = true ->
  exists shader' p, nir_lower_system_values shader = Some (shader', p).
Proof.
  intros Hall. unfold nir_lower_system_values.
  destruct (foreach_function_total (info shader) (options shader)
              (functions shader) false Hall) as (fs' & p & Hrun).
  rewrite Hrun. eauto.
Qed.



(** C8.  After a run of [nir_lower_system_values] the list of
    system-value variables of the shader is empty, whatever it held
    before and whether or not anything was rewritten. *)
Theorem system_values_cleared shader :
  shader_lowerable shader = true ->
  exists shader' p,
    nir_lower_system_values shader = Some (shader', p) /\
    system_values shader' = [].
Proof.
  intros Hall.
  destruct (nir_lower_system_values_total shader Hall) as (shader' & p & Hrun).
  exists shader', p. split; [exact Hrun|].
  unfold nir_lower_system_values in Hrun.
  destruct (foreach_function _ _ _ _) as [[fs' p']|]; try discriminate.
  injection Hrun as <- <-. reflexivity.
Qed.

Lemma edges_successors blocks :
  map successors blocks = map fst (edges blocks).
Proof. unfold edges. rewrite map_map. reflexivity. Qed.

Lemma edges_predecessors blocks :
  map predecessors blocks = map snd (edges blocks).
Proof. unfold edges. rewrite map_map. reflexivity. Qed.

(** C9.  [convert_impl] leaves the blocks of the function and their
    edges as they are: as many blocks, each with the successors and
    predecessors it had.  Whatever the result, of the metadata flags
    exactly block index and dominance are kept as they were (the others
    are dropped). *)
Theorem convert_impl_preserves_control_flow sh_info sh_options impl :
  impl_lowerable impl = true ->
  exists impl' p,
    convert_impl sh_info sh_options impl = Some (impl', p) /\
    length (body impl') = length (body impl) /\
    map successors (body impl') = map successors (body impl) /\
    map predecessors (body impl') = map predecessors (body impl) /\
    valid_metadata impl' =
      Z.land (valid_metadata impl)
        (Z.lor nir_metadata_block_index nir_metadata_dominance) /\
    Z.land (valid_metadata impl') nir_metadata_block_index =
      Z.land (valid_metadata impl) nir_metadata_block_index /\
    Z.land (valid_metadata impl') nir_metadata_dominance =
      Z.land (valid_metadata impl) nir_metadata_dominance.
Proof.
  intros Hall.
  destruct (convert_impl_total sh_info sh_options impl Hall) as (impl' & p & Hrun).
  exists impl', p. split; [exact Hrun|].
  destruct (convert_impl_frame _ _ _ _ _ Hrun) as (He & Hv & _).
  split; [|split; [|split; [|split; [|split]]]].
  - rewrite <- (edges_length (body impl')), He. apply edges_length.
  - rewrite !edges_successors, He. reflexivity.
  - rewrite !edges_predecessors, He. reflexivity.
  - exact Hv.
  - rewrite Hv, <- Z.land_assoc. reflexivity.
  - rewrite Hv, <- Z.land_assoc. reflexivity.
Qed.

(** ** Where the redirected uses go *)

Lemma rewrite_is_subst old new i :
  nir_instr_rewrite_src old new i = subst_instr (rewrite_src old new) i.
Proof.
  unfold nir_instr_rewrite_src, subst_instr. destruct (type i); reflexivity.
Qed.

Lemma subst_instr_compose f g i :
  subst_instr f (subst_instr g i) = subst_instr (fun x => f (g x)) i.
Proof.
  unfold subst_instr. simpl. f_equal.
  destruct (type i) as [op src | intr | v | tag src]; simpl; auto.
  - rewrite map_map. reflexivity.
  - rewrite map_map. reflexivity.
  - rewrite map_map. reflexivity.
Qed.

Lemma subst_instr_id i : subst_instr (fun x => x) i = i.
Proof.
  destruct i as [d t]. unfold subst_instr. simpl. f_equal.
  destruct t as [op src | [op vars ci src] | v | tag src]; simpl; auto.
  - f_equal. rewrite <- (map_id src) at 2. apply map_ext.
    intros [s w]. reflexivity.
  - rewrite map_id. reflexivity.
  - rewrite map_id. reflexivity.
Qed.

Lemma map_subst_instr_id l : map (subst_instr (fun x => x)) l = l.
Proof.
  rewrite <- (map_id l) at 2. apply map_ext. apply subst_instr_id.
Qed.


Lemma sysval_load_subst sigma i :
  sysval_load (subst_instr sigma i) = sysval_load i.
Proof.
  unfold sysval_load, subst_instr. simpl. destruct (type i); reflexivity.
Qed.

Lemma map_rewrite_subst old new sigma l :
  map (nir_instr_rewrite_src old new) (map (subst_instr sigma) l) =
  map (subst_instr (fun x => rewrite_src old new (sigma x))) l.
Proof.
  rewrite map_map. apply map_ext. intros i.
  rewrite rewrite_is_subst, subst_instr_compose. reflexivity.
Qed.



Lemma rewrite_src_neq old new x : x <> old -> rewrite_src old new x = x.
Proof.
  intros H. unfold rewrite_src. apply Nat.eqb_neq in H. rewrite H. reflexivity.
Qed.





Lemma convert_impl_no_reads sh_info sh_options impl impl' p :
  convert_impl sh_info sh_options impl = Some (impl', p) ->
  Forall (fun i => sysval_load i = None) (impl_instrs impl').
Proof.
  intros Hrun.
  destruct (convert_impl_inv no_reads_inv) with (5 := Hrun)
    as (state' & HI & Hf & Hall & -> & _).
  - unfold no_reads_inv. intros bi state pre i suf _ H Hload Hbad.
    rewrite app_assoc. apply Forall_app. split; auto.
  - unfold no_reads_inv. intros bi state pre i suf location es d _ H _ Hes.
    rewrite earlier_instrs_lowered_state, <- map_app.
    apply Forall_map_rewrite.
    + intros j Hj. rewrite sysval_load_rewrite. exact Hj.
    + rewrite app_assoc. apply Forall_app. split; auto.
      eapply sysval_load_new; eauto.
  - unfold no_reads_inv. intros bi state H. rewrite app_nil_r in *.
    rewrite earlier_instrs_next. exact H.
  - unfold no_reads_inv. simpl. constructor.
  - unfold no_reads_inv in HI. rewrite app_nil_r in HI.
    unfold impl_instrs, nir_metadata_preserve. simpl.
    fold (impl_instrs (state_impl state')). rewrite Hall. exact HI.
Qed.


Lemma lowered_function_lowered sh_info sh_options f f' :
  table_lower_level ->
  lowered_function sh_info sh_options f f' ->
  function_lowered f'.
Proof.
  intros Htable H impl' Himpl'. unfold lowered_function in H.
  destruct (function_impl f) as [impl|] eqn:Himpl.
  - destruct H as (impl1 & p & Hrun & ->). simpl in Himpl'.
    injection Himpl' as <-. split.
    + eapply convert_impl_lowered; eauto.
    + destruct (convert_impl_frame _ _ _ _ _ Hrun) as (_ & Hv & _).
      rewrite Hv, <- Z.land_assoc, Z.land_diag. reflexivity.
  - subst f'. congruence.
Qed.

Lemma foreach_function_nothing_to_do sh_info sh_options fs : forall p0,
  Forall function_lowered fs ->
  foreach_function sh_info sh_options fs p0 = Some (fs, p0).
Proof.
  induction fs as [|f fs IH]; intros p0 Hall; simpl; auto.
  inversion Hall as [|? ? Hf Hfs]; subst.
  destruct f as [[impl|]]; simpl.
  - destruct (Hf impl eq_refl) as [Hlow Hv].
    rewrite (convert_impl_nothing_to_do sh_info sh_options impl Hlow).
    simpl. rewrite (IH p0 Hfs).
    do 3 f_equal. destruct impl as [b a v]. unfold nir_metadata_preserve.
    simpl in *. rewrite Hv. reflexivity.
  - rewrite (IH p0 Hfs). reflexivity.
Qed.

(** C10.  Let the mapping table yield no [load_var].  A second run of
    [nir_lower_system_values], on the shader the first run returns,
    returns the same shader and [false]: after the first run no
    instruction of a function is a variable read of a system value. *)
Theorem nir_lower_system_values_idempotent shader :
  table_lower_level ->
  shader_lowerable shader = true ->
  exists shader' p,
    nir_lower_system_values shader = Some (shader', p) /\
    nir_lower_system_values shader' = Some (shader', false) /\
    forall f impl instr,
      In f (functions shader') -> function_impl f = Some impl ->
      In instr (impl_instrs impl) -> sysval_load instr = None.
Proof.
  intros Htable Hall.
  destruct (nir_lower_system_values_total shader Hall) as (shader' & p & Hrun).
  exists shader', p. split; [exact Hrun|].
  unfold nir_lower_system_values in Hrun.
  destruct (foreach_function (info shader) (options shader) (functions shader) false)
    as [[fs' p']|] eqn:Hloop; try discriminate.
  injection Hrun as <- <-.
  destruct (foreach_function_spec _ _ _ _ _ _ Hloop) as [Hfs _].
  assert (Hlow : Forall function_lowered fs').
  { clear Hloop. induction Hfs; constructor; auto.
    eapply lowered_function_lowered; eauto. }
  split.
  - unfold nir_lower_system_values. simpl.
    rewrite (foreach_function_nothing_to_do _ _ _ false Hlow). reflexivity.
  - simpl. intros f impl instr Hf Himpl Hin.
    rewrite Forall_forall in Hlow. destruct (Hlow f Hf impl Himpl) as [Hl _].
    rewrite Forall_forall in Hl. apply (Hl instr Hin).
Qed.

(** ** The pass returns exactly on what it can lower *)

Lemma same_kind_refl l : Forall2 same_kind l l.
Proof. induction l; constructor; auto. split; reflexivity. Qed.

Lemma same_kind_rewrite old new l l' :
  Forall2 same_kind l l' ->
  Forall2 same_kind l (map (nir_instr_rewrite_src old new) l').
Proof.
  intros H. induction H as [|a b l l' [H1 H2] _ IH]; simpl; constructor; auto.
  split.
  - rewrite sysval_load_rewrite. exact H1.
  - rewrite load_var_without_variable_rewrite. exact H2.
Qed.

Lemma sysval_load_with_variable i location :
  sysval_load i = Some location -> load_var_without_variable i = false.
Proof.
  unfold sysval_load, load_var_without_variable.
  destruct (type i) as [| lv | |]; auto.
  destruct (intrinsic lv); auto.
  destruct (variables lv); auto. discriminate.
Qed.

Lemma sysval_instrs_lowerable i o a instr location es d :
  sysval_load instr = Some location ->
  sysval_instrs i o a location = Some (es, d) ->
  lowerable instr = true.
Proof.
  intros Hload Hes. unfold lowerable.
  rewrite (sysval_load_with_variable _ _ Hload), Hload. simpl.
  destruct location; auto.
  unfold sysval_instrs in Hes.
  destruct (nir_intrinsic_from_system_value (SYSTEM_VALUE_other n)); auto.
  discriminate.
Qed.

Lemma convert_impl_returns_lowerable sh_info sh_options impl impl' p :
  convert_impl sh_info sh_options impl = Some (impl', p) ->
  impl_lowerable impl = true.
Proof.
  intros Hrun.
  destruct (convert_impl_inv (returned_inv impl)) with (5 := Hrun)
    as (state' & HI & Hf & _).
  - intros bi state pre i suf _ (opre & osuf & R1 & R2 & R3 & R4) Hload Hbad.
    inversion R2 as [|oi ? osuf' ? [K1 K2] R2']; subst.
    exists (opre ++ [oi]), osuf'.
    split; [rewrite R1, <- app_assoc; reflexivity|].
    split; [exact R2'|]. split; [exact R3|].
    rewrite app_assoc. apply Forall_app. split; auto.
    constructor; [|constructor].
    unfold lowerable. rewrite K1, K2, Hload, Hbad. reflexivity.
  - intros bi state pre i suf location es d Hl (opre & osuf & R1 & R2 & R3 & R4)
      Hload Hes.
    inversion R2 as [|oi ? osuf' ? [K1 K2] R2']; subst.
    exists (opre ++ [oi]), osuf'.
    split; [rewrite R1, <- app_assoc; reflexivity|].
    split; [apply same_kind_rewrite; exact R2'|].
    split.
    + intros bj Hbj.
      rewrite (block_instrs_lowered_state_other _ bj _ _ _ _ _ _ Hl) by lia.
      apply same_kind_rewrite. apply R3. exact Hbj.
    + rewrite app_assoc. apply Forall_app. split; auto.
      constructor; [|constructor].
      rewrite <- K1 in Hload. eapply sysval_instrs_lowerable; eauto.
  - intros bi state (opre & osuf & R1 & R2 & R3 & R4).
    inversion R2; subst. rewrite app_nil_r in R1. symmetry in R1. subst opre.
    exists [], (block_instrs impl (S bi)).
    split; [reflexivity|]. split; [apply R3; lia|].
    split; [intros bj Hbj; apply R3; lia|].
    rewrite app_nil_r, earlier_instrs_next. exact R4.
  - exists [], (block_instrs impl 0). unfold state_impl. simpl.
    split; [reflexivity|]. split; [apply same_kind_refl|].
    split; [intros; apply same_kind_refl | constructor].
  - destruct HI as (opre & osuf & R1 & _ & _ & R4).
    rewrite block_instrs_last in R1 by lia.
    symmetry in R1. apply app_eq_nil in R1. destruct R1 as [-> _].
    rewrite app_nil_r, <- (impl_instrs_last impl (length (body impl))) in R4 by lia.
    apply forallb_Forall. exact R4.
Qed.

Lemma foreach_function_returns_lowerable sh_info sh_options fs : forall p0 fs' p,
  foreach_function sh_info sh_options fs p0 = Some (fs', p) ->
  forallb function_lowerable fs = true.
Proof.
  intros p0 fs' p Hrun.
  destruct (foreach_function_spec _ _ _ _ _ _ Hrun) as [Hall _].
  clear Hrun. induction Hall as [|f f' fs fs' Hf _ IH]; simpl; auto.
  rewrite IH, andb_true_r. unfold lowered_function in Hf. unfold function_lowerable.
  destruct (function_impl f) as [impl|]; auto.
  destruct Hf as (impl' & p1 & Hconv & _).
  eapply convert_impl_returns_lowerable; eauto.
Qed.

(** The run returns exactly on the shaders all of whose instructions the
    loop body gets through. *)
Lemma nir_lower_system_values_returns shader :
  (exists shader' p, nir_lower_system_values shader = Some (shader', p)) <->
  shader_lowerable shader = true.
Proof.
  split.
  - intros (shader' & p & Hrun). unfold nir_lower_system_values in Hrun.
    destruct (foreach_function (info shader) (options shader) (functions shader) false)
      as [[fs' p']|] eqn:Hloop; try discriminate.
    apply (foreach_function_returns_lowerable _ _ _ _ _ _ Hloop).
  - apply nir_lower_system_values_total.
Qed.

(** ** The pass and its reference *)

Lemma reference_instrs_app sh_info sh_options l1 l2 acc :
  reference_instrs sh_info sh_options (l1 ++ l2) acc =
  match reference_instrs sh_info sh_options l1 acc with
  | Some acc' => reference_instrs sh_info sh_options l2 acc'
  | None => None
  end.
Proof.
  revert acc; induction l1 as [|i l1 IH]; intros acc; simpl; auto.
  destruct (reference_instr sh_info sh_options i acc); auto.
Qed.

Lemma reference_blocks_snoc sh_info sh_options blocks blk : forall pairs a,
  reference_blocks sh_info sh_options (blocks ++ [blk]) pairs a =
  match reference_blocks sh_info sh_options blocks pairs a with
  | Some (done, pairs1, a1) =>
      match reference_instrs sh_info sh_options (instr_list blk) ([], pairs1, a1) with
      | Some (out, pairs2, a2) => Some (done ++ [set_instr_list blk out], pairs2, a2)
      | None => None
      end
  | None => None
  end.
Proof.
  induction blocks as [|b rest IH]; intros pairs a; simpl.
  - destruct (reference_instrs sh_info sh_options (instr_list blk) ([], pairs, a))
      as [[[out p2] a2]|]; reflexivity.
  - destruct (reference_instrs sh_info sh_options (instr_list b) ([], pairs, a))
      as [[[out p1] a1]|]; auto.
    rewrite IH.
    destruct (reference_blocks sh_info sh_options rest p1 a1) as [[[done p2] a2]|]; auto.
    destruct (reference_instrs sh_info sh_options (instr_list blk) ([], p2, a2))
      as [[[out' p3] a3]|]; reflexivity.
Qed.

Lemma redirect_snoc pairs old new x :
  Forall (fun p => snd p <> old) pairs ->
  redirect (pairs ++ [(old, new)]) x = rewrite_src old new (redirect pairs x).
Proof.
  unfold redirect. induction pairs as [|[o n] pairs IH]; intros H; simpl.
  - unfold rewrite_src. rewrite (Nat.eqb_sym old x).
    destruct (Nat.eqb x old); reflexivity.
  - inversion H as [|? ? Hn Hrest]; subst. simpl in Hn.
    destruct (Nat.eqb o x); simpl.
    + symmetry. apply rewrite_src_neq. exact Hn.
    + apply IH. exact Hrest.
Qed.

Lemma redirect_above pairs a x :
  Forall (fun p => fst p < a <= snd p) pairs ->
  a <= x -> redirect pairs x = x.
Proof.
  unfold redirect. intros H Hx.
  destruct (find (fun p => Nat.eqb (fst p) x) pairs) as [p|] eqn:E; auto.
  apply find_some in E. destruct E as [Hin E]. apply Nat.eqb_eq in E.
  rewrite Forall_forall in H. pose proof (H p Hin). lia.
Qed.

Lemma subst_instr_ext f g i :
  (forall x, f x = g x) -> subst_instr f i = subst_instr g i.
Proof.
  intros H. unfold subst_instr. f_equal.
  destruct (type i) as [op src | intr | v | tag src]; auto.
  - f_equal. apply map_ext. intros s. rewrite H. reflexivity.
  - do 2 f_equal. apply map_ext. exact H.
  - f_equal. apply map_ext. exact H.
Qed.

Lemma subst_block_ext f g blk :
  (forall x, f x = g x) -> subst_block f blk = subst_block g blk.
Proof.
  intros H. unfold subst_block. f_equal. apply map_ext.
  intros i. apply subst_instr_ext. exact H.
Qed.

Lemma subst_instr_fixed sigma i :
  (forall u, In u (instr_uses i) -> sigma u = u) -> subst_instr sigma i = i.
Proof.
  intros H. destruct i as [d t]. unfold subst_instr, instr_uses in *. simpl in *.
  f_equal.
  destruct t as [op src | [op vars ci src] | v | tag src]; simpl in *; auto.
  - f_equal. rewrite <- (map_id src) at 2. apply map_ext_in.
    intros [ss sw] Hs. simpl. f_equal. apply H.
    apply in_map_iff. exists {| src_ssa := ss; swizzle := sw |}; auto.
  - do 2 f_equal. rewrite <- (map_id src) at 2. apply map_ext_in. exact H.
  - f_equal. rewrite <- (map_id src) at 2. apply map_ext_in. exact H.
Qed.

Lemma load_var_without_variable_subst sigma i :
  load_var_without_variable (subst_instr sigma i) = load_var_without_variable i.
Proof.
  unfold load_var_without_variable, subst_instr. simpl. destruct (type i); reflexivity.
Qed.

Lemma rewrite_subst_block old new sigma blk :
  rewrite_block old new (subst_block sigma blk) =
  subst_block (fun x => rewrite_src old new (sigma x)) blk.
Proof.
  unfold rewrite_block, subst_block, set_instr_list. simpl.
  rewrite map_rewrite_subst. reflexivity.
Qed.

Lemma firstn_body_lowered_state bi k i es d state :
  firstn bi (body (state_impl (lowered_state bi k i es d state))) =
  map (rewrite_block (index (dest i)) (index d)) (firstn bi (body (state_impl state))).
Proof.
  unfold state_impl, lowered_state. cbn [builder].
  rewrite lower_at_body, firstn_update_block, firstn_map, firstn_update_block.
  reflexivity.
Qed.

Lemma skipn_body_lowered_state bi k i es d state :
  skipn (S bi) (body (state_impl (lowered_state bi k i es d state))) =
  map (rewrite_block (index (dest i)) (index d))
    (skipn (S bi) (body (state_impl state))).
Proof.
  unfold state_impl, lowered_state. cbn [builder].
  rewrite lower_at_body, skipn_update_block, skipn_map, skipn_update_block.
  reflexivity.
Qed.

Lemma edges_nth_error blocks1 blocks2 n b1 b2 :
  edges blocks1 = edges blocks2 ->
  nth_error blocks1 n = Some b1 ->
  nth_error blocks2 n = Some b2 ->
  successors b1 = successors b2 /\ predecessors b1 = predecessors b2.
Proof.
  intros He H1 H2. apply (f_equal (fun l => nth_error l n)) in He.
  unfold edges in He. rewrite !nth_error_map, H1, H2 in He. simpl in He.
  injection He as Hs Hp. auto.
Qed.

Lemma subst_block_id blocks : map (subst_block (fun x => x)) blocks = blocks.
Proof.
  rewrite <- (map_id blocks) at 2. apply map_ext. intros [l s p].
  unfold subst_block, set_instr_list. simpl. rewrite map_subst_instr_id. reflexivity.
Qed.
Lemma refine_inv_skip impl0 bi state pre i suf :
  block_instrs (state_impl state) bi = pre ++ i :: suf ->
  refine_inv impl0 bi state pre (i :: suf) ->
  sysval_load i = None ->
  load_var_without_variable i = false ->
  refine_inv impl0 bi state (pre ++ [i]) suf.
Proof.
  intros _ (done & pairs1 & a1 & opre & osuf & out & pairs &
            E1 & E2 & E3 & S1 & S2 & S3 & S4 & Se & Sp & Sf & Sa) Hload Hbad.
  destruct osuf as [|oi osuf]; try discriminate.
  simpl in S3. injection S3 as Hi Hsuf.
  exists done, pairs1, a1, (opre ++ [oi]), osuf, (out ++ [oi]), pairs.
  split; [exact E1|].
  split; [rewrite E2, <- app_assoc; reflexivity|].
  split.
  { rewrite reference_instrs_app, E3. simpl. unfold reference_instr.
    rewrite <- (load_var_without_variable_subst (redirect pairs)), <- Hi, Hbad.
    rewrite <- (sysval_load_subst (redirect pairs)), <- Hi, Hload. reflexivity. }
  split; [exact S1|].
  split; [rewrite map_app, S2, Hi; reflexivity|].
  repeat split; auto; apply Sf.
Qed.

Lemma lowered_state_info bi k i es d state :
  builder_info (builder (lowered_state bi k i es d state)) = builder_info (builder state).
Proof. unfold lowered_state. cbn [builder]. apply lower_at_info. Qed.

Lemma lowered_state_options bi k i es d state :
  builder_options (builder (lowered_state bi k i es d state)) =
  builder_options (builder state).
Proof. unfold lowered_state. cbn [builder]. apply lower_at_options. Qed.

Lemma lowered_state_ssa_alloc bi k i es d state :
  ssa_alloc (state_impl (lowered_state bi k i es d state)) =
  ssa_alloc (state_impl state) + length es.
Proof. unfold state_impl, lowered_state. cbn [builder]. apply lower_at_ssa_alloc. Qed.

Lemma lowered_state_edges bi k i es d state :
  edges (body (state_impl (lowered_state bi k i es d state))) =
  edges (body (state_impl state)).
Proof. unfold state_impl, lowered_state. cbn [builder]. apply lower_at_edges. Qed.

Lemma refine_inv_lower impl0 bi state pre i suf location es d :
  impl_allocated impl0 ->
  block_instrs (state_impl state) bi = pre ++ i :: suf ->
  refine_inv impl0 bi state pre (i :: suf) ->
  sysval_load i = Some location ->
  sysval_instrs (builder_info (builder state)) (builder_options (builder state))
    (ssa_alloc (state_impl state)) location = Some (es, d) ->
  refine_inv impl0 bi (lowered_state bi (length pre) i es d state)
    (map (nir_instr_rewrite_src (index (dest i)) (index d)) (pre ++ es))
    (map (nir_instr_rewrite_src (index (dest i)) (index d)) suf).
Proof.
  intros Halloc Hl (done & pairs1 & a1 & opre & osuf & out & pairs &
            E1 & E2 & E3 & S1 & S2 & S3 & S4 & Se & Sp & Sf & Sa) Hload Hes.
  destruct osuf as [|oi osuf]; try discriminate.
  simpl in S3. injection S3 as Hi Hsuf.
  assert (Hoi : sysval_load oi = Some location)
    by (rewrite <- (sysval_load_subst (redirect pairs)), <- Hi; exact Hload).
  assert (Hdest : dest i = dest oi) by (rewrite Hi; reflexivity).
  assert (Hold : index (dest i) < ssa_alloc impl0).
  { unfold impl_allocated in Halloc. rewrite Forall_forall in Halloc.
    rewrite Hdest. apply Halloc. apply (in_block_instrs impl0 bi).
    rewrite E2. apply in_or_app. right. left. reflexivity. }
  destruct (sysval_instrs_fresh _ _ _ _ _ _ Hes) as (Hfresh & Hnew & _).
  set (old := index (dest i)) in *. set (new := index d) in *.
  set (pairs' := pairs ++ [(old, new)]).
  assert (Hf' : Forall (fun p => fst p < ssa_alloc impl0 <= snd p) pairs').
  { apply Forall_app. split; auto. constructor; [|constructor]. simpl.
    unfold new. lia. }
  assert (Hsigma : forall x,
             rewrite_src old new (redirect pairs x) = redirect pairs' x).
  { intros x. symmetry. apply redirect_snoc.
    eapply Forall_impl; [|exact Sf]. simpl. intros p Hp. lia. }
  assert (Hes' : map (subst_instr (redirect pairs')) es = es).
  { rewrite <- (map_id es) at 2. apply map_ext_in. intros e He.
    apply subst_instr_fixed. intros u Hu.
    apply (redirect_above pairs' (ssa_alloc impl0)); auto.
    rewrite Forall_forall in Hfresh. destruct (Hfresh e He) as [_ Hu'].
    rewrite Forall_forall in Hu'. pose proof (Hu' u Hu). lia. }
  assert (Hblocks : forall blocks,
             map (rewrite_block old new) (map (subst_block (redirect pairs)) blocks) =
             map (subst_block (redirect pairs')) blocks).
  { intros blocks. rewrite map_map. apply map_ext. intros blk.
    rewrite rewrite_subst_block. apply subst_block_ext. exact Hsigma. }
  assert (Hinstrs : forall l,
             map (nir_instr_rewrite_src old new) (map (subst_instr (redirect pairs)) l) =
             map (subst_instr (redirect pairs')) l).
  { intros l. rewrite map_rewrite_subst. apply map_ext. intros j.
    apply subst_instr_ext. exact Hsigma. }
  exists done, pairs1, a1, (opre ++ [oi]), osuf, (out ++ es), pairs'.
  rewrite lowered_state_info, lowered_state_options, lowered_state_ssa_alloc,
    lowered_state_edges.
  split; [exact E1|].
  split; [rewrite E2, <- app_assoc; reflexivity|].
  split.
  { rewrite reference_instrs_app, E3. simpl. unfold reference_instr.
    rewrite (sysval_load_with_variable _ _ Hoi), Hoi, Hes, <- Hdest.
    reflexivity. }
  split.
  { rewrite firstn_body_lowered_state. fold old new. rewrite S1. apply Hblocks. }
  split.
  { rewrite !map_app, S2, Hinstrs, Hes'.
    rewrite (map_rewrite_fresh old new (ssa_alloc (state_impl state)) (length es));
      auto. lia. }
  split; [rewrite Hsuf; apply Hinstrs|].
  split.
  { rewrite skipn_body_lowered_state. fold old new. rewrite S4. apply Hblocks. }
  split; [exact Se|].
  split; [unfold pairs'; destruct pairs; reflexivity|].
  split; [exact Hf' | lia].
Qed.

Lemma refine_inv_next impl0 bi state :
  refine_inv impl0 bi state (block_instrs (state_impl state) bi) [] ->
  refine_inv impl0 (S bi) state [] (block_instrs (state_impl state) (S bi)).
Proof.
  intros (done & pairs1 & a1 & opre & osuf & out & pairs &
          E1 & E2 & E3 & S1 & S2 & S3 & S4 & Se & Sp & Sf & Sa).
  destruct osuf; try discriminate. rewrite app_nil_r in E2.
  assert (Hnext : block_instrs (state_impl state) (S bi) =
                  map (subst_instr (redirect pairs)) (block_instrs impl0 (S bi))).
  { unfold block_instrs, instrs_at.
    pose proof (skipn_nth_error (body (state_impl state)) (S bi)) as H1.
    pose proof (skipn_nth_error (body impl0) (S bi)) as H2.
    rewrite S4, H2 in H1.
    destruct (nth_error (body impl0) (S bi)) as [b0|];
      destruct (nth_error (body (state_impl state)) (S bi)) as [b1|];
      simpl in H1; try discriminate; auto.
    injection H1 as <- _. reflexivity. }
  assert (Hrest : skipn (S (S bi)) (body (state_impl state)) =
                  map (subst_block (redirect pairs)) (skipn (S (S bi)) (body impl0))).
  { rewrite <- (Nat.add_1_l (S bi)), <- !skipn_skipn, S4.
    rewrite skipn_map. reflexivity. }
  destruct (nth_error (body impl0) bi) as [blk0|] eqn:Hb0.
  - assert (Hlen : bi < length (body (state_impl state))).
    { rewrite <- edges_length, Se, edges_length.
      apply nth_error_Some. congruence. }
    destruct (nth_error (body (state_impl state)) bi) as [blk|] eqn:Hb;
      [|apply nth_error_None in Hb; lia].
    destruct (edges_nth_error _ _ _ _ _ Se Hb Hb0) as [Hs Hp].
    exists (done ++ [set_instr_list blk0 out]), pairs, (ssa_alloc (state_impl state)),
      [], (block_instrs impl0 (S bi)), [], pairs.
    split.
    { rewrite firstn_nth_error, Hb0, reference_blocks_snoc, E1.
      unfold block_instrs, instrs_at in E2. rewrite Hb0 in E2.
      rewrite E2, E3. reflexivity. }
    split; [reflexivity|]. split; [reflexivity|].
    split.
    { rewrite firstn_nth_error, Hb, S1, map_app. f_equal. simpl. f_equal.
      unfold block_instrs, instrs_at in S2. rewrite Hb in S2.
      destruct blk as [l s p]. unfold subst_block, set_instr_list. simpl in *.
      rewrite S2, Hs, Hp. reflexivity. }
    repeat split; auto; apply Sf.
  - assert (Hb : nth_error (body (state_impl state)) bi = None).
    { apply nth_error_None. rewrite <- edges_length, Se, edges_length.
      apply nth_error_None. exact Hb0. }
    unfold block_instrs, instrs_at in E2. rewrite Hb0 in E2. subst opre.
    simpl in E3. injection E3 as Hout Hpairs Ha. subst out pairs.
    exists done, pairs1, a1, [], (block_instrs impl0 (S bi)), [], pairs1.
    split; [rewrite firstn_nth_error, Hb0, app_nil_r; exact E1|].
    split; [reflexivity|]. split; [simpl; rewrite Ha; reflexivity|].
    split; [rewrite firstn_nth_error, Hb, app_nil_r; exact S1|].
    repeat split; auto; apply Sf.
Qed.

Lemma reference_instrs_lowerable sh_info sh_options l : forall acc acc',
  reference_instrs sh_info sh_options l acc = Some acc' ->
  Forall (fun i => lowerable i = true) l.
Proof.
  induction l as [|i l IH]; intros acc acc' H; [constructor|].
  simpl in H.
  destruct (reference_instr sh_info sh_options i acc) as [acc1|] eqn:E;
    try discriminate.
  constructor; [|eapply IH; eauto].
  destruct acc as [[out pairs] a]. unfold reference_instr in E. unfold lowerable.
  destruct (load_var_without_variable i); try discriminate. simpl.
  destruct (sysval_load i) as [location|]; auto.
  destruct location; auto.
  unfold sysval_instrs in E.
  destruct (nir_intrinsic_from_system_value (SYSTEM_VALUE_other n)); auto.
  discriminate.
Qed.

Lemma reference_blocks_lowerable sh_info sh_options blocks : forall pairs a r,
  reference_blocks sh_info sh_options blocks pairs a = Some r ->
  Forall (fun i => lowerable i = true) (flat_map instr_list blocks).
Proof.
  induction blocks as [|blk rest IH]; intros pairs a r H; [constructor|].
  simpl in *.
  destruct (reference_instrs sh_info sh_options (instr_list blk) ([], pairs, a))
    as [[[out p1] a1]|] eqn:E; try discriminate.
  destruct (reference_blocks sh_info sh_options rest p1 a1) as [r1|] eqn:E1;
    try discriminate.
  apply Forall_app. split.
  - eapply reference_instrs_lowerable; eauto.
  - eapply IH; eauto.
Qed.

Lemma convert_impl_reference sh_info sh_options impl impl' p :
  impl_allocated impl ->
  convert_impl sh_info sh_options impl = Some (impl', p) ->
  reference_convert_impl sh_info sh_options impl = Some (impl', p).
Proof.
  intros Halloc Hrun.
  destruct (convert_impl_inv (refine_inv impl)) with (5 := Hrun)
    as (state' & HI & Hf & _ & -> & ->).
  - apply refine_inv_skip.
  - intros. eapply refine_inv_lower; eauto.
  - apply refine_inv_next.
  - exists [], [], (ssa_alloc impl), [], (block_instrs impl 0), [], [].
    unfold state_impl. simpl.
    assert (Hid : forall x, redirect [] x = x) by reflexivity.
    split; [reflexivity|]. split; [reflexivity|]. split; [reflexivity|].
    split; [reflexivity|]. split; [reflexivity|].
    split.
    { rewrite <- (map_subst_instr_id (block_instrs impl 0)) at 1.
      apply map_ext. intros i. apply subst_instr_ext. auto. }
    split.
    { rewrite <- (subst_block_id (skipn 1 (body impl))) at 1.
      apply map_ext. intros b. apply subst_block_ext. auto. }
    repeat split; auto.
  - destruct HI as (done & pairs1 & a1 & opre & osuf & out & pairs &
                    E1 & E2 & E3 & S1 & S2 & S3 & S4 & Se & Sp & Sf & Sa).
    pose proof (frame_length _ _ _ _ Hf) as Hlen.
    destruct Hf as (_ & Hv & Hinfo & Hopts & _).
    rewrite Hinfo, Hopts in *.
    rewrite block_instrs_last in E2 by lia.
    symmetry in E2. apply app_eq_nil in E2. destruct E2 as [-> ->].
    simpl in E3. injection E3 as Hout Hpairs Ha. subst out pairs.
    rewrite firstn_all in E1. rewrite <- Hlen, firstn_all in S1.
    unfold reference_convert_impl. rewrite E1.
    unfold nir_metadata_preserve. rewrite S1, Hv, Sp, Ha. reflexivity.
Qed.
(** X1.  On a function whose values were all handed out by its counter,
    [convert_impl] computes what its reference computes: the function in
    which every variable read of a system value is replaced, in place, by
    the instructions of [sysval_instrs] (in the order [args_order] where
    two of them belong to the arguments of one call), and every use of
    the value of a read names the value that replaces it; the counter is
    behind the new values; the metadata keeps the block indices and the
    dominance; and the flag says whether a read was replaced.  The two
    also end in an error on the same functions.  This holds for every
    order of evaluation the compiler may choose. *)
Theorem convert_impl_refines_reference sh_info sh_options impl :
  impl_allocated impl ->
  convert_impl sh_info sh_options impl = reference_convert_impl sh_info sh_options impl.
Proof.
  intros Halloc.
  destruct (convert_impl sh_info sh_options impl) as [[impl' p]|] eqn:Hrun.
  - symmetry. apply convert_impl_reference; auto.
  - destruct (reference_convert_impl sh_info sh_options impl) as [r|] eqn:Href; auto.
    exfalso. unfold reference_convert_impl in Href.
    destruct (reference_blocks sh_info sh_options (body impl) [] (ssa_alloc impl))
      as [r1|] eqn:E; try discriminate.
    pose proof (reference_blocks_lowerable _ _ _ _ _ _ E) as Hall.
    destruct (convert_impl_total sh_info sh_options impl) as (impl' & p & Hrun').
    + apply forallb_Forall. exact Hall.
    + congruence.
Qed.

(** ** The instructions that are kept *)

Lemma filter_none (f : nir_instr -> bool) l :
  Forall (fun e => f e = false) l -> filter f l = [].
Proof.
  induction 1 as [|e l He _ IH]; simpl; auto. rewrite He. exact IH.
Qed.

Lemma reference_instr_kept a0 sh_info sh_options i out pairs a out' pairs' a' :
  index (dest i) < a0 -> a0 <= a ->
  reference_instr sh_info sh_options i (out, pairs, a) = Some (out', pairs', a') ->
  filter (defined_below a0) out' =
    filter (defined_below a0) out ++ filter not_sysval_load [i] /\
  a <= a'.
Proof.
  intros Hi Ha H. unfold reference_instr in H.
  destruct (load_var_without_variable i); try discriminate.
  unfold not_sysval_load, is_sysval_load. simpl.
  destruct (sysval_load i) as [location|].
  - destruct (sysval_instrs sh_info sh_options a location) as [[es d]|] eqn:Hes;
      try discriminate.
    injection H as <- <- <-. split; [|lia].
    rewrite filter_app, app_nil_r. simpl.
    rewrite (filter_none (defined_below a0) es), app_nil_r; auto.
    destruct (sysval_instrs_fresh _ _ _ _ _ _ Hes) as (Hfresh & _).
    eapply Forall_impl; [|exact Hfresh]. intros e [He _].
    unfold defined_below. apply Nat.ltb_ge. lia.
  - injection H as <- <- <-. split; [|lia].
    rewrite filter_app. simpl. unfold defined_below at 2.
    apply Nat.ltb_lt in Hi. rewrite Hi. reflexivity.
Qed.

Lemma reference_instrs_kept a0 sh_info sh_options l : forall out pairs a out' pairs' a',
  Forall (fun i => index (dest i) < a0) l -> a0 <= a ->
  reference_instrs sh_info sh_options l (out, pairs, a) = Some (out', pairs', a') ->
  filter (defined_below a0) out' =
    filter (defined_below a0) out ++ filter not_sysval_load l /\
  a <= a'.
Proof.
  induction l as [|i l IH]; intros out pairs a out' pairs' a' Hall Ha H.
  - simpl in H. injection H as <- <- <-. rewrite app_nil_r. auto.
  - inversion Hall as [|? ? Hi Hl]; subst. cbn [reference_instrs] in H.
    destruct (reference_instr sh_info sh_options i (out, pairs, a))
      as [[[out1 pairs1] a1]|] eqn:E; try discriminate.
    destruct (reference_instr_kept _ _ _ _ _ _ _ _ _ _ Hi Ha E) as [H1 Ha1].
    destruct (IH _ _ _ _ _ _ Hl (Nat.le_trans _ _ _ Ha Ha1) H) as [H2 Ha2].
    split; [|lia].
    rewrite H2, H1, <- app_assoc. f_equal.
    change (i :: l) with ([i] ++ l). rewrite filter_app. reflexivity.
Qed.

Lemma reference_blocks_kept a0 sh_info sh_options blocks :
  forall pairs a done pairs' a',
  Forall (fun i => index (dest i) < a0) (flat_map instr_list blocks) -> a0 <= a ->
  reference_blocks sh_info sh_options blocks pairs a = Some (done, pairs', a') ->
  forall bj,
    filter (defined_below a0) (instrs_at done bj) =
    filter not_sysval_load (instrs_at blocks bj).
Proof.
  induction blocks as [|blk rest IH]; intros pairs a done pairs' a' Hall Ha H bj.
  - simpl in H. injection H as <- <- <-. destruct bj; reflexivity.
  - simpl in Hall. apply Forall_app in Hall. destruct Hall as [Hblk Hrest].
    simpl in H.
    destruct (reference_instrs sh_info sh_options (instr_list blk) ([], pairs, a))
      as [[[out p1] a1]|] eqn:E; try discriminate.
    destruct (reference_blocks sh_info sh_options rest p1 a1)
      as [[[rest' p2] a2]|] eqn:E1; try discriminate.
    injection H as <- <- <-.
    destruct (reference_instrs_kept _ _ _ _ _ _ _ _ _ _ Hblk Ha E) as [H1 Ha1].
    destruct bj as [|bj].
    + unfold instrs_at. simpl. exact H1.
    + unfold instrs_at. simpl.
      apply (IH _ _ _ _ _ Hrest (Nat.le_trans _ _ _ Ha Ha1) E1 bj).
Qed.

Lemma instrs_at_subst_block sigma blocks bj :
  instrs_at (map (subst_block sigma) blocks) bj =
  map (subst_instr sigma) (instrs_at blocks bj).
Proof.
  unfold instrs_at. rewrite nth_error_map.
  destruct (nth_error blocks bj); reflexivity.
Qed.

Lemma convert_impl_kept sh_info sh_options impl impl' p :
  impl_allocated impl ->
  convert_impl sh_info sh_options impl = Some (impl', p) ->
  exists sigma,
    forall bj,
      filter (defined_below (ssa_alloc impl)) (block_instrs impl' bj) =
      map (subst_instr sigma) (filter not_sysval_load (block_instrs impl bj)).
Proof.
  intros Halloc Hrun.
  pose proof (convert_impl_reference _ _ _ _ _ Halloc Hrun) as Href.
  unfold reference_convert_impl in Href.
  destruct (reference_blocks sh_info sh_options (body impl) [] (ssa_alloc impl))
    as [[[blocks pairs] a]|] eqn:E; try discriminate.
  injection Href as <- _.
  exists (redirect pairs). intros bj. unfold block_instrs. cbn [body].
  rewrite instrs_at_subst_block, filter_map_swap.
  change (fun a1 => defined_below (ssa_alloc impl) (subst_instr (redirect pairs) a1))
    with (defined_below (ssa_alloc impl)).
  f_equal.
  apply (reference_blocks_kept (ssa_alloc impl) _ _ _ _ _ _ _ _ Halloc (le_n _) E).
Qed.

(** X2.  On a function whose values were all handed out by its counter,
    and whose instructions the pass gets through: when [convert_impl] is
    through, the instructions of a block that define a value of the
    original function are the instructions of the original block that are
    not variable reads of a system value, in their original order, with
    their uses redirected by a map [sigma] on values.  All else in the
    block defines values the pass made. *)
Theorem convert_impl_keeps_order sh_info sh_options impl :
  impl_allocated impl ->
  impl_lowerable impl = true ->
  exists impl' p sigma,
    convert_impl sh_info sh_options impl = Some (impl', p) /\
    forall bj,
      filter (defined_below (ssa_alloc impl)) (block_instrs impl' bj) =
      map (subst_instr sigma) (filter not_sysval_load (block_instrs impl bj)).
Proof.
  intros Halloc Hlow.
  destruct (convert_impl_total sh_info sh_options impl Hlow) as (impl' & p & Hrun).
  destruct (convert_impl_kept _ _ _ _ _ Halloc Hrun) as (sigma & H).
  exists impl', p, sigma. split; [exact Hrun | exact H].
Qed.

(** ** Single assignment *)

Lemma sysval_instrs_indices i o a location es d :
  sysval_instrs i o a location = Some (es, d) ->
  map (fun e => index (dest e)) es = seq a (length es).
Proof.
  unfold sysval_instrs, alu2_instr, channel_instr, imm_instr, load_instr,
    arg_places, in_order.
  intros H.
  destruct location;
    try (destruct (args_order _));
    try (destruct (vertex_id_zero_based o));
    try (destruct (nir_intrinsic_from_system_value (SYSTEM_VALUE_other n)));
    try discriminate;
    injection H as <- <-; simpl; repeat (f_equal; try lia).
Qed.

Lemma map_index_rewrite old new l :
  map (fun i => index (dest i)) (map (nir_instr_rewrite_src old new) l) =
  map (fun i => index (dest i)) l.
Proof. rewrite map_map. apply map_ext. reflexivity. Qed.

Lemma NoDup_replace_middle (A : list nat) x B es :
  NoDup (A ++ x :: B) ->
  NoDup es ->
  (forall y, In y es -> ~ In y (A ++ B)) ->
  NoDup (A ++ es ++ B).
Proof.
  intros H Hes Hdis. apply NoDup_remove_1 in H.
  eapply Permutation_NoDup; [apply Permutation_app_swap_app|].
  apply NoDup_app; auto.
Qed.

Lemma ssa_inv_lower bi state pre i suf location es d :
  block_instrs (state_impl state) bi = pre ++ i :: suf ->
  ssa_inv bi state pre (i :: suf) ->
  sysval_load i = Some location ->
  sysval_instrs (builder_info (builder state)) (builder_options (builder state))
    (ssa_alloc (state_impl state)) location = Some (es, d) ->
  ssa_inv bi (lowered_state bi (length pre) i es d state)
    (map (nir_instr_rewrite_src (index (dest i)) (index d)) (pre ++ es))
    (map (nir_instr_rewrite_src (index (dest i)) (index d)) suf).
Proof.
  intros Hl [Halloc Hnd] _ Hes.
  unfold ssa_inv, impl_allocated, impl_defs in *.
  rewrite (impl_instrs_lowered_state _ _ _ _ _ _ _ Hl), lowered_state_ssa_alloc.
  rewrite (impl_instrs_split (state_impl state) bi), Hl in Halloc, Hnd.
  set (E := earlier_instrs (state_impl state) bi) in *.
  set (L := later_instrs (state_impl state) bi) in *.
  set (a := ssa_alloc (state_impl state)) in *.
  destruct (sysval_instrs_fresh _ _ _ _ _ _ Hes) as (Hfresh & _).
  pose proof (sysval_instrs_indices _ _ _ _ _ _ Hes) as Hidx.
  repeat rewrite Forall_app in Halloc.
  destruct Halloc as (HE & (Hpre & Hisuf) & HL).
  inversion Hisuf as [|? ? Hi Hsuf]; subst.
  assert (Hweak : forall l, Forall (fun j => index (dest j) < a) l ->
                            Forall (fun j => index (dest j) < a + length es) l).
  { intros l H. eapply Forall_impl; [|exact H]. simpl. intros; lia. }
  split.
  - rewrite Forall_map. eapply Forall_impl.
    { intros j Hj. rewrite dest_rewrite. exact Hj. }
    repeat rewrite Forall_app. repeat split; auto.
    eapply Forall_impl; [|exact Hfresh]. intros e [He _]. lia.
  - rewrite map_index_rewrite.
    set (idx := fun j : nir_instr => index (dest j)) in *.
    replace (map idx (E ++ (pre ++ es) ++ suf ++ L))
      with (map idx (E ++ pre) ++ map idx es ++ map idx (suf ++ L))
      by (rewrite !map_app, <- !app_assoc; reflexivity).
    apply (NoDup_replace_middle _ (idx i)).
    + replace (map idx (E ++ pre) ++ idx i :: map idx (suf ++ L))
        with (map idx (E ++ (pre ++ i :: suf) ++ L)); [exact Hnd|].
      rewrite !map_app. simpl. rewrite <- !app_assoc. reflexivity.
    + rewrite Hidx. apply seq_NoDup.
    + intros x Hx Hin. rewrite Hidx in Hx. apply in_seq in Hx.
      assert (Hlt : x < a); [|lia].
      rewrite <- map_app in Hin. apply in_map_iff in Hin.
      destruct Hin as (j & <- & Hj).
      assert (Hall : Forall (fun j => index (dest j) < a) ((E ++ pre) ++ suf ++ L)).
      { repeat rewrite Forall_app. auto. }
      rewrite Forall_forall in Hall. apply Hall. exact Hj.
Qed.

(** X3.  The pass keeps single assignment: if the instructions of the
    function define pairwise different values, all handed out by its
    counter, then so do the instructions of the function [convert_impl]
    returns. *)
Theorem convert_impl_single_assignment sh_info sh_options impl :
  impl_allocated impl ->
  NoDup (impl_defs impl) ->
  impl_lowerable impl = true ->
  exists impl' p,
    convert_impl sh_info sh_options impl = Some (impl', p) /\
    impl_allocated impl' /\ NoDup (impl_defs impl').
Proof.
  intros Halloc Hnd Hlow.
  destruct (convert_impl_total sh_info sh_options impl Hlow) as (impl' & p & Hrun).
  exists impl', p. split; [exact Hrun|].
  destruct (convert_impl_inv ssa_inv) with (5 := Hrun)
    as (state' & HI & _ & _ & -> & _).
  - intros bi state pre i suf _ H _ _. exact H.
  - apply ssa_inv_lower.
  - intros bi state H. exact H.
  - split; assumption.
  - exact HI.
Qed.

(** ** The size of the result *)

Lemma sysval_instrs_length i o a location es d :
  sysval_instrs i o a location = Some (es, d) ->
  1 <= length es <= 11.
Proof.
  unfold sysval_instrs. intros H.
  destruct location;
    try (destruct (args_order _));
    try (destruct (vertex_id_zero_based o));
    try (destruct (nir_intrinsic_from_system_value (SYSTEM_VALUE_other n)));
    try discriminate;
    injection H as <- <-; simpl; lia.
Qed.

Lemma count_reads_rewrite old new l :
  count_reads (map (nir_instr_rewrite_src old new) l) = count_reads l.
Proof.
  unfold count_reads. rewrite filter_map_swap, length_map.
  f_equal. apply filter_ext. intros i. apply is_sysval_load_rewrite.
Qed.

Lemma count_reads_app l1 l2 :
  count_reads (l1 ++ l2) = count_reads l1 + count_reads l2.
Proof. unfold count_reads. rewrite filter_app, length_app. reflexivity. Qed.

Lemma count_reads_cons_read i l :
  is_sysval_load i = true -> count_reads (i :: l) = S (count_reads l).
Proof. intros H. unfold count_reads. simpl. rewrite H. reflexivity. Qed.

Lemma count_reads_cons_other i l :
  is_sysval_load i = false -> count_reads (i :: l) = count_reads l.
Proof. intros H. unfold count_reads. simpl. rewrite H. reflexivity. Qed.

(** X4.  The size of what [convert_impl] returns: the function has as
    many instructions more as values were handed out, less the variable
    reads of a system value it held; and between one and eleven values
    were handed out for each of these reads. *)
Theorem convert_impl_size sh_info sh_options impl :
  impl_lowerable impl = true ->
  exists impl' p,
    convert_impl sh_info sh_options impl = Some (impl', p) /\
    length (impl_instrs impl') + count_reads (impl_instrs impl) + ssa_alloc impl =
      length (impl_instrs impl) + ssa_alloc impl' /\
    ssa_alloc impl + count_reads (impl_instrs impl) <= ssa_alloc impl' /\
    ssa_alloc impl' <= ssa_alloc impl + 11 * count_reads (impl_instrs impl).
Proof.
  intros Hlow.
  destruct (convert_impl_total sh_info sh_options impl Hlow) as (impl' & p & Hrun).
  exists impl', p. split; [exact Hrun|].
  destruct (convert_impl_inv (size_inv impl)) with (5 := Hrun)
    as (state' & HI & Hf & _ & -> & _).
  - unfold size_inv. cbv zeta. intros bi state pre i suf _ H Hload _.
    rewrite <- app_comm_cons, count_reads_cons_other in H; [exact H|].
    unfold is_sysval_load. rewrite Hload. reflexivity.
  - unfold size_inv. cbv zeta. intros bi state pre i suf location es d Hl H Hload Hes.
    rewrite (impl_instrs_lowered_state _ _ _ _ _ _ _ Hl), lowered_state_ssa_alloc.
    rewrite later_instrs_lowered_state, <- map_app, count_reads_rewrite, length_map.
    rewrite <- app_comm_cons, count_reads_cons_read in H
      by (unfold is_sysval_load; rewrite Hload; reflexivity).
    rewrite (impl_instrs_split (state_impl state) bi), Hl in H.
    pose proof (sysval_instrs_length _ _ _ _ _ _ Hes) as Hn.
    rewrite !length_app in *. simpl in H. lia.
  - unfold size_inv. cbv zeta. intros bi state H. simpl in *.
    rewrite <- later_instrs_next. exact H.
  - unfold size_inv, state_impl. simpl. rewrite <- impl_instrs_first. lia.
  - unfold size_inv in HI. cbv zeta in HI. simpl in HI.
    rewrite later_instrs_last in HI by (rewrite (frame_length _ _ _ _ Hf); lia).
    change (count_reads []) with 0 in HI.
    change (impl_instrs (nir_metadata_preserve (state_impl state') _))
      with (impl_instrs (state_impl state')).
    change (ssa_alloc (nir_metadata_preserve (state_impl state') _))
      with (ssa_alloc (state_impl state')).
    lia.
Qed.
(** ** The flag and the change *)

Lemma convert_impl_changes sh_info sh_options impl impl' p :
  convert_impl sh_info sh_options impl = Some (impl', p) ->
  p = false <-> body impl' = body impl.
Proof.
  intros Hrun. split.
  - intros ->.
    pose proof (convert_impl_progress _ _ _ _ _ Hrun) as Hp.
    pose proof (convert_impl_returns_lowerable _ _ _ _ _ Hrun) as Hlow.
    assert (Hall : Forall lowered (impl_instrs impl)).
    { apply Forall_forall. intros i Hi. split.
      - symmetry in Hp. unfold impl_has_sysval_load in Hp.
        destruct (sysval_load i) eqn:E; auto.
        assert (Hex : existsb is_sysval_load (impl_instrs impl) = true).
        { apply existsb_exists. exists i. split; auto.
          unfold is_sysval_load. rewrite E. reflexivity. }
        congruence.
      - apply lowerable_without_variable.
        apply forallb_Forall in Hlow. rewrite Forall_forall in Hlow. auto. }
    rewrite (convert_impl_nothing_to_do sh_info sh_options impl Hall) in Hrun.
    injection Hrun as <-. reflexivity.
  - intros Hbody.
    rewrite (convert_impl_progress _ _ _ _ _ Hrun).
    pose proof (convert_impl_no_reads _ _ _ _ _ Hrun) as Hnone.
    unfold impl_has_sysval_load, impl_instrs in *. rewrite Hbody in Hnone.
    destruct (existsb is_sysval_load (flat_map instr_list (body impl))) eqn:E; auto.
    apply existsb_exists in E. destruct E as (i & Hi & Hl).
    rewrite Forall_forall in Hnone. unfold is_sysval_load in Hl.
    rewrite (Hnone i Hi) in Hl. discriminate.
Qed.

Lemma foreach_function_changes sh_info sh_options fs fs' :
  Forall2 (lowered_function sh_info sh_options) fs fs' ->
  existsb function_has_sysval_load fs = false <->
  map (fun f => option_map body (function_impl f)) fs' =
  map (fun f => option_map body (function_impl f)) fs.
Proof.
  induction 1 as [|f f' fs fs' Hf _ IH]; simpl.
  - split; reflexivity.
  - unfold lowered_function in Hf. unfold function_has_sysval_load at 1.
    destruct (function_impl f) as [impl|] eqn:Himpl.
    + destruct Hf as (impl' & p & Hrun & ->). simpl.
      pose proof (convert_impl_changes _ _ _ _ _ Hrun) as Hc.
      rewrite <- (convert_impl_progress _ _ _ _ _ Hrun).
      rewrite orb_false_iff. split.
      * intros [Hp Hrest]. f_equal; [f_equal; apply Hc; exact Hp | apply IH; exact Hrest].
      * intros Heq. injection Heq as Hb Hrest. split; [apply Hc; exact Hb | apply IH; exact Hrest].
    + subst f'. rewrite Himpl. simpl. split.
      * intros Hrest. f_equal. apply IH. exact Hrest.
      * intros Heq. injection Heq as Hrest. apply IH. exact Hrest.
Qed.

(** X5.  The flag [nir_lower_system_values] returns is exact: it is
    [false] when the blocks of every function are as they were before the
    run, and only then. *)
Theorem nir_lower_system_values_progress_exact shader :
  shader_lowerable shader = true ->
  exists shader' p,
    nir_lower_system_values shader = Some (shader', p) /\
    (p = false <-> shader_bodies shader' = shader_bodies shader).
Proof.
  intros Hlow.
  destruct (nir_lower_system_values_total shader Hlow) as (shader' & p & Hrun).
  exists shader', p. split; [exact Hrun|].
  unfold nir_lower_system_values in Hrun.
  destruct (foreach_function (info shader) (options shader) (functions shader) false)
    as [[fs' p']|] eqn:Hloop; try discriminate.
  injection Hrun as <- <-.
  destruct (foreach_function_spec _ _ _ _ _ _ Hloop) as [Hall ->].
  rewrite orb_false_r. unfold shader_bodies. simpl.
  apply foreach_function_changes with (1 := Hall).
Qed.

(** ** The inserted instructions stand on their own *)

Lemma sysval_instrs_uses_defined i o a location es d :
  sysval_instrs i o a location = Some (es, d) ->
  uses_defined [] es = true.
Proof.
  unfold sysval_instrs, alu2_instr, channel_instr, imm_instr, load_instr,
    arg_places, in_order.
  intros H.
  destruct location;
    try (destruct (args_order _));
    try (destruct (vertex_id_zero_based o));
    try (destruct (nir_intrinsic_from_system_value (SYSTEM_VALUE_other n)));
    try discriminate;
    injection H as <- <-; unfold instr_uses; cbn; eqb_solve; reflexivity.
Qed.

Lemma sysval_instrs_evaluable i o a location es d :
  (forall op, nir_intrinsic_from_system_value location = Some op ->
              op <> nir_intrinsic_load_var) ->
  sysval_instrs i o a location = Some (es, d) ->
  forallb evaluable es = true.
Proof.
  unfold sysval_instrs, alu2_instr, channel_instr, imm_instr, load_instr,
    arg_places, in_order.
  intros Htable H.
  destruct location;
    try (destruct (args_order _));
    try (destruct (vertex_id_zero_based o));
    try (destruct (nir_intrinsic_from_system_value (SYSTEM_VALUE_other n))
           as [op|] eqn:Hop);
    try discriminate;
    injection H as <- <-; try reflexivity.
  all: unfold evaluable; simpl; destruct op; try reflexivity;
    exfalso; apply (Htable _ eq_refl); reflexivity.
Qed.

(** X6.  The instructions [convert_block] inserts for a read form a
    straight line that stands on its own: they define the next values of
    the counter, one each and in this order; each uses only values that
    inserted instructions before it define; and the value that replaces
    the read is the one the last of them defines. *)
Theorem sysval_instrs_straight_line i o a location es d :
  sysval_instrs i o a location = Some (es, d) ->
  map (fun e => index (dest e)) es = seq a (length es) /\
  uses_defined [] es = true /\
  exists l e, es = l ++ [e] /\ dest e = d.
Proof.
  intros H. split; [eapply sysval_instrs_indices; eauto|].
  split; [eapply sysval_instrs_uses_defined; eauto|].
  revert H. unfold sysval_instrs.
  destruct location;
    try (destruct (args_order _));
    try (destruct (vertex_id_zero_based o));
    try (destruct (nir_intrinsic_from_system_value (SYSTEM_VALUE_other n)));
    try discriminate;
    intros H; injection H as <- <-;
    first [ solve [eexists [], _; split; reflexivity]
          | solve [eexists [_; _], _; split; reflexivity]
          | solve [eexists [_; _; _; _], _; split; reflexivity]
          | solve [eexists [_; _; _; _; _; _; _; _; _; _], _; split; reflexivity] ].
Qed.

Lemma eval_instr_agree env r1 r2 i :
  evaluable i = true ->
  (forall u, In u (instr_uses i) -> exists v, r1 u = Some v /\ r2 u = Some v) ->
  exists v, eval_instr env r1 i = Some v /\ eval_instr env r2 i = Some v.
Proof.
  destruct i as [d t]. unfold evaluable, eval_instr, instr_uses, read_alu_src.
  simpl. intros He Hu.
  destruct t as [op src | [op vars ci src] | v | tag src]; try discriminate.
  - destruct op; try discriminate;
      destruct src as [|s0 [|s1 [|s2 src]]]; try discriminate; simpl in Hu.
    + destruct (Hu (src_ssa s0)) as (v0 & -> & ->); auto.
      destruct (Hu (src_ssa s1)) as (v1 & -> & ->); auto.
      eexists; split; reflexivity.
    + destruct (Hu (src_ssa s0)) as (v0 & -> & ->); auto.
      destruct (Hu (src_ssa s1)) as (v1 & -> & ->); auto.
      eexists; split; reflexivity.
    + destruct (Hu (src_ssa s0)) as (v0 & -> & ->); auto.
      eexists; split; reflexivity.
  - simpl in *. destruct op; try discriminate;
      destruct vars; try discriminate; destruct src; try discriminate;
      eexists; split; reflexivity.
  - eexists; split; reflexivity.
Qed.

Lemma exec_instrs_agree env l : forall defs r1 r2,
  uses_defined defs l = true ->
  forallb evaluable l = true ->
  (forall u, In u defs -> exists v, r1 u = Some v /\ r2 u = Some v) ->
  exists r1' r2',
    exec_instrs env r1 l = Some r1' /\
    exec_instrs env r2 l = Some r2' /\
    forall u, In u (map (fun i => index (dest i)) l) \/ In u defs ->
      exists v, r1' u = Some v /\ r2' u = Some v.
Proof.
  induction l as [|i l IH]; intros defs r1 r2 Hu He Hr.
  - exists r1, r2. simpl. repeat split; auto. intros u [[] | H]. auto.
  - simpl in Hu, He.
    apply andb_prop in Hu. destruct Hu as [Hui Hul].
    apply andb_prop in He. destruct He as [Hei Hel].
    destruct (eval_instr_agree env r1 r2 i Hei) as (v & Hv1 & Hv2).
    { intros u Hin. apply Hr. rewrite forallb_forall in Hui.
      pose proof (Hui u Hin) as Hex. apply existsb_exists in Hex.
      destruct Hex as (u' & Hin' & Heq). apply Nat.eqb_eq in Heq. subst. exact Hin'. }
    destruct (IH (index (dest i) :: defs)
                (set_reg r1 (index (dest i)) v) (set_reg r2 (index (dest i)) v)
                Hul Hel) as (r1' & r2' & H1 & H2 & Hagree).
    { intros u [<- | Hin].
      - exists v. unfold set_reg. rewrite Nat.eqb_refl. auto.
      - unfold set_reg. destruct (Nat.eqb u (index (dest i))); eauto. }
    exists r1', r2'. simpl. rewrite Hv1, Hv2. repeat split; auto.
    intros u [[<- | Hin] | Hin]; apply Hagree; simpl; auto.
Qed.

(** X7.  Let the mapping table never yield [load_var] for the kind.  Then
    the instructions [convert_block] inserts for a read run to the end
    whatever the values of the function are, and the value they compute
    for the read does not depend on these: it is made of what the hardware
    supplies and of the shader information alone. *)
Theorem sysval_instrs_closed i o a location es d env r1 r2 :
  (forall op, nir_intrinsic_from_system_value location = Some op ->
              op <> nir_intrinsic_load_var) ->
  sysval_instrs i o a location = Some (es, d) ->
  exists r1' r2' v,
    exec_instrs env r1 es = Some r1' /\
    exec_instrs env r2 es = Some r2' /\
    r1' (index d) = Some v /\ r2' (index d) = Some v.
Proof.
  intros Htable H.
  destruct (exec_instrs_agree env es [] r1 r2) as (r1' & r2' & H1 & H2 & Hagree).
  - eapply sysval_instrs_uses_defined; eauto.
  - eapply sysval_instrs_evaluable; eauto.
  - intros u [].
  - destruct (sysval_instrs_fresh _ _ _ _ _ _ H) as (_ & _ & e & He & Hd).
    destruct (Hagree (index d)) as (v & Hv1 & Hv2).
    { left. apply in_map_iff. exists e. split; auto. rewrite Hd. reflexivity. }
    exists r1', r2', v. auto.
Qed.
(** ** Where the run ends in an error *)

Lemma lowerable_false_iff instr : lowerable instr = false <-> ends_run instr.
Proof.
  unfold lowerable, ends_run. split.
  - intros H. apply andb_false_iff in H. destruct H as [H | H].
    + left. apply negb_false_iff in H. exact H.
    + right. destruct (sysval_load instr) as [[| | | | n]|]; try discriminate.
      exists n. split; auto.
      destruct (nir_intrinsic_from_system_value (SYSTEM_VALUE_other n));
        [discriminate | reflexivity].
  - intros [H | (n & Hload & Htable)].
    + rewrite H. reflexivity.
    + rewrite Hload, Htable. apply andb_false_r.
Qed.

Lemma forallb_false_exists (A : Type) (f : A -> bool) l :
  forallb f l = false <-> exists x, In x l /\ f x = false.
Proof.
  induction l as [|a l IH]; simpl.
  - split; [discriminate | intros (x & [] & _)].
  - rewrite andb_false_iff, IH. split.
    + intros [H | (x & Hx & H)]; eauto.
    + intros (x & [<- | Hx] & H); eauto.
Qed.

(** X8.  [nir_lower_system_values] ends in an error exactly on the
    shaders in which some function with a body holds a [load_var] that
    names no variable, or a variable read of a system value of a kind that
    the [switch] leaves to the mapping table and the table has no entry
    for.  On every other shader it returns. *)
Theorem nir_lower_system_values_error shader :
  nir_lower_system_values shader = None <->
  exists f impl instr,
    In f (functions shader) /\ function_impl f = Some impl /\
    In instr (impl_instrs impl) /\ ends_run instr.
Proof.
  split.
  - intros Hnone.
    destruct (shader_lowerable shader) eqn:Hl.
    + destruct (nir_lower_system_values_total shader Hl) as (shader' & p & Hrun).
      congruence.
    + unfold shader_lowerable in Hl. apply forallb_false_exists in Hl.
      destruct Hl as (f & Hf & Hl). unfold function_lowerable in Hl.
      destruct (function_impl f) as [impl|] eqn:Himpl; try discriminate.
      unfold impl_lowerable in Hl. apply forallb_false_exists in Hl.
      destruct Hl as (instr & Hin & Hl). apply lowerable_false_iff in Hl.
      exists f, impl, instr. auto.
  - intros (f & impl & instr & Hf & Himpl & Hin & Hbad).
    destruct (nir_lower_system_values shader) as [[shader' p]|] eqn:Hrun; auto.
    exfalso.
    assert (Hl : shader_lowerable shader = true).
    { unfold nir_lower_system_values in Hrun.
      destruct (foreach_function (info shader) (options shader) (functions shader) false)
        as [[fs' p']|] eqn:Hloop; try discriminate.
      apply (foreach_function_returns_lowerable _ _ _ _ _ _ Hloop). }
    unfold shader_lowerable in Hl. rewrite forallb_forall in Hl.
    pose proof (Hl f Hf) as Hfl. unfold function_lowerable in Hfl.
    rewrite Himpl in Hfl. unfold impl_lowerable in Hfl.
    rewrite forallb_forall in Hfl. pose proof (Hfl instr Hin) as Hi.
    apply lowerable_false_iff in Hbad. congruence.
Qed.
(** ** Every use has a definition *)

Lemma closed_inv_lower bi state pre i suf location es d :
  block_instrs (state_impl state) bi = pre ++ i :: suf ->
  closed_inv bi state pre (i :: suf) ->
  sysval_load i = Some location ->
  sysval_instrs (builder_info (builder state)) (builder_options (builder state))
    (ssa_alloc (state_impl state)) location = Some (es, d) ->
  closed_inv bi (lowered_state bi (length pre) i es d state)
    (map (nir_instr_rewrite_src (index (dest i)) (index d)) (pre ++ es))
    (map (nir_instr_rewrite_src (index (dest i)) (index d)) suf).
Proof.
  intros Hl Hclosed _ Hes. unfold closed_inv, uses_closed, impl_defs in *.
  rewrite (impl_instrs_lowered_state _ _ _ _ _ _ _ Hl), map_index_rewrite.
  rewrite (impl_instrs_split (state_impl state) bi), Hl in Hclosed.
  set (E := earlier_instrs (state_impl state) bi) in *.
  set (L := later_instrs (state_impl state) bi) in *.
  set (idx := fun j : nir_instr => index (dest j)) in *.
  destruct (sysval_instrs_fresh _ _ _ _ _ _ Hes) as (Hfresh & _ & e0 & He0 & Hd).
  pose proof (sysval_instrs_indices _ _ _ _ _ _ Hes) as Hidx. fold idx in Hidx.
  assert (Hin_es : forall x, In x (map idx es) ->
                             In x (map idx (E ++ (pre ++ es) ++ suf ++ L))).
  { intros x Hx. rewrite !map_app. apply in_or_app. right.
    apply in_or_app. left. apply in_or_app. right. exact Hx. }
  intros j u Hj Hu. apply in_map_iff in Hj. destruct Hj as (j0 & <- & Hj0).
  rewrite instr_uses_rewrite in Hu. apply in_map_iff in Hu.
  destruct Hu as (u0 & <- & Hu0).
  unfold rewrite_src. destruct (Nat.eqb u0 (index (dest i))) eqn:Hold.
  - apply Hin_es. apply in_map_iff. exists e0. split; auto.
    unfold idx. rewrite Hd. reflexivity.
  - apply Nat.eqb_neq in Hold.
    assert (Hcases : In j0 es \/ In j0 (E ++ (pre ++ i :: suf) ++ L)).
    { repeat (rewrite in_app_iff in Hj0). repeat (rewrite in_app_iff). simpl.
      tauto. }
    destruct Hcases as [Hjes | Hjold].
    + apply Hin_es. rewrite Hidx. apply in_seq.
      rewrite Forall_forall in Hfresh. destruct (Hfresh j0 Hjes) as [_ Huses].
      rewrite Forall_forall in Huses. apply Huses. exact Hu0.
    + pose proof (Hclosed j0 u0 Hjold Hu0) as Hdef.
      apply in_map_iff in Hdef. destruct Hdef as (k & Hk & Hkin).
      apply in_map_iff. exists k. split; auto.
      repeat (rewrite in_app_iff in Hkin). simpl in Hkin.
      repeat (rewrite in_app_iff).
      destruct Hkin as [H | [[H | [H | H]] | H]]; auto.
      subst k. unfold idx in Hk. congruence.
Qed.

(** X9.  The pass leaves no use without a definition: if every value
    that an instruction of the function uses is defined by an instruction
    of the function, the same holds of the function [convert_impl]
    returns. *)
Theorem convert_impl_uses_closed sh_info sh_options impl :
  uses_closed impl ->
  impl_lowerable impl = true ->
  exists impl' p,
    convert_impl sh_info sh_options impl = Some (impl', p) /\
    uses_closed impl'.
Proof.
  intros Hclosed Hlow.
  destruct (convert_impl_total sh_info sh_options impl Hlow) as (impl' & p & Hrun).
  exists impl', p. split; [exact Hrun|].
  destruct (convert_impl_inv closed_inv) with (5 := Hrun)
    as (state' & HI & _ & _ & -> & _).
  - intros bi state pre i suf _ H _ _. exact H.
  - apply closed_inv_lower.
  - intros bi state H. exact H.
  - exact Hclosed.
  - exact HI.
Qed.
(** ** Definitions come before uses in a block *)

Lemma ordered_app l1 l2 :
  ordered (l1 ++ l2) <->
  ordered l1 /\ ordered l2 /\
  (forall j u, In j l1 -> In u (instr_uses j) ->
               ~ In u (map (fun k => index (dest k)) l2)).
Proof.
  induction l1 as [|j l1 IH]; simpl.
  - intuition.
  - rewrite IH. rewrite map_app. split.
    + intros (Hj & H1 & H2 & H3). repeat split; auto.
      * intros u Hu Hin. apply (Hj u Hu).
        destruct Hin as [Hin | Hin]; auto. right. apply in_or_app. auto.
      * intros k u [<- | Hk] Hu Hin.
        -- apply (Hj u Hu). right. apply in_or_app. auto.
        -- apply (H3 k u Hk Hu Hin).
    + intros ((Hj & H1) & H2 & H3). repeat split; auto.
      * intros u Hu [Hin | Hin]; [apply (Hj u Hu); auto|].
        apply in_app_or in Hin. destruct Hin as [Hin | Hin].
        -- apply (Hj u Hu). auto.
        -- apply (H3 j u (or_introl eq_refl) Hu Hin).
      * intros k u Hk Hu. apply (H3 k u (or_intror Hk) Hu).
Qed.

Lemma ordered_rewrite old new a l :
  Forall (fun j => index (dest j) < a) l ->
  a <= new ->
  ordered l ->
  ordered (map (nir_instr_rewrite_src old new) l).
Proof.
  intros Hall Hnew. induction l as [|j l IH]; simpl; auto.
  inversion Hall as [|? ? Hj Hl]; subst.
  intros [Huses Hrest]. split; [|apply IH; auto].
  intros u Hu Hin. rewrite instr_uses_rewrite in Hu. apply in_map_iff in Hu.
  destruct Hu as (u0 & <- & Hu0). simpl in Hin. rewrite map_index_rewrite in Hin.
  unfold rewrite_src in Hin. destruct (Nat.eqb u0 old).
  - assert (Hlt : new < a); [|lia].
    destruct Hin as [<- | Hin]; auto.
    apply in_map_iff in Hin. destruct Hin as (k & <- & Hk).
    rewrite Forall_forall in Hl. apply Hl. exact Hk.
  - apply (Huses u0 Hu0). exact Hin.
Qed.

Lemma uses_defined_ordered l : forall defs,
  uses_defined defs l = true ->
  NoDup (map (fun k => index (dest k)) l) ->
  (forall x, In x defs -> ~ In x (map (fun k => index (dest k)) l)) ->
  ordered l.
Proof.
  induction l as [|j l IH]; intros defs Hu Hnd Hdefs; simpl; auto.
  simpl in Hu. apply andb_prop in Hu. destruct Hu as [Hj Hl].
  simpl in Hnd. inversion Hnd as [|? ? Hnotin Hnd']; subst.
  split.
  - intros u Hin. apply Hdefs. rewrite forallb_forall in Hj.
    pose proof (Hj u Hin) as Hex. apply existsb_exists in Hex.
    destruct Hex as (x & Hx & Heq). apply Nat.eqb_eq in Heq. subst. exact Hx.
  - apply (IH (index (dest j) :: defs)); auto.
    intros x [<- | Hx]; auto.
    intros Hin. apply (Hdefs x Hx). right. exact Hin.
Qed.

Lemma sysval_instrs_ordered i o a location es d :
  sysval_instrs i o a location = Some (es, d) -> ordered es.
Proof.
  intros H. apply (uses_defined_ordered es []).
  - eapply sysval_instrs_uses_defined; eauto.
  - rewrite (sysval_instrs_indices _ _ _ _ _ _ H). apply seq_NoDup.
  - intros x [].
Qed.

Lemma in_impl_instrs impl i :
  In i (impl_instrs impl) -> exists bj, In i (block_instrs impl bj).
Proof.
  unfold impl_instrs, block_instrs, instrs_at. intros H.
  apply in_flat_map in H. destruct H as (blk & Hblk & Hi).
  apply In_nth_error in Hblk. destruct Hblk as (bj & Hbj).
  exists bj. rewrite Hbj. exact Hi.
Qed.

Lemma ordered_inv_lower bi state pre i suf location es d :
  block_instrs (state_impl state) bi = pre ++ i :: suf ->
  ordered_inv bi state pre (i :: suf) ->
  sysval_load i = Some location ->
  sysval_instrs (builder_info (builder state)) (builder_options (builder state))
    (ssa_alloc (state_impl state)) location = Some (es, d) ->
  ordered_inv bi (lowered_state bi (length pre) i es d state)
    (map (nir_instr_rewrite_src (index (dest i)) (index d)) (pre ++ es))
    (map (nir_instr_rewrite_src (index (dest i)) (index d)) suf).
Proof.
  intros Hl (Halloc & Hused & Hord) _ Hes.
  unfold ordered_inv, impl_allocated, uses_allocated in *.
  rewrite (impl_instrs_lowered_state _ _ _ _ _ _ _ Hl), lowered_state_ssa_alloc.
  set (a := ssa_alloc (state_impl state)) in *.
  set (old := index (dest i)) in *. set (new := index d) in *.
  set (idx := fun k : nir_instr => index (dest k)) in *.
  destruct (sysval_instrs_fresh _ _ _ _ _ _ Hes) as (Hfresh & Hnew & _).
  fold new in Hnew.
  pose proof (sysval_instrs_indices _ _ _ _ _ _ Hes) as Hidx. fold idx in Hidx.
  assert (Hblock : forall bj j, In j (block_instrs (state_impl state) bj) ->
                                index (dest j) < a).
  { intros bj j Hj. rewrite Forall_forall in Halloc. apply Halloc.
    eapply in_block_instrs; eauto. }
  assert (Hblock_uses : forall bj j u, In j (block_instrs (state_impl state) bj) ->
                                       In u (instr_uses j) -> u < a).
  { intros bj j u Hj Hu. apply (Hused j u); auto. eapply in_block_instrs; eauto. }
  assert (Hnow : In i (block_instrs (state_impl state) bi)
                 /\ (forall j, In j pre -> In j (block_instrs (state_impl state) bi))
                 /\ (forall j, In j suf -> In j (block_instrs (state_impl state) bi))).
  { rewrite Hl. repeat split; intros; apply in_or_app; simpl; auto. }
  destruct Hnow as (Hi_in & Hpre_in & Hsuf_in).
  assert (Hsplit : forall j0,
             In j0 (earlier_instrs (state_impl state) bi ++ (pre ++ es) ++ suf ++
                    later_instrs (state_impl state) bi) ->
             In j0 es \/ In j0 (impl_instrs (state_impl state))).
  { intros j0 Hj0. rewrite (impl_instrs_split (state_impl state) bi), Hl.
    repeat (rewrite in_app_iff in Hj0). repeat (rewrite in_app_iff). simpl. tauto. }
  split; [|split].
  - rewrite Forall_map. apply Forall_forall. intros j0 Hj0. rewrite dest_rewrite.
    destruct (Hsplit j0 Hj0) as [Hjes | Hjold].
    + rewrite Forall_forall in Hfresh. destruct (Hfresh j0 Hjes) as [H _]. lia.
    + rewrite Forall_forall in Halloc. pose proof (Halloc j0 Hjold). lia.
  - intros j u Hj Hu. apply in_map_iff in Hj. destruct Hj as (j0 & <- & Hj0).
    rewrite instr_uses_rewrite in Hu. apply in_map_iff in Hu.
    destruct Hu as (u0 & <- & Hu0). unfold rewrite_src.
    destruct (Nat.eqb u0 old); [lia|].
    destruct (Hsplit j0 Hj0) as [Hjes | Hjold].
    + rewrite Forall_forall in Hfresh. destruct (Hfresh j0 Hjes) as [_ H].
      rewrite Forall_forall in H. pose proof (H u0 Hu0). lia.
    + pose proof (Hused j0 u0 Hjold Hu0). lia.
  - intros bj. destruct (Nat.eq_dec bj bi) as [-> | Hne].
    + rewrite (block_instrs_lowered_state _ _ _ _ _ _ _ Hl). fold old new.
      pose proof (Hord bi) as Hbi. rewrite Hl in Hbi.
      apply ordered_app in Hbi. destruct Hbi as (Hopre & Hoisuf & Hcross).
      simpl in Hoisuf. destruct Hoisuf as [_ Hosuf].
      rewrite !map_app.
      rewrite (map_rewrite_fresh old new a (length es) es); auto;
        [|apply Hblock with (bj := bi); exact Hi_in].
      rewrite <- app_assoc.
      apply ordered_app. split; [|split].
      * apply (ordered_rewrite old new a); auto; [|lia].
        apply Forall_forall. intros j Hj. apply (Hblock bi). auto.
      * apply ordered_app. split; [|split].
        -- eapply sysval_instrs_ordered; eauto.
        -- apply (ordered_rewrite old new a); auto; [|lia].
           apply Forall_forall. intros j Hj. apply (Hblock bi). auto.
        -- intros j u Hj Hu Hin. rewrite map_index_rewrite in Hin.
           apply in_map_iff in Hin. destruct Hin as (k & Hk & Hkin).
           pose proof (Hblock bi k (Hsuf_in k Hkin)) as Hlt.
           rewrite Forall_forall in Hfresh. destruct (Hfresh j Hj) as [_ H].
           rewrite Forall_forall in H. pose proof (H u Hu). lia.
      * intros j u Hj Hu Hin. apply in_map_iff in Hj. destruct Hj as (j0 & <- & Hj0).
        rewrite instr_uses_rewrite in Hu. apply in_map_iff in Hu.
        destruct Hu as (u0 & <- & Hu0).
        pose proof (Hcross j0 u0 Hj0 Hu0) as Hnot. simpl in Hnot.
        assert (Hne : u0 <> old) by (intros ->; apply Hnot; auto).
        rewrite rewrite_src_neq in Hin by exact Hne.
        rewrite map_app, map_index_rewrite in Hin. apply in_app_or in Hin.
        destruct Hin as [Hin | Hin].
        -- fold idx in Hin. rewrite Hidx in Hin. apply in_seq in Hin.
           pose proof (Hblock_uses bi j0 u0 (Hpre_in j0 Hj0) Hu0). lia.
        -- apply Hnot. right. exact Hin.
    + rewrite (block_instrs_lowered_state_other _ bj _ _ _ _ _ _ Hl) by exact Hne.
      apply (ordered_rewrite _ _ a); auto; [|lia].
      apply Forall_forall. intros j Hj. apply (Hblock bj). exact Hj.
Qed.

(** X10.  Let the values the function defines and uses be values its
    counter handed out, and let no instruction use a value that it, or an
    instruction behind it in its block, defines.  Then the same holds of
    the function [convert_impl] returns: the instructions are inserted,
    and the uses redirected, so that within a block a definition still
    comes before its uses. *)
Theorem convert_impl_keeps_blocks_ordered sh_info sh_options impl :
  impl_allocated impl ->
  uses_allocated impl ->
  (forall bj, ordered (block_instrs impl bj)) ->
  impl_lowerable impl = true ->
  exists impl' p,
    convert_impl sh_info sh_options impl = Some (impl', p) /\
    impl_allocated impl' /\
    uses_allocated impl' /\
    forall bj, ordered (block_instrs impl' bj).
Proof.
  intros Halloc Hused Hord Hlow.
  destruct (convert_impl_total sh_info sh_options impl Hlow) as (impl' & p & Hrun).
  exists impl', p. split; [exact Hrun|].
  destruct (convert_impl_inv ordered_inv) with (5 := Hrun)
    as (state' & HI & _ & _ & -> & _).
  - intros bi state pre i suf _ H _ _. exact H.
  - apply ordered_inv_lower.
  - intros bi state H. exact H.
  - repeat split; assumption.
  - exact HI.
Qed.
(** ** What the pass reads of the shader *)

Lemma sysval_instrs_same_data info1 o1 info2 o2 a location :
  same_shader_data info1 o1 info2 o2 location ->
  sysval_instrs info1 o1 a location = sysval_instrs info2 o2 a location.
Proof.
  unfold same_shader_data, sysval_instrs. destruct location; auto.
  - intros (-> & -> & ->). reflexivity.
  - intros (-> & ->). reflexivity.
  - intros ->. reflexivity.
Qed.

Lemma set_shader_data_lowered_state info2 o2 bi k i es d state :
  lowered_state bi k i es d (set_shader_data info2 o2 state) =
  set_shader_data info2 o2 (lowered_state bi k i es d state).
Proof. reflexivity. Qed.

Lemma reads_same_data_lowered_state info1 o1 info2 o2 bi pre i suf location es d state :
  block_instrs (state_impl state) bi = pre ++ i :: suf ->
  sysval_instrs (builder_info (builder state)) (builder_options (builder state))
    (ssa_alloc (state_impl state)) location = Some (es, d) ->
  reads_same_data info1 o1 info2 o2 (impl_instrs (state_impl state)) ->
  reads_same_data info1 o1 info2 o2
    (impl_instrs (state_impl (lowered_state bi (length pre) i es d state))).
Proof.
  intros Hl Hes H j location' Hj Hload.
  rewrite (impl_instrs_lowered_state _ _ _ _ _ _ _ Hl) in Hj.
  apply in_map_iff in Hj. destruct Hj as (j0 & <- & Hj0).
  rewrite sysval_load_rewrite in Hload.
  assert (Hcases : In j0 es \/ In j0 (impl_instrs (state_impl state))).
  { rewrite (impl_instrs_split (state_impl state) bi), Hl.
    repeat (rewrite in_app_iff in Hj0). repeat (rewrite in_app_iff). simpl. tauto. }
  destruct Hcases as [Hjes | Hjold].
  - pose proof (sysval_load_new _ _ _ _ _ _ Hes) as Hnew.
    rewrite Forall_forall in Hnew. rewrite (Hnew j0 Hjes) in Hload. discriminate.
  - apply (H j0 location' Hjold Hload).
Qed.

Lemma foreach_instr_safe_same_data info1 o1 info2 o2 bi n : forall suf pre state,
  length suf = n ->
  block_instrs (state_impl state) bi = pre ++ suf ->
  same_data_inv info1 o1 info2 o2 state pre suf ->
  foreach_instr_safe n bi (set_shader_data info2 o2 state) =
    option_map (set_shader_data info2 o2) (foreach_instr_safe n bi state) /\
  forall state', foreach_instr_safe n bi state = Some state' ->
                 same_data_inv info1 o1 info2 o2 state' [] [].
Proof.
  induction n as [|n IH]; intros suf pre state Hn Hl (Hreads & Hinfo & Hopts).
  - simpl. split; [reflexivity|]. intros state' H. injection H as <-.
    repeat split; auto.
  - destruct suf as [|i suf]; try discriminate. injection Hn as Hn. subst n.
    cbn [foreach_instr_safe].
    change (builder_impl (builder (set_shader_data info2 o2 state)))
      with (builder_impl (builder state)).
    fold (state_impl state). rewrite Hl, nth_error_middle, position_middle.
    assert (Hin : In i (impl_instrs (state_impl state))).
    { apply (in_block_instrs _ bi). rewrite Hl. apply in_or_app. right. left.
      reflexivity. }
    destruct (sysval_load i) as [location|] eqn:Hload.
    + assert (Hk : length pre < length (block_instrs (builder_impl (builder state)) bi)).
      { fold (state_impl state). rewrite Hl, length_app. simpl. lia. }
      rewrite (convert_instr_lower _ _ _ (set_shader_data info2 o2 state) _ Hload)
        by exact Hk.
      rewrite (convert_instr_lower _ _ _ state _ Hload) by exact Hk.
      cbn [set_shader_data builder builder_info builder_options builder_impl].
      rewrite Hinfo, Hopts.
      rewrite <- (sysval_instrs_same_data info1 o1 info2 o2 _ _
                    (Hreads i location Hin Hload)).
      fold (state_impl state).
      destruct (sysval_instrs info1 o1 (ssa_alloc (state_impl state)) location)
        as [[es d]|] eqn:Hes; [|split; [reflexivity | discriminate]].
      fold (lowered_state bi (length pre) i es d state).
      destruct (IH (map (nir_instr_rewrite_src (index (dest i)) (index d)) suf)
                  (map (nir_instr_rewrite_src (index (dest i)) (index d)) (pre ++ es))
                  (lowered_state bi (length pre) i es d state))
        as [Heq Hnext].
      * apply length_map.
      * apply block_instrs_lowered_state. exact Hl.
      * split; [|split].
        -- eapply reads_same_data_lowered_state; eauto.
           rewrite Hinfo, Hopts. exact Hes.
        -- rewrite lowered_state_info. exact Hinfo.
        -- rewrite lowered_state_options. exact Hopts.
      * split; [exact Heq | exact Hnext].
    + destruct (load_var_without_variable i) eqn:Hbad.
      * rewrite !convert_instr_error by exact Hbad.
        split; [reflexivity | discriminate].
      * rewrite !convert_instr_skip by assumption.
        apply (IH suf (pre ++ [i])); auto.
        -- rewrite Hl, <- app_assoc. reflexivity.
        -- repeat split; auto.
Qed.

Lemma foreach_block_same_data info1 o1 info2 o2 m : forall bi state,
  same_data_inv info1 o1 info2 o2 state [] [] ->
  foreach_block (seq bi m) (set_shader_data info2 o2 state) =
  option_map (set_shader_data info2 o2) (foreach_block (seq bi m) state).
Proof.
  induction m as [|m IH]; intros bi state HI; [reflexivity|].
  cbn [seq foreach_block]. unfold convert_block.
  change (builder_impl (builder (set_shader_data info2 o2 state)))
    with (builder_impl (builder state)).
  destruct (foreach_instr_safe_same_data info1 o1 info2 o2 bi
              (length (block_instrs (builder_impl (builder state)) bi))
              (block_instrs (builder_impl (builder state)) bi) [] state)
    as [Heq Hnext]; auto.
  rewrite Heq.
  destruct (foreach_instr_safe _ bi state) as [state1|]; [|reflexivity].
  simpl. apply IH. apply Hnext. reflexivity.
Qed.

(** X16.  The pass reads of the shader only what the kinds it meets
    need: the three local sizes for the global invocation id, the first
    two for the local invocation index, the flag [vertex_id_zero_based]
    for the vertex id, nothing for any other kind.  Two shaders that
    agree on this for every variable read of a system value in the
    function give the same run of [convert_impl]. *)
Theorem convert_impl_same_data info1 o1 info2 o2 impl :
  reads_same_data info1 o1 info2 o2 (impl_instrs impl) ->
  convert_impl info1 o1 impl = convert_impl info2 o2 impl.
Proof.
  intros H. unfold convert_impl.
  change {| builder := nir_builder_init info2 o2 impl; progress := false |}
    with (set_shader_data info2 o2
            {| builder := nir_builder_init info1 o1 impl; progress := false |}).
  rewrite (foreach_block_same_data info1 o1 info2 o2).
  - destruct (foreach_block _ _) as [state|]; reflexivity.
  - repeat split; auto.
Qed.

End Pass.

(** * The rules on concrete shaders *)

(** The vertex-id shader, lowered with the arguments of a call built from
    right to left: the read is replaced in place by the read of the base
    vertex, the read of the zero-based vertex id and their sum, and the
    use of the value 1 of the read now names the sum, the value 5. *)
Example example_shader_lowered :
  option_map
    (fun r => (map (fun f => option_map (fun impl => map instr_list (body impl))
                               (function_impl f))
                 (functions (fst r)),
               snd r))
    (nir_lower_system_values example_table example_dest_components example_args_order
       (example_shader SYSTEM_VALUE_VERTEX_ID)) =
  Some ([ Some [ [ example_use 0 [];
                   load_instr example_dest_components 3 nir_intrinsic_load_base_vertex;
                   load_instr example_dest_components 4
                     nir_intrinsic_load_vertex_id_zero_base;
                   alu2_instr 5 nir_op_iadd
                     {| index := 4; num_components := 1 |}
                     {| index := 3; num_components := 1 |};
                   example_use 2 [5] ] ];
          None ],
        true).
Proof. reflexivity. Qed.

Lemma example_table_lower_level : table_lower_level example_table.
Proof.
  intros location op H. destruct location; simpl in H; try discriminate.
  injection H as <-. discriminate.
Qed.

Lemma example_impl_allocated location : impl_allocated (example_impl location).
Proof.
  unfold impl_allocated, example_impl, impl_instrs. simpl.
  repeat constructor.
Qed.

(** Workgroup size (8,1,1), group id (2,0,0), local invocation id (3,0,0):
    the five inserted instructions compute (19,0,0). *)
Lemma global_invocation_id_lowering_witness :
  exists es sysval r',
    convert_instr example_table example_dest_components example_args_order 0 1
      (example_read 1 SYSTEM_VALUE_GLOBAL_INVOCATION_ID)
      (example_state (example_info 8 1 1) example_options
         (example_impl SYSTEM_VALUE_GLOBAL_INVOCATION_ID)) =
      Some (lowered_state 0 1 (example_read 1 SYSTEM_VALUE_GLOBAL_INVOCATION_ID)
              es sysval
              (example_state (example_info 8 1 1) example_options
                 (example_impl SYSTEM_VALUE_GLOBAL_INVOCATION_ID))) /\
    length es = 5 /\
    exec_instrs (example_env [2; 0; 0] [3; 0; 0] 0 0 0 0 0)%Z (fun _ => None) es =
      Some r' /\
    r' (index sysval) = Some [19; 0; 0]%Z.
Proof.
  destruct (global_invocation_id_lowering example_table example_dest_components example_args_order
              0 [example_use 0 []] (example_read 1 SYSTEM_VALUE_GLOBAL_INVOCATION_ID)
              [example_use 2 [1]]
              (example_state (example_info 8 1 1) example_options
                 (example_impl SYSTEM_VALUE_GLOBAL_INVOCATION_ID))
              (example_env [2; 0; 0] [3; 0; 0] 0 0 0 0 0)%Z (fun _ => None)
              eq_refl eq_refl ltac:(simpl; lia) eq_refl eq_refl)
    as (H1 & _ & r' & H2 & H3).
  eexists _, _, r'.
  split; [exact H1 | split; [reflexivity | split; [exact H2 | exact H3]]].
Defined.

(** Local size (4,4,1), local invocation id (x=1, y=2, z=0), the
    arguments of a call built from right to left: the product of the
    sizes is inserted before the move of the component z, and the
    inserted instructions compute 0*4*4 + 2*4 + 1 = 9. *)
Lemma local_invocation_index_lowering_witness :
  exists es sysval r',
    convert_instr example_table example_dest_components example_args_order 0 1
      (example_read 1 SYSTEM_VALUE_LOCAL_INVOCATION_INDEX)
      (example_state (example_info 4 4 1) example_options
         (example_impl SYSTEM_VALUE_LOCAL_INVOCATION_INDEX)) =
      Some (lowered_state 0 1 (example_read 1 SYSTEM_VALUE_LOCAL_INVOCATION_INDEX)
              es sysval
              (example_state (example_info 4 4 1) example_options
                 (example_impl SYSTEM_VALUE_LOCAL_INVOCATION_INDEX))) /\
    nth_error es 3 =
      Some (alu2_instr 6 nir_op_imul {| index := 4; num_components := 1 |}
              {| index := 5; num_components := 1 |}) /\
    nth_error es 4 =
      Some (channel_instr 7 {| index := 3; num_components := 3 |} 2) /\
    exec_instrs (example_env [0; 0; 0] [1; 2; 0] 0 0 0 0 0)%Z (fun _ => None) es =
      Some r' /\
    r' (index sysval) = Some [9]%Z.
Proof.
  destruct (local_invocation_index_lowering example_table example_dest_components example_args_order
              0 [example_use 0 []] (example_read 1 SYSTEM_VALUE_LOCAL_INVOCATION_INDEX)
              [example_use 2 [1]]
              (example_state (example_info 4 4 1) example_options
                 (example_impl SYSTEM_VALUE_LOCAL_INVOCATION_INDEX))
              (example_env [0; 0; 0] [1; 2; 0] 0 0 0 0 0)%Z (fun _ => None)
              eq_refl eq_refl ltac:(simpl; lia) eq_refl)
    as (H1 & _ & r' & H2 & H3).
  eexists _, _, r'.
  split; [exact H1 | split; [reflexivity | split; [reflexivity | split; [exact H2 | exact H3]]]].
Defined.

(** Zero-based vertex id 5 and base vertex 100, the arguments of a call
    built from right to left: with the option set the read of the base
    vertex is inserted before the read of the zero-based vertex id, and
    the result is 105; with the option not set it is the vertex id (here
    42), whatever the base vertex. *)
Lemma vertex_id_lowering_witness :
  (exists es sysval r',
     convert_instr example_table example_dest_components example_args_order 0 1
       (example_read 1 SYSTEM_VALUE_VERTEX_ID)
       (example_state (example_info 1 1 1) {| vertex_id_zero_based := true |}
          (example_impl SYSTEM_VALUE_VERTEX_ID)) =
       Some (lowered_state 0 1 (example_read 1 SYSTEM_VALUE_VERTEX_ID) es sysval
               (example_state (example_info 1 1 1) {| vertex_id_zero_based := true |}
                  (example_impl SYSTEM_VALUE_VERTEX_ID))) /\
     es = [load_instr example_dest_components 3 nir_intrinsic_load_base_vertex;
           load_instr example_dest_components 4 nir_intrinsic_load_vertex_id_zero_base;
           alu2_instr 5 nir_op_iadd {| index := 4; num_components := 1 |}
             {| index := 3; num_components := 1 |}] /\
     exec_instrs (example_env [] [] 5 100 42 0 0)%Z (fun _ => None) es = Some r' /\
     r' (index sysval) = Some [105]%Z) /\
  (exists es sysval r',
     convert_instr example_table example_dest_components example_args_order 0 1
       (example_read 1 SYSTEM_VALUE_VERTEX_ID)
       (example_state (example_info 1 1 1) {| vertex_id_zero_based := false |}
          (example_impl SYSTEM_VALUE_VERTEX_ID)) =
       Some (lowered_state 0 1 (example_read 1 SYSTEM_VALUE_VERTEX_ID) es sysval
               (example_state (example_info 1 1 1) {| vertex_id_zero_based := false |}
                  (example_impl SYSTEM_VALUE_VERTEX_ID))) /\
     es = [load_instr example_dest_components 3 nir_intrinsic_load_vertex_id] /\
     exec_instrs (example_env [] [] 5 100 42 0 0)%Z (fun _ => None) es = Some r' /\
     r' (index sysval) = Some [42]%Z).
Proof.
  split.
  - destruct (vertex_id_lowering example_table example_dest_components example_args_order
                0 [example_use 0 []] (example_read 1 SYSTEM_VALUE_VERTEX_ID)
                [example_use 2 [1]]
                (example_state (example_info 1 1 1) {| vertex_id_zero_based := true |}
                   (example_impl SYSTEM_VALUE_VERTEX_ID))
                (example_env [] [] 5 100 42 0 0)%Z (fun _ => None)
                eq_refl eq_refl ltac:(simpl; lia) eq_refl eq_refl eq_refl)
      as (H1 & _ & r' & H2 & H3).
    eexists _, _, r'.
    split; [exact H1 | split; [reflexivity | split; [exact H2 | exact H3]]].
  - destruct (vertex_id_lowering example_table example_dest_components example_args_order
                0 [example_use 0 []] (example_read 1 SYSTEM_VALUE_VERTEX_ID)
                [example_use 2 [1]]
                (example_state (example_info 1 1 1) {| vertex_id_zero_based := false |}
                   (example_impl SYSTEM_VALUE_VERTEX_ID))
                (example_env [] [] 5 100 42 0 0)%Z (fun _ => None)
                eq_refl eq_refl ltac:(simpl; lia) eq_refl eq_refl eq_refl)
      as (H1 & _ & r' & H2 & H3).
    eexists _, _, r'.
    split; [exact H1 | split; [reflexivity | split; [exact H2 | exact H3]]].
Defined.

(** Instance id 3 and base instance 10, the arguments of a call built
    from right to left: the read of the base instance is inserted before
    the read of the instance id, and the result is 13. *)
Lemma instance_index_lowering_witness :
  exists es sysval r',
    convert_instr example_table example_dest_components example_args_order 0 1
      (example_read 1 SYSTEM_VALUE_INSTANCE_INDEX)
      (example_state (example_info 1 1 1) example_options
         (example_impl SYSTEM_VALUE_INSTANCE_INDEX)) =
      Some (lowered_state 0 1 (example_read 1 SYSTEM_VALUE_INSTANCE_INDEX) es sysval
              (example_state (example_info 1 1 1) example_options
                 (example_impl SYSTEM_VALUE_INSTANCE_INDEX))) /\
    es = [load_instr example_dest_components 3 nir_intrinsic_load_base_instance;
          load_instr example_dest_components 4 nir_intrinsic_load_instance_id;
          alu2_instr 5 nir_op_iadd {| index := 4; num_components := 1 |}
            {| index := 3; num_components := 1 |}] /\
    exec_instrs (example_env [] [] 0 0 0 3 10)%Z (fun _ => None) es = Some r' /\
    r' (index sysval) = Some [13]%Z.
Proof.
  destruct (instance_index_lowering example_table example_dest_components example_args_order
              0 [example_use 0 []] (example_read 1 SYSTEM_VALUE_INSTANCE_INDEX)
              [example_use 2 [1]]
              (example_state (example_info 1 1 1) example_options
                 (example_impl SYSTEM_VALUE_INSTANCE_INDEX))
              (example_env [] [] 0 0 0 3 10)%Z (fun _ => None)
              eq_refl eq_refl ltac:(simpl; lia) eq_refl eq_refl)
    as (H1 & _ & r' & H2 & H3).
  eexists _, _, r'.
  split; [exact H1 | split; [reflexivity | split; [exact H2 | exact H3]]].
Defined.

(** A read of the kind numbered 9, which the table maps to the intrinsic
    numbered 9: one intrinsic read takes its place, and the use of the
    value read now names the new value 3. *)
Lemma other_system_value_lowering_witness :
  exists state',
    convert_instr example_table example_dest_components example_args_order 0 1
      (example_read 1 (SYSTEM_VALUE_other 9))
      (example_state (example_info 1 1 1) example_options
         (example_impl (SYSTEM_VALUE_other 9))) = Some state' /\
    block_instrs (state_impl state') 0 =
      [ example_use 0 [];
        {| dest := {| index := 3; num_components := 1 |};
           type := nir_instr_type_intrinsic
                     {| intrinsic := nir_intrinsic_other 9; variables := [];
                        const_index := [0%Z]; intrinsic_src := [] |} |};
        example_use 2 [3] ].
Proof.
  destruct (other_system_value_lowering example_table example_dest_components example_args_order
              0 [example_use 0 []] (example_read 1 (SYSTEM_VALUE_other 9))
              [example_use 2 [1]]
              (example_state (example_info 1 1 1) example_options
                 (example_impl (SYSTEM_VALUE_other 9)))
              (SYSTEM_VALUE_other 9) (nir_intrinsic_other 9)
              eq_refl eq_refl ltac:(simpl; lia)
              ltac:(discriminate) ltac:(discriminate) ltac:(discriminate)
              ltac:(discriminate) eq_refl)
    as (H1 & H2).
  eexists. split; [exact H1 | exact H2].
Defined.



(** A shader without system values and without reads of them: the list is
    empty after the run as it was before. *)
Lemma system_values_cleared_witness :
  exists shader' p,
    nir_lower_system_values example_table example_dest_components example_args_order
      example_plain_shader = Some (shader', p) /\
    system_values shader' = [].
Proof.
  exact (system_values_cleared example_table example_dest_components example_args_order
           example_plain_shader eq_refl).
Defined.

Lemma convert_impl_preserves_control_flow_witness :
  exists impl' p,
    convert_impl example_table example_dest_components example_args_order (example_info 8 1 1)
      example_options (example_impl SYSTEM_VALUE_VERTEX_ID) = Some (impl', p) /\
    length (body impl') = 1 /\
    map successors (body impl') = [[]] /\
    map predecessors (body impl') = [[]] /\
    valid_metadata impl' = 3%Z.
Proof.
  destruct (convert_impl_preserves_control_flow example_table example_dest_components example_args_order
              (example_info 8 1 1) example_options
              (example_impl SYSTEM_VALUE_VERTEX_ID) eq_refl)
    as (impl' & p & Hrun & H1 & H2 & H3 & H4 & _).
  exists impl', p. repeat split; assumption.
Defined.

Lemma nir_lower_system_values_idempotent_witness :
  exists shader' p,
    nir_lower_system_values example_table example_dest_components example_args_order
      (example_shader SYSTEM_VALUE_GLOBAL_INVOCATION_ID) = Some (shader', p) /\
    nir_lower_system_values example_table example_dest_components example_args_order shader' =
      Some (shader', false).
Proof.
  destruct (nir_lower_system_values_idempotent example_table example_dest_components example_args_order
              (example_shader SYSTEM_VALUE_GLOBAL_INVOCATION_ID)
              example_table_lower_level eq_refl)
    as (shader' & p & H1 & H2 & _).
  exists shader', p. split; assumption.
Defined.

(** * The mapping table and the kinds of the [switch] *)

Lemma build_sysval_table_other t1 t2 dc order location :
  (forall n, t1 (SYSTEM_VALUE_other n) = t2 (SYSTEM_VALUE_other n)) ->
  build_sysval t1 dc order location = build_sysval t2 dc order location.
Proof.
  intros H. destruct location; unfold build_sysval; try reflexivity.
  rewrite H. reflexivity.
Qed.

Lemma convert_instr_table_other t1 t2 dc order bi k instr state :
  (forall n, t1 (SYSTEM_VALUE_other n) = t2 (SYSTEM_VALUE_other n)) ->
  convert_instr t1 dc order bi k instr state = convert_instr t2 dc order bi k instr state.
Proof.
  intros H. unfold convert_instr.
  destruct (type instr) as [| lv | |]; auto.
  destruct (intrinsic lv); auto.
  destruct (variables lv) as [|var rest]; auto.
  destruct (data_mode var); auto.
  rewrite (build_sysval_table_other t1 t2 dc order _ H). reflexivity.
Qed.

Lemma foreach_instr_safe_table_other t1 t2 dc order bi n : forall state,
  (forall k, t1 (SYSTEM_VALUE_other k) = t2 (SYSTEM_VALUE_other k)) ->
  foreach_instr_safe t1 dc order n bi state = foreach_instr_safe t2 dc order n bi state.
Proof.
  induction n as [|n IH]; intros state H; simpl; auto.
  destruct (nth_error _ _) as [instr|]; auto.
  rewrite (convert_instr_table_other t1 t2 dc order _ _ _ _ H).
  destruct (convert_instr t2 dc order _ _ instr state); auto.
Qed.

Lemma foreach_block_table_other t1 t2 dc order blocks : forall state,
  (forall k, t1 (SYSTEM_VALUE_other k) = t2 (SYSTEM_VALUE_other k)) ->
  foreach_block t1 dc order blocks state = foreach_block t2 dc order blocks state.
Proof.
  induction blocks as [|bi rest IH]; intros state H; simpl; auto.
  unfold convert_block. rewrite (foreach_instr_safe_table_other t1 t2 dc order _ _ _ H).
  destruct (foreach_instr_safe t2 dc order _ bi state); auto.
Qed.

Lemma foreach_function_table_other t1 t2 dc order sh_info sh_options fs : forall p,
  (forall k, t1 (SYSTEM_VALUE_other k) = t2 (SYSTEM_VALUE_other k)) ->
  foreach_function t1 dc order sh_info sh_options fs p =
  foreach_function t2 dc order sh_info sh_options fs p.
Proof.
  induction fs as [|f fs IH]; intros p H; simpl; auto.
  destruct (function_impl f) as [impl|].
  - unfold convert_impl. rewrite (foreach_block_table_other t1 t2 dc order _ _ H).
    destruct (foreach_block t2 dc order _ _) as [state|]; auto.
    rewrite IH by exact H. reflexivity.
  - rewrite IH by exact H. reflexivity.
Qed.

(** X11.  The four kinds the [switch] of [convert_block] names never go
    through the mapping table: with two tables that agree on every other
    kind, the pass does the same on every shader. *)
Theorem nir_lower_system_values_table_other t1 t2 dc order shader :
  (forall n, t1 (SYSTEM_VALUE_other n) = t2 (SYSTEM_VALUE_other n)) ->
  nir_lower_system_values t1 dc order shader = nir_lower_system_values t2 dc order shader.
Proof.
  intros H. unfold nir_lower_system_values.
  rewrite (foreach_function_table_other t1 t2 dc order _ _ _ _ H). reflexivity.
Qed.

(** * The prefixes of the generations *)

Lemma gen_prefix_eq (v1 v2 : Z) (n : Z) :
  Z.eqb v1 n = true -> Z.eqb v2 n = true -> v1 = v2.
Proof. intros H1 H2. apply Z.eqb_eq in H1, H2. congruence. Qed.

Lemma append_inj (p x y : string) : (p ++ x = p ++ y)%string -> x = y.
Proof.
  induction p as [|c p IH]; simpl; intros H; [exact H|].
  injection H as H. auto.
Qed.

(** X12.  The names [genX] makes for two generations never meet, nor do
    those of [GENX]: when two of them are the same name, it was made for
    the same generation from the same name.  So what is compiled once per
    generation can be linked together. *)
Theorem gen_prefixes_distinct v1 v2 x1 x2 s :
  (genX v1 x1 = Some s /\ genX v2 x2 = Some s) \/
  (GENX v1 x1 = Some s /\ GENX v2 x2 = Some s) ->
  v1 = v2 /\ x1 = x2.
Proof.
  unfold genX, GENX. intros [[H1 H2] | [H1 H2]];
    gen_cases v1; try discriminate; gen_cases v2; try discriminate;
    pose proof (eq_trans H2 (eq_sym H1)) as H;
    apply (f_equal (fun o => match o with Some n => n | None => EmptyString end)) in H;
    cbv beta iota in H;
    first [ apply append_inj in H; subst; split;
            [eapply gen_prefix_eq; eassumption | reflexivity]
          | simpl in H; discriminate ].
Qed.

(** X13.  For the generations the header has a prefix for, [GEN_GEN]
    and [GEN_IS_HASWELL] together tell the generation: two generations
    on which both agree are the same. *)
Theorem gen_checks_determine v1 v2 x :
  genX v1 x <> None ->
  genX v2 x <> None ->
  GEN_GEN v1 = GEN_GEN v2 ->
  GEN_IS_HASWELL v1 = GEN_IS_HASWELL v2 ->
  v1 = v2.
Proof.
  unfold genX. intros H1 H2.
  gen_cases v1; try contradiction; gen_cases v2; try contradiction;
    repeat match goal with
           | H : Z.eqb _ _ = true |- _ => apply Z.eqb_eq in H; subst
           end;
    intros Hg Hh; try reflexivity; vm_compute in Hg, Hh; discriminate.
Qed.

(** * The state blocks of the radeonsi driver *)

Lemma si_pm4_block_idx_position psize m :
  0 < psize -> SiState.si_pm4_block_idx psize m = SiState.position m.
Proof.
  intros H. unfold SiState.si_pm4_block_idx, SiState.offsetof_named.
  apply Nat.div_mul. lia.
Qed.

Lemma position_inj m m' : SiState.position m = SiState.position m' -> m = m'.
Proof. destruct m, m'; simpl; intros H; try reflexivity; discriminate. Qed.

(** X14.  [si_pm4_bind_state] writes one element of [queued.array], the
    one [si_pm4_block_idx] gives for the member, and nothing of
    [emitted]; after it the member counts as changed exactly when the
    value bound is not the one emitted, and every other member counts as
    changed exactly when it did before. *)
Theorem si_pm4_bind_state_slot psize sctx m value :
  0 < psize ->
  (forall k,
     SiState.queued (SiState.si_pm4_bind_state sctx m value) k =
     if Nat.eqb k (SiState.si_pm4_block_idx psize m) then value
     else SiState.queued sctx k) /\
  (forall k,
     SiState.emitted (SiState.si_pm4_bind_state sctx m value) k =
     SiState.emitted sctx k) /\
  SiState.si_pm4_state_changed (SiState.si_pm4_bind_state sctx m value) m =
    negb (N.eqb value (SiState.named (SiState.emitted sctx) m)) /\
  (forall m', m' <> m ->
     SiState.si_pm4_state_changed (SiState.si_pm4_bind_state sctx m value) m' =
     SiState.si_pm4_state_changed sctx m').
Proof.
  intros H. rewrite (si_pm4_block_idx_position _ _ H).
  unfold SiState.si_pm4_state_changed, SiState.si_pm4_bind_state, SiState.named,
    SiState.set_named. simpl.
  split; [reflexivity|]. split; [reflexivity|]. split.
  - rewrite Nat.eqb_refl. reflexivity.
  - intros m' Hne.
    destruct (Nat.eqb (SiState.position m') (SiState.position m)) eqn:E; auto.
    apply Nat.eqb_eq in E. apply position_inj in E. contradiction.
Qed.

(** X15.  [si_pm4_delete_state] unbinds before it frees: the context it
    hands to [si_pm4_free_state], with the state and the block index of
    the member, no longer has the state queued for the member (for a
    state that is not [NULL]); the other members and [emitted] are as they
    were. *)
Theorem si_pm4_delete_state_unbinds si_pm4_free_state psize sctx m value :
  0 < psize ->
  exists sctx1,
    SiState.si_pm4_delete_state si_pm4_free_state psize sctx m value =
      si_pm4_free_state sctx1 value (SiState.position m) /\
    (value <> SiState.NULL -> SiState.named (SiState.queued sctx1) m <> value) /\
    (forall m', m' <> m ->
       SiState.named (SiState.queued sctx1) m' = SiState.named (SiState.queued sctx) m') /\
    SiState.emitted sctx1 = SiState.emitted sctx.
Proof.
  intros H. unfold SiState.si_pm4_delete_state.
  rewrite (si_pm4_block_idx_position _ _ H).
  destruct (N.eqb (SiState.named (SiState.queued sctx) m) value) eqn:E.
  - eexists. split; [reflexivity|]. simpl. split; [|split; [|reflexivity]].
    + intros Hv. unfold SiState.named, SiState.set_named.
      rewrite Nat.eqb_refl. congruence.
    + intros m' Hne. unfold SiState.named, SiState.set_named.
      destruct (Nat.eqb (SiState.position m') (SiState.position m)) eqn:E'; auto.
      apply Nat.eqb_eq in E'. apply position_inj in E'. contradiction.
  - exists sctx. split; [reflexivity|]. split; [|split; [|reflexivity]]; auto.
    intros _. apply N.eqb_neq. exact E.
Qed.
(** * The properties on concrete shaders *)

Lemma example_impl_defs location : NoDup (impl_defs (example_impl location)).
Proof.
  unfold impl_defs, example_impl, impl_instrs. simpl.
  repeat constructor; simpl; intuition discriminate.
Qed.

Lemma example_impl_uses_closed location : uses_closed (example_impl location).
Proof.
  unfold uses_closed, impl_defs, example_impl, impl_instrs. simpl.
  intros i u [<- | [<- | [<- | []]]]; simpl; intuition.
Qed.

Lemma example_impl_uses_allocated location : uses_allocated (example_impl location).
Proof.
  unfold uses_allocated, example_impl, impl_instrs. simpl.
  intros i u [<- | [<- | [<- | []]]]; simpl; intuition lia.
Qed.

Lemma example_impl_ordered location bj :
  ordered (block_instrs (example_impl location) bj).
Proof.
  destruct bj as [|bj]; [|destruct bj; exact I].
  unfold block_instrs, instrs_at, example_impl. simpl.
  repeat split; auto; simpl; intuition lia.
Qed.

(** The vertex-id function, the arguments of a call built from right to
    left: the pass gives what the reference computes, the function in
    which the read of the base vertex, the read of the zero-based vertex
    id and their sum stand in place of the read, and the use names the
    sum. *)
Lemma convert_impl_refines_reference_witness :
  convert_impl example_table example_dest_components example_args_order
    (example_info 8 1 1) example_options (example_impl SYSTEM_VALUE_VERTEX_ID) =
  Some ({| body :=
             [ {| instr_list :=
                    [ example_use 0 [];
                      load_instr example_dest_components 3
                        nir_intrinsic_load_base_vertex;
                      load_instr example_dest_components 4
                        nir_intrinsic_load_vertex_id_zero_base;
                      alu2_instr 5 nir_op_iadd
                        {| index := 4; num_components := 1 |}
                        {| index := 3; num_components := 1 |};
                      example_use 2 [5] ];
                  successors := []; predecessors := [] |} ];
           ssa_alloc := 6;
           valid_metadata := 3 |}, true).
Proof.
  rewrite (convert_impl_refines_reference example_table example_dest_components
             example_args_order (example_info 8 1 1) example_options
             (example_impl SYSTEM_VALUE_VERTEX_ID)
             (example_impl_allocated SYSTEM_VALUE_VERTEX_ID)).
  reflexivity.
Defined.

(** The vertex-id function: of its three instructions, the first and the
    last are kept, in this order. *)
Lemma convert_impl_keeps_order_witness :
  exists impl' p sigma,
    convert_impl example_table example_dest_components example_args_order (example_info 8 1 1)
      example_options (example_impl SYSTEM_VALUE_VERTEX_ID) = Some (impl', p) /\
    forall bj,
      filter (defined_below 3) (block_instrs impl' bj) =
      map (subst_instr sigma)
        (filter not_sysval_load
           (block_instrs (example_impl SYSTEM_VALUE_VERTEX_ID) bj)).
Proof.
  exact (convert_impl_keeps_order example_table example_dest_components example_args_order
           (example_info 8 1 1) example_options (example_impl SYSTEM_VALUE_VERTEX_ID)
           (example_impl_allocated SYSTEM_VALUE_VERTEX_ID) eq_refl).
Defined.

Lemma convert_impl_single_assignment_witness :
  exists impl' p,
    convert_impl example_table example_dest_components example_args_order (example_info 4 4 1)
      example_options (example_impl SYSTEM_VALUE_LOCAL_INVOCATION_INDEX) =
      Some (impl', p) /\
    impl_allocated impl' /\ NoDup (impl_defs impl').
Proof.
  exact (convert_impl_single_assignment example_table example_dest_components example_args_order
           (example_info 4 4 1) example_options
           (example_impl SYSTEM_VALUE_LOCAL_INVOCATION_INDEX)
           (example_impl_allocated SYSTEM_VALUE_LOCAL_INVOCATION_INDEX)
           (example_impl_defs SYSTEM_VALUE_LOCAL_INVOCATION_INDEX) eq_refl).
Defined.

(** The function that reads the local invocation index holds one read:
    it has as many instructions more as values were handed out, less
    one. *)
Lemma convert_impl_size_witness :
  exists impl' p,
    convert_impl example_table example_dest_components example_args_order (example_info 4 4 1)
      example_options (example_impl SYSTEM_VALUE_LOCAL_INVOCATION_INDEX) =
      Some (impl', p) /\
    length (impl_instrs impl') + 1 + 3 = 3 + ssa_alloc impl' /\
    3 + 1 <= ssa_alloc impl' /\
    ssa_alloc impl' <= 3 + 11 * 1.
Proof.
  exact (convert_impl_size example_table example_dest_components example_args_order
           (example_info 4 4 1) example_options
           (example_impl SYSTEM_VALUE_LOCAL_INVOCATION_INDEX) eq_refl).
Defined.

(** A shader without reads: no progress, and the blocks are as they
    were. *)
Lemma nir_lower_system_values_progress_exact_witness :
  exists shader' p,
    nir_lower_system_values example_table example_dest_components example_args_order
      example_plain_shader = Some (shader', p) /\
    (p = false <-> shader_bodies shader' = shader_bodies example_plain_shader).
Proof.
  exact (nir_lower_system_values_progress_exact example_table example_dest_components example_args_order
           example_plain_shader eq_refl).
Defined.

Lemma sysval_instrs_straight_line_witness :
  exists es d,
    sysval_instrs example_table example_dest_components example_args_order (example_info 4 4 1)
      example_options 3 SYSTEM_VALUE_LOCAL_INVOCATION_INDEX = Some (es, d) /\
    map (fun e => index (dest e)) es = seq 3 (length es) /\
    uses_defined [] es = true /\
    exists l e, es = l ++ [e] /\ dest e = d.
Proof.
  eexists _, _. split; [reflexivity|].
  apply (sysval_instrs_straight_line example_table example_dest_components example_args_order
           (example_info 4 4 1) example_options 3
           SYSTEM_VALUE_LOCAL_INVOCATION_INDEX _ _ eq_refl).
Defined.

(** The instructions for the global invocation id, run from no value at
    all and from registers that hold the value 7 everywhere. *)
Lemma sysval_instrs_closed_witness :
  exists es d r1' r2' v,
    sysval_instrs example_table example_dest_components example_args_order (example_info 8 1 1)
      example_options 3 SYSTEM_VALUE_GLOBAL_INVOCATION_ID = Some (es, d) /\
    exec_instrs (example_env [2; 0; 0] [3; 0; 0] 0 0 0 0 0)%Z (fun _ => None) es =
      Some r1' /\
    exec_instrs (example_env [2; 0; 0] [3; 0; 0] 0 0 0 0 0)%Z
      (fun _ => Some [7%Z]) es = Some r2' /\
    r1' (index d) = Some v /\ r2' (index d) = Some v.
Proof.
  eexists _, _.
  destruct (sysval_instrs_closed example_table example_dest_components example_args_order
              (example_info 8 1 1) example_options 3
              SYSTEM_VALUE_GLOBAL_INVOCATION_ID _ _
              (example_env [2; 0; 0] [3; 0; 0] 0 0 0 0 0)%Z
              (fun _ => None) (fun _ => Some [7%Z])
              (fun op H => match H in (_ = o) return
                                   match o with Some _ => _ | None => True end
                           with eq_refl => I end)
              eq_refl)
    as (r1' & r2' & v & H1 & H2 & H3 & H4).
  exists r1', r2', v. repeat split; assumption.
Defined.

(** A table that has [load_var] for the kinds of the [switch]: the pass
    never asks it for them. *)
Lemma nir_lower_system_values_table_other_witness :
  nir_lower_system_values example_table example_dest_components example_args_order
    (example_shader SYSTEM_VALUE_VERTEX_ID) =
  nir_lower_system_values
    (fun location =>
       match location with
       | SYSTEM_VALUE_other n => Some (nir_intrinsic_other n)
       | _ => Some nir_intrinsic_load_var
       end)
    example_dest_components example_args_order (example_shader SYSTEM_VALUE_VERTEX_ID).
Proof.
  apply nir_lower_system_values_table_other. intros n. reflexivity.
Defined.

Lemma gen_prefixes_distinct_witness :
  75%Z = 75%Z /\ "emit_state"%string = "emit_state"%string.
Proof.
  apply (gen_prefixes_distinct 75 75 "emit_state" "emit_state" "gen75_emit_state").
  left. split; reflexivity.
Defined.

(** Pointers of eight bytes, nothing queued and nothing emitted: binding
    the state at address 64 to [vs] writes element 9 of the array. *)
Lemma si_pm4_bind_state_slot_witness :
  SiState.queued
    (SiState.si_pm4_bind_state
       {| SiState.queued := fun _ => SiState.NULL;
          SiState.emitted := fun _ => SiState.NULL |} SiState.vs 64%N) 9 = 64%N.
Proof.
  apply (proj1 (si_pm4_bind_state_slot 8
                  {| SiState.queued := fun _ => SiState.NULL;
                     SiState.emitted := fun _ => SiState.NULL |}
                  SiState.vs 64%N (Nat.lt_0_succ 7)) 9).
Defined.

Lemma si_pm4_delete_state_unbinds_witness :
  exists sctx1,
    SiState.si_pm4_delete_state (fun sctx _ _ => sctx) 8
      {| SiState.queued := fun _ => 64%N; SiState.emitted := fun _ => SiState.NULL |}
      SiState.vs 64%N = sctx1 /\
    SiState.named (SiState.queued sctx1) SiState.vs <> 64%N.
Proof.
  destruct (si_pm4_delete_state_unbinds (fun sctx _ _ => sctx) 8
              {| SiState.queued := fun _ => 64%N;
                 SiState.emitted := fun _ => SiState.NULL |}
              SiState.vs 64%N (Nat.lt_0_succ 7))
    as (sctx1 & H1 & H2 & _).
  exists sctx1. split; [exact H1|]. apply H2. discriminate.
Defined.

(** The function that reads the instance index: the use of the value of
    the read has a definition again. *)
Lemma convert_impl_uses_closed_witness :
  exists impl' p,
    convert_impl example_table example_dest_components example_args_order (example_info 8 1 1)
      example_options (example_impl SYSTEM_VALUE_INSTANCE_INDEX) = Some (impl', p) /\
    uses_closed impl'.
Proof.
  exact (convert_impl_uses_closed example_table example_dest_components example_args_order
           (example_info 8 1 1) example_options
           (example_impl SYSTEM_VALUE_INSTANCE_INDEX)
           (example_impl_uses_closed SYSTEM_VALUE_INSTANCE_INDEX) eq_refl).
Defined.

Lemma convert_impl_keeps_blocks_ordered_witness :
  exists impl' p,
    convert_impl example_table example_dest_components example_args_order (example_info 8 1 1)
      example_options (example_impl SYSTEM_VALUE_GLOBAL_INVOCATION_ID) =
      Some (impl', p) /\
    impl_allocated impl' /\
    uses_allocated impl' /\
    forall bj, ordered (block_instrs impl' bj).
Proof.
  exact (convert_impl_keeps_blocks_ordered example_table example_dest_components example_args_order
           (example_info 8 1 1) example_options
           (example_impl SYSTEM_VALUE_GLOBAL_INVOCATION_ID)
           (example_impl_allocated SYSTEM_VALUE_GLOBAL_INVOCATION_ID)
           (example_impl_uses_allocated SYSTEM_VALUE_GLOBAL_INVOCATION_ID)
           (example_impl_ordered SYSTEM_VALUE_GLOBAL_INVOCATION_ID) eq_refl).
Defined.

(** Two generations that are both of generation seven and both not
    Haswell: Ivy Bridge twice. *)
Lemma gen_checks_determine_witness : 70%Z = 70%Z.
Proof.
  apply (gen_checks_determine 70 70 "emit_state").
  - discriminate.
  - discriminate.
  - reflexivity.
  - reflexivity.
Defined.

(** The function that reads the local invocation index: the third local
    size and the flag of the vertex id are not looked at. *)
Lemma convert_impl_same_data_witness :
  convert_impl example_table example_dest_components example_args_order (example_info 4 4 1)
    example_options (example_impl SYSTEM_VALUE_LOCAL_INVOCATION_INDEX) =
  convert_impl example_table example_dest_components example_args_order (example_info 4 4 9)
    {| vertex_id_zero_based := false |}
    (example_impl SYSTEM_VALUE_LOCAL_INVOCATION_INDEX).
Proof.
  apply convert_impl_same_data.
  intros i location [<- | [<- | [<- | []]]] Hload; try discriminate.
  injection Hload as <-. split; reflexivity.
Defined.

